(** * SugarCube-2 ModLoader: [HtmlTagSrcHook] and [SC2DataManager]

    A shallow embedding of [src/BeforeSC2/HtmlTagSrcHook.ts] and of the
    [SC2DataManager] class that follows it in the same source file, with
    the properties of the merge-and-patch pipeline proved about it.

    Conventions of the embedding:
    - a record id is an [option Z], as the data model has it
      ([id?: integer]): [Some z] is the integral number [z], [None] is
      [undefined]; a [z] that is no double stands for the double nearest
      to it wherever the number is printed;
    - the DOM is a rose tree of nodes carrying an identity ([nid]);
    - methods that mutate [this], may throw, or write to the console are
      computations in a state-and-exception monad over the manager's
      state; the console, the logger and the life-cycle callbacks of the
      [ModLoadController] are recorded as an event trace;
    - [SC2DataInfo] objects live in a store and are handled by reference,
      so that aliasing between the caches and the merge target shows. *)

From Stdlib Require Import ZArith Ascii String List Bool Lia Sorted.
From stdpp Require Import base option list strings gmap pretty.

Open Scope string_scope.
Open Scope list_scope.
Open Scope Z_scope.

(** ** Content records *)

(** A script or style entry: [{ id, name, content }], the id being an
    integer or absent as in the data model. *)
Record SC2DataItem := mkItem {
  item_id : option Z;
  item_name : string;
  item_content : string;
}.

(** A passage entry, [PassageDataItem]. *)
Record PassageDataItem := mkPassage {
  passage_id : option Z;
  passage_name : string;
  passage_tags : option (list string);
  passage_content : string;
  passage_position : option string;
  passage_size : option string;
}.

(** [SC2DataInfo]: the three [items] arrays and the [dataSource] label. *)
Record SC2DataInfo := mkInfo {
  dataSource : string;
  scriptFileItems : list SC2DataItem;
  styleFileItems : list SC2DataItem;
  passageDataItems : list PassageDataItem;
}.

(** ** JavaScript primitives used by the source *)

Definition MAX_SAFE_INTEGER : Z := 2 ^ 53 - 1.

(** lodash [isSafeInteger]: a number, integral, of magnitude at most
    [2^53 - 1]. *)
Definition isSafeInteger (v : option Z) : bool :=
  match v with
  | Some z => Z.abs z <=? MAX_SAFE_INTEGER
  | None => false
  end.

(** [a < b], [a === b], [a > b] on ids; a comparison with [undefined]
    is false, [undefined === undefined] is true. *)
Definition js_lt (a b : option Z) : bool :=
  match a, b with Some x, Some y => x <? y | _, _ => false end.

Definition js_seq (a b : option Z) : bool :=
  match a, b with
  | Some x, Some y => x =? y
  | None, None => true
  | _, _ => false
  end.

Definition js_gt (a b : option Z) : bool := js_lt b a.

(** *** [Number::toString]

    The double nearest to a non-negative integer, ties going to the even
    significand: an integer of at most 53 bits is a double. *)
Definition toDouble (x : Z) : Z :=
  let e := Z.log2 x + 1 - 53 in
  if e <=? 0 then x
  else
    let q := Z.shiftr x e in
    let r := x - Z.shiftl q e in
    let half := 2 ^ (e - 1) in
    Z.shiftl (if (half <? r) || ((r =? half) && Z.odd q) then q + 1 else q) e.

(** The pairs [(n, s)] with [s] of [k] digits for which [s * 10^(n-k)]
    reads back as the double [x] of [d] digits. *)
Definition digitCandidates (x d k : Z) : list (Z * Z) :=
  List.filter
    (fun ns =>
       (10 ^ (k - 1) <=? snd ns) && (snd ns <? 10 ^ k)
       && (toDouble (snd ns * 10 ^ (fst ns - k)) =? x))
    (flat_map (fun n => let q := x / 10 ^ (n - k) in [(n, q); (n, q + 1)]) [d; d + 1]).

(** Of two candidates the one nearer to [x], the even one when they are
    equally near. *)
Definition closer (x k : Z) (a b : Z * Z) : Z * Z :=
  let da := Z.abs (snd a * 10 ^ (fst a - k) - x) in
  let db := Z.abs (snd b * 10 ^ (fst b - k) - x) in
  if da <? db then a
  else if db <? da then b
  else if Z.even (snd a) then a else b.

(** [(n, k, s)] with [k] as small as possible, [k] counting up from its
    argument; the digits of [x] itself when [fuel] runs out. *)
Fixpoint shortestDigits (fuel : nat) (x d k : Z) : Z * Z * Z :=
  match fuel with
  | O => (d, d, x)
  | S fuel' =>
      match digitCandidates x d k with
      | c :: cs => let '(n, s) := fold_left (closer x k) cs c in (n, k, s)
      | [] => shortestDigits fuel' x d (k + 1)
      end
  end.

Fixpoint zeros (n : nat) : string :=
  match n with
  | O => EmptyString
  | S n' => String "0"%char (zeros n')
  end.

(** [Number::toString] of an integral double [x > 0]: the shortest
    digits that read back as [x], followed by zeros up to [10^21] and in
    exponent notation from there on. Seventeen digits always read back. *)
Definition positiveToString (x : Z) : string :=
  if 2 ^ 1024 <=? x then "Infinity"
  else
    let d := Z.of_nat (String.length (pretty x)) in
    let '(n, k, s) := shortestDigits (Z.to_nat (Z.min d 17)) x d 1 in
    if n <=? 21 then pretty s +:+ zeros (Z.to_nat (n - k))
    else
      match pretty s with
      | String c rest =>
          String c (if 1 <? k then "." +:+ rest else EmptyString)
          +:+ "e+" +:+ pretty (n - 1)
      | EmptyString => EmptyString
      end.

(** [String(z)], [`${z}`] and ['' + z] for an integral number: a safe
    integer prints as its decimal digits, a larger one as the double it
    is. *)
Definition numberToString (z : Z) : string :=
  if Z.abs z <=? MAX_SAFE_INTEGER then pretty z
  else if z <? 0 then "-" +:+ positiveToString (toDouble (- z))
  else positiveToString (toDouble z).

(** [Array.prototype.sort(cmp)]: the language fixes the result for a
    consistent comparator as the stable sorted order; it is computed here
    by a stable insertion sort, [x] going before the first [y] with
    [cmp x y <= 0]. *)
Fixpoint sort_insert {A} (cmp : A -> A -> Z) (x : A) (l : list A) : list A :=
  match l with
  | [] => [x]
  | y :: l' => if cmp x y <=? 0 then x :: y :: l' else y :: sort_insert cmp x l'
  end.

Definition Array_sort {A} (cmp : A -> A -> Z) (l : list A) : list A :=
  foldr (sort_insert cmp) [] l.

(** ** [makeScriptNode]: the comparator and the sort *)

(** The arrow function passed to [sort] in [makeScriptNode], with its
    fall-through from the first [if] block to the second. *)
Definition scriptCompare (a b : SC2DataItem) : Z :=
  let fallthrough :=
    if isSafeInteger (item_id a) then -1
    else if isSafeInteger (item_id b) then 1
    else 0 in
  if isSafeInteger (item_id a) && isSafeInteger (item_id b) then
    if js_lt (item_id a) (item_id b) then -1
    else if js_seq (item_id a) (item_id b) then 0
    else if js_gt (item_id a) (item_id b) then 1
    else fallthrough
  else fallthrough.

(** [sc.scriptFileItems.items.sort(...)]. *)
Definition sortScriptFileItems (items : list SC2DataItem) : list SC2DataItem :=
  Array_sort scriptCompare items.

(** The sentence of the specification, over the predicate that selects
    the id-bearing group: the output is the id-bearing records, and only
    those, in ascending id order (records of equal id in their input
    order), followed by the other records in their input order. *)
Definition hasIdEq (z : Z) (r : SC2DataItem) : bool :=
  bool_decide (item_id r = Some z).

Definition idLe (a b : SC2DataItem) : Prop :=
  match item_id a, item_id b with
  | Some x, Some y => x <= y
  | _, _ => False
  end.

Definition StablePartitionSort (hasId : SC2DataItem -> bool)
    (input output : list SC2DataItem) : Prop :=
  exists withId,
    output = withId ++ List.filter (fun r => negb (hasId r)) input
    /\ Forall (fun r => hasId r = true) withId
    /\ Sorted idLe withId
    /\ forall z, List.filter (hasIdEq z) withId
                 = List.filter (fun r => hasId r && hasIdEq z r) input.

(** "a well-formed non-negative integer id", as the specification words
    the id-bearing group. *)
Definition hasNonNegativeIntegerId (r : SC2DataItem) : bool :=
  match item_id r with
  | Some z => (0 <=? z) && (z <=? MAX_SAFE_INTEGER)
  | None => false
  end.

(** The group the comparator really selects: [isSafeInteger(id)]. *)
Definition hasSafeIntegerId (r : SC2DataItem) : bool := isSafeInteger (item_id r).

(** ** Thrown values, events, and the state-and-exception monad *)

(** A thrown value: [e?.message] (empty when absent or falsy) and
    [String(e)]. *)
Record JsError := mkError {
  message : string;
  errorText : string;
}.

(** [${e?.message ? e.message : e}] *)
Definition errorMessageOrText (e : JsError) : string :=
  if String.eqb (message e) EmptyString then errorText e else message e.

Definition TypeError (msg : string) : JsError :=
  mkError msg (String.append "TypeError: " msg).
Definition NotFoundError : JsError :=
  mkError "The node to be removed is not a child of this node."
          "NotFoundError: The node to be removed is not a child of this node.".
Definition InvalidCharacterError : JsError :=
  mkError "String contains an invalid character"
          "InvalidCharacterError: String contains an invalid character".

(** What the code sends to its collaborators: the console, the logger
    ([LogWrapper]), and the life-cycle callbacks of [ModLoadController]
    and [AddonPluginManager]. Arguments that are objects are recorded by
    the strings that identify them. *)
Inductive Event :=
| ConsoleLog (msg : string) (args : list string)
| ConsoleWarn (msg : string)
| ConsoleError (msg : string) (args : list string)
| LoggerError (msg : string)
| LoggerInfo (msg : string)
| PatchModToGame_start
| PatchModToGame_end
| ReplacePatcher_start (modName patchFileName : string)
| ReplacePatcher_end (modName patchFileName : string)
| LoadMod
| DependenceCheck
| TriggerHook (hook : string).

Inductive Result (A : Type) :=
| Ok (a : A)
| Throw (e : JsError).
Arguments Ok {A} a.
Arguments Throw {A} e.

(** A computation over a state [S]: it returns or throws, and the state
    it leaves behind is kept in both cases. *)
Definition M (S A : Type) : Type := S -> Result A * S.

Definition ret {S A} (a : A) : M S A := fun s => (Ok a, s).

Definition bind {S A B} (m : M S A) (k : A -> M S B) : M S B :=
  fun s =>
    match m s with
    | (Ok a, s') => k a s'
    | (Throw e, s') => (Throw e, s')
    end.

Definition throw {S A} (e : JsError) : M S A := fun s => (Throw e, s).

(** [try { m } catch (e) { h e }] *)
Definition try_catch {S A} (m : M S A) (h : JsError -> M S A) : M S A :=
  fun s =>
    match m s with
    | (Ok a, s') => (Ok a, s')
    | (Throw e, s') => h e s'
    end.

Definition gets {S A} (f : S -> A) : M S A := fun s => (Ok (f s), s).
Definition modify {S} (f : S -> S) : M S unit := fun s => (Ok tt, f s).

Notation "x <- m ;; k" := (bind m (fun x => k))
  (at level 100, m at next level, right associativity).
Notation "m ;;; k" := (bind m (fun _ => k))
  (at level 100, right associativity).

(** [for (const x of l) { body x }] *)
Fixpoint forEach {S A} (l : list A) (body : A -> M S unit) : M S unit :=
  match l with
  | [] => ret tt
  | x :: l' => body x ;;; forEach l' body
  end.

(** [l.map(f)] for an effectful [f]. *)
Fixpoint mapM {S A B} (f : A -> M S B) (l : list A) : M S (list B) :=
  match l with
  | [] => ret []
  | x :: l' => y <- f x ;; ys <- mapM f l' ;; ret (y :: ys)
  end.

(** ** The DOM *)

(** A node: an element, a text node ([nodeName = "#text"], its data in
    [nodeValue]) or the document ([nodeName = "#document"]). [nid] is the
    identity of the node object. Element names and attribute names are
    kept in ASCII lower case, as an HTML document does. *)
#[local] Unset Elimination Schemes.
Inductive Node := mkNode {
  nid : nat;
  nodeName : string;
  attributes : list (string * string);
  nodeValue : string;
  childNodes : list Node;
}.
#[local] Set Elimination Schemes.

Definition toLowerAscii (c : ascii) : ascii :=
  let n := nat_of_ascii c in
  if ((65 <=? n) && (n <=? 90))%nat then ascii_of_nat (n + 32) else c.

Definition toUpperAscii (c : ascii) : ascii :=
  let n := nat_of_ascii c in
  if ((97 <=? n) && (n <=? 122))%nat then ascii_of_nat (n - 32) else c.

Fixpoint mapString (f : ascii -> ascii) (s : string) : string :=
  match s with
  | EmptyString => EmptyString
  | String c s' => String (f c) (mapString f s')
  end.

Definition toLowerCase : string -> string := mapString toLowerAscii.
Definition toUpperCase : string -> string := mapString toUpperAscii.

(** The node itself, when it is an element named [tag], then its
    descendants, in document order. *)
Fixpoint elementsSelf (tag : string) (n : Node) : list Node :=
  match n with
  | mkNode _ nm _ _ cs =>
      (if String.eqb nm tag then [n] else []) ++ flat_map (elementsSelf tag) cs
  end.

(** [node.getElementsByTagName(tag)]: the descendants named [tag]. *)
Definition getElementsByTagName (n : Node) (tag : string) : list Node :=
  flat_map (elementsSelf tag) (childNodes n).

(** The node and all its descendants, in document order. *)
Fixpoint nodesSelf (n : Node) : list Node :=
  match n with
  | mkNode _ _ _ _ cs => n :: flat_map nodesSelf cs
  end.

Definition descendants (n : Node) : list Node := flat_map nodesSelf (childNodes n).

(** *** Attributes *)

Definition isAsciiWhitespace (c : ascii) : bool :=
  let n := nat_of_ascii c in
  ((n =? 9) || (n =? 10) || (n =? 12) || (n =? 13) || (n =? 32))%nat.

Fixpoint allChars (p : ascii -> bool) (s : string) : bool :=
  match s with
  | EmptyString => true
  | String c s' => p c && allChars p s'
  end.

(** The DOM's "valid attribute local name": not empty, and free of ASCII
    whitespace, NUL, [/], [=] and [>]. *)
Definition validAttributeLocalName (name : string) : bool :=
  negb (String.eqb name EmptyString)
  && allChars (fun c =>
       let n := nat_of_ascii c in
       negb (isAsciiWhitespace c || (n =? 0) || (n =? 47) || (n =? 61) || (n =? 62))%nat)
     name.

(** A list of pairs with one pair per key, in insertion order: the
    attribute list of an element, and a JavaScript [Map] with string
    keys. *)
Fixpoint assocGet {V} (k : string) (l : list (string * V)) : option V :=
  match l with
  | [] => None
  | (k', v) :: l' => if String.eqb k' k then Some v else assocGet k l'
  end.

(** Change the value of the pair keyed [k] where it stands, or append a
    new pair. *)
Fixpoint assocSet {V} (k : string) (v : V) (l : list (string * V))
  : list (string * V) :=
  match l with
  | [] => [(k, v)]
  | (k', v') :: l' =>
      if String.eqb k' k then (k', v) :: l' else (k', v') :: assocSet k v l'
  end.

Definition assocHas {V} (k : string) (l : list (string * V)) : bool :=
  existsb (fun kv => String.eqb (fst kv) k) l.

(** [el.getAttribute(name)]; [None] is [null]. *)
Definition getAttribute (el : Node) (name : string) : option string :=
  assocGet (toLowerCase name) (attributes el).

(** [el.setAttribute(name, value)] *)
Definition setAttribute (name value : string) (el : Node) : Result Node :=
  if validAttributeLocalName name then
    Ok (mkNode (nid el) (nodeName el)
          (assocSet (toLowerCase name) value (attributes el))
          (nodeValue el) (childNodes el))
  else Throw InvalidCharacterError.

(** *** Children *)

Definition sameNode (a b : Node) : bool := Nat.eqb (nid a) (nid b).

Fixpoint removeFirst (child : Node) (l : list Node) : list Node :=
  match l with
  | [] => []
  | c :: l' => if sameNode c child then l' else c :: removeFirst child l'
  end.

(** [parent.removeChild(child)]: [NotFoundError] when [child] is not a
    child of [parent]. *)
Definition removeChild (child : Node) (parent : Node) : Result Node :=
  if existsb (fun c => sameNode c child) (childNodes parent) then
    Ok (mkNode (nid parent) (nodeName parent) (attributes parent)
          (nodeValue parent) (removeFirst child (childNodes parent)))
  else Throw NotFoundError.

(** [parent.appendChild(child)], for a [child] that has no parent yet. *)
Definition appendChild (child : Node) (parent : Node) : Result Node :=
  Ok (mkNode (nid parent) (nodeName parent) (attributes parent)
        (nodeValue parent) (childNodes parent ++ [child])).

(** [node.textContent]: the data of the text nodes below, concatenated. *)
Fixpoint textContent (n : Node) : string :=
  match n with
  | mkNode _ nm _ v cs =>
      if String.eqb nm "#text" then v
      else fold_right (fun c acc => String.append (textContent c) acc) EmptyString cs
  end.

(** [node.textContent = s]: all children go; a text node holding [s]
    comes in their place unless [s] is empty. [textId] is the identity of
    that new text node. *)
Definition setTextContent (textId : nat) (s : string) (n : Node) : Node :=
  mkNode (nid n) (nodeName n) (attributes n) (nodeValue n)
    (if String.eqb s EmptyString then []
     else [mkNode textId "#text" [] s []]).

(** *** Replacing the first element of a given name

    The manager never keeps a reference to the story-data element: its
    [rootNode] getter looks the element up, as the first [tw-storydata]
    of the document, at every use. Writing the changed element back at
    that position keeps the getter pointing at it. *)
Fixpoint replaceFirstSelf (tag : string) (new : Node) (n : Node) : option Node :=
  match n with
  | mkNode i nm ats v cs =>
      if String.eqb nm tag then Some new
      else
        option_map (mkNode i nm ats v)
          ((fix inList (l : list Node) : option (list Node) :=
              match l with
              | [] => None
              | c :: l' =>
                  match replaceFirstSelf tag new c with
                  | Some c' => Some (c' :: l')
                  | None => option_map (cons c) (inList l')
                  end
              end) cs)
  end.

Fixpoint replaceFirstInList (tag : string) (new : Node) (l : list Node)
  : option (list Node) :=
  match l with
  | [] => None
  | c :: l' =>
      match replaceFirstSelf tag new c with
      | Some c' => Some (c' :: l')
      | None => option_map (cons c) (replaceFirstInList tag new l')
      end
  end.

Definition replaceFirstDescendant (tag : string) (new : Node) (n : Node) : Node :=
  match replaceFirstInList tag new (childNodes n) with
  | Some cs => mkNode (nid n) (nodeName n) (attributes n) (nodeValue n) cs
  | None => n
  end.

(** ** The state of [SC2DataManager] and its collaborators *)

(** A [ReplacePatcher]: its file name and what [applyReplacePatcher]
    does to the [SC2DataInfo] object it is handed. It edits the object in
    place and may throw after some of its edits. *)
Record ReplacePatcher := mkReplacePatcher {
  patchFileName : string;
  runReplacePatcher : M SC2DataInfo unit;
}.

(** [ModInfo], as far as the manager reads it. *)
Record ModInfo := mkModInfo {
  cache : SC2DataInfo;
  replacePatcher : list ReplacePatcher;
}.

(** What [getModLoader()] exposes: [modCache] and [modOrder]. *)
Record ModLoader := mkModLoader {
  modCache : gmap string ModInfo;
  modOrder : list string;
}.

(** One entry of [checkModConflictList()]: the mod's [dataSource] and
    the conflicting names found for styles, scripts and passages. *)
Record ConflictEntry := mkConflictEntry {
  conflictMod : string;
  conflictStyle : list string;
  conflictScript : list string;
  conflictPassage : list string;
}.

(** Code of the repository that the manager calls and that is defined
    in other modules ([SC2DataInfoCache], [MergeSC2DataInfoCache],
    [ModLoader]). *)
Record Imports := mkImports {
  (** [new SC2DataInfoCache(log, dataSource, scripts, styles, passages)] *)
  newSC2DataInfoCache : string -> list Node -> list Node -> list Node -> SC2DataInfo;
  (** [cache.cloneSC2DataInfo()], the content of the copy *)
  cloneSC2DataInfo : SC2DataInfo -> SC2DataInfo;
  (** [cache.clean()], the content it leaves in the object *)
  clean : SC2DataInfo -> SC2DataInfo;
  (** [normalMergeSC2DataInfoCache(first, ...rest)] *)
  normalMergeSC2DataInfoCache : SC2DataInfo -> list SC2DataInfo -> SC2DataInfo;
  (** [replaceMergeSC2DataInfoCache(base, overlay)] *)
  replaceMergeSC2DataInfoCache : SC2DataInfo -> SC2DataInfo -> SC2DataInfo;
  (** [getModLoader().loadMod(order)], the mods it leaves loaded *)
  loadMod : ModLoader -> ModLoader;
  (** [getModLoader().checkModConflictList()] *)
  checkModConflictList : ModLoader -> list ConflictEntry;
}.

(** Modelled from the spec: [new SC2DataInfo(log, dataSource)], the
    class of [SC2DataInfoCache.ts], builds the empty snapshot
    ("EmptySnapshot") labelled [dataSource]. *)
Definition newSC2DataInfo (label : string) : SC2DataInfo := mkInfo label [] [] [].

(** The fields of the manager, the document of [thisWin], the store of
    [SC2DataInfo] objects (a reference is an index into [heap]), and the
    events sent so far, oldest first.

    [this.modLoader] is two fields: [modLoaderCreated] tells whether the
    field is set, and [modLoader] is the object [getModLoader()] returns,
    that is, the object [new ModLoader(...)] builds at the first call
    and the mods loaded into it since. The constructor is code of
    [ModLoader.ts]; what it builds is whatever the state holds in
    [modLoader] while [modLoaderCreated] is false. *)
Record SC2DataManager := mkManager {
  document : Node;
  nextNodeId : nat;
  heap : list SC2DataInfo;
  originSC2DataInfoCache : option nat;
  cSC2DataInfoAfterPatchCache : option nat;
  startInitOk : bool;
  modLoader : ModLoader;
  conflictResult : option (list ConflictEntry);
  events : list Event;
  modLoaderCreated : bool;
}.

Definition set_document (d : Node) (st : SC2DataManager) : SC2DataManager :=
  mkManager d (nextNodeId st) (heap st) (originSC2DataInfoCache st)
    (cSC2DataInfoAfterPatchCache st) (startInitOk st) (modLoader st)
    (conflictResult st) (events st) (modLoaderCreated st).

Definition set_nextNodeId (n : nat) (st : SC2DataManager) : SC2DataManager :=
  mkManager (document st) n (heap st) (originSC2DataInfoCache st)
    (cSC2DataInfoAfterPatchCache st) (startInitOk st) (modLoader st)
    (conflictResult st) (events st) (modLoaderCreated st).

Definition set_heap (h : list SC2DataInfo) (st : SC2DataManager) : SC2DataManager :=
  mkManager (document st) (nextNodeId st) h (originSC2DataInfoCache st)
    (cSC2DataInfoAfterPatchCache st) (startInitOk st) (modLoader st)
    (conflictResult st) (events st) (modLoaderCreated st).

Definition set_originSC2DataInfoCache (c : option nat) (st : SC2DataManager)
  : SC2DataManager :=
  mkManager (document st) (nextNodeId st) (heap st) c
    (cSC2DataInfoAfterPatchCache st) (startInitOk st) (modLoader st)
    (conflictResult st) (events st) (modLoaderCreated st).

Definition set_cSC2DataInfoAfterPatchCache (c : option nat) (st : SC2DataManager)
  : SC2DataManager :=
  mkManager (document st) (nextNodeId st) (heap st) (originSC2DataInfoCache st)
    c (startInitOk st) (modLoader st) (conflictResult st) (events st) (modLoaderCreated st).

Definition set_startInitOk (b : bool) (st : SC2DataManager) : SC2DataManager :=
  mkManager (document st) (nextNodeId st) (heap st) (originSC2DataInfoCache st)
    (cSC2DataInfoAfterPatchCache st) b (modLoader st) (conflictResult st)
    (events st) (modLoaderCreated st).

Definition set_modLoader (m : ModLoader) (st : SC2DataManager) : SC2DataManager :=
  mkManager (document st) (nextNodeId st) (heap st) (originSC2DataInfoCache st)
    (cSC2DataInfoAfterPatchCache st) (startInitOk st) m (conflictResult st)
    (events st) (modLoaderCreated st).

Definition set_conflictResult (c : option (list ConflictEntry)) (st : SC2DataManager)
  : SC2DataManager :=
  mkManager (document st) (nextNodeId st) (heap st) (originSC2DataInfoCache st)
    (cSC2DataInfoAfterPatchCache st) (startInitOk st) (modLoader st) c
    (events st) (modLoaderCreated st).

Definition set_events (l : list Event) (st : SC2DataManager) : SC2DataManager :=
  mkManager (document st) (nextNodeId st) (heap st) (originSC2DataInfoCache st)
    (cSC2DataInfoAfterPatchCache st) (startInitOk st) (modLoader st)
    (conflictResult st) l (modLoaderCreated st).

Definition set_modLoaderCreated (b : bool) (st : SC2DataManager) : SC2DataManager :=
  mkManager (document st) (nextNodeId st) (heap st) (originSC2DataInfoCache st)
    (cSC2DataInfoAfterPatchCache st) (startInitOk st) (modLoader st)
    (conflictResult st) (events st) b.

(** A call of the console, the logger or a life-cycle callback. *)
Definition emit (e : Event) : M SC2DataManager unit :=
  modify (fun st => set_events (events st ++ [e]) st).

(** A result computed outside the monad, returned or thrown. *)
Definition liftResult {S A} (r : Result A) : M S A := fun s => (r, s).

(** *** The store of [SC2DataInfo] objects *)

(** [new ...]: the new object gets the next free reference. *)
Definition alloc (v : SC2DataInfo) : M SC2DataManager nat :=
  fun st => (Ok (length (heap st)), set_heap (heap st ++ [v]) st).

(** Reading through a reference. A reference handed out by [alloc]
    always resolves; the error is there for totality only. *)
Definition deref (r : nat) : M SC2DataManager SC2DataInfo :=
  fun st =>
    match heap st !! r with
    | Some v => (Ok v, st)
    | None => (Throw (TypeError "unknown reference"), st)
    end.

(** In-place change of the object behind a reference. *)
Definition update (r : nat) (f : SC2DataInfo -> SC2DataInfo) : M SC2DataManager unit :=
  modify (fun st => set_heap (alter f r (heap st)) st).

(** ** The methods of [SC2DataManager] *)

Definition LF : string := String "010"%char EmptyString.
Definition DQUOTE : string := String "034"%char EmptyString.

(** [String(id)] inside a template literal. *)
Definition idToString (v : option Z) : string :=
  match v with
  | Some z => numberToString z
  | None => "undefined"
  end.

Definition undefinedRootError : JsError :=
  TypeError "Cannot read properties of undefined (reading 'getElementsByTagName')".

(** [get rootNode()]: [None] is [undefined]. *)
Definition rootNode : M SC2DataManager (option Node) :=
  gets (fun st => head (getElementsByTagName (document st) "tw-storydata")).

(** [this.rootNode.getElementsByTagName(tag)] *)
Definition rootElements (tag : string) : M SC2DataManager (list Node) :=
  r <- rootNode ;;
  match r with
  | Some root => ret (getElementsByTagName root tag)
  | None => throw undefinedRootError
  end.

Definition styleNode : M SC2DataManager (list Node) := rootElements "style".
Definition scriptNode : M SC2DataManager (list Node) := rootElements "script".
Definition passageDataNodeList : M SC2DataManager (list Node) :=
  rootElements "tw-passagedata".

(** Reading the property [property] of [undefined]. *)
Definition undefinedReadError (property : string) : JsError :=
  TypeError ("Cannot read properties of undefined (reading '" +:+ property +:+ "')").

(** The call [this.rootNode.method(...)], on the element [this.rootNode]
    stands for. *)
Definition onRootNode (method : string) (f : Node -> Result Node)
  : M SC2DataManager unit :=
  r <- rootNode ;;
  match r with
  | None => throw (undefinedReadError method)
  | Some root =>
      root' <- liftResult (f root) ;;
      modify (fun st =>
        set_document (replaceFirstDescendant "tw-storydata" root' (document st)) st)
  end.

(** [this.thisWin.document.createElement(tag)] *)
Definition createElement (tag : string) : M SC2DataManager Node :=
  fun st =>
    (Ok (mkNode (nextNodeId st) tag [] EmptyString []),
     set_nextNodeId (S (nextNodeId st)) st).

(** [node.textContent = s] on a node that is not in the document yet. *)
Definition assignTextContent (s : string) (n : Node) : M SC2DataManager Node :=
  fun st =>
    (Ok (setTextContent (nextNodeId st) s n),
     set_nextNodeId (S (nextNodeId st)) st).

(** [checkSC2Data()]. A collection is never falsy, so the [!rNodes]
    branches and their like cannot be taken and are left out. *)
Definition checkSC2Data : M SC2DataManager bool :=
  rNodes <- gets (fun st => getElementsByTagName (document st) "tw-storydata") ;;
  match rNodes with
  | [rNode] =>
      let stNodes := getElementsByTagName rNode "style" in
      if negb (Nat.eqb (length stNodes) 1) then
        emit (ConsoleError "checkSC2Data() (stNodes.length !== 1)" []) ;;; ret false
      else
      let scNodes := getElementsByTagName rNode "script" in
      if negb (Nat.eqb (length scNodes) 1) then
        emit (ConsoleError "checkSC2Data() (scNodes.length !== 1)" []) ;;; ret false
      else
      let passageDataNodes := getElementsByTagName rNode "tw-storydata" in
      if Nat.ltb (length passageDataNodes) 1 then
        emit (ConsoleError "checkSC2Data() (passageDataNodes.length < 1)" []) ;;;
        ret false
      else
      let nn :=
        List.filter
          (fun T => negb (String.eqb (toUpperCase T) "TW-PASSAGEDATA"))
          (map nodeName (childNodes rNode)) in
      (if negb (Nat.eqb (length nn) 2) then
         emit (ConsoleWarn
           "checkSC2Data() (nn.length !== 2) some addtion unkown node in tw-storydata")
       else ret tt) ;;;
      ret true
  | _ =>
      emit (ConsoleError "checkSC2Data() (rNodes.length !== 1)" []) ;;; ret false
  end.

(** [getModLoader()]: the first call logs the controller and creates
    the loader. [new ModLoader(...)] is code of [ModLoader.ts]; the
    object it builds is the one the state carries in [modLoader], so
    that a statement about every state is one about every object the
    constructor may build. *)
Definition getModLoader : M SC2DataManager ModLoader :=
  created <- gets modLoaderCreated ;;
  (if created then ret tt
   else
     emit (ConsoleLog "this.modLoadControllerCallback" []) ;;;
     modify (set_modLoaderCreated true)) ;;;
  gets modLoader.

Section Manager.

Variable env : Imports.

(** [new SC2DataInfoCache(log, 'orgin', Array.from(this.scriptNode),
    Array.from(this.styleNode), Array.from(this.passageDataNodeList))] *)
Definition captureFromNow : M SC2DataManager nat :=
  scripts <- scriptNode ;;
  styles <- styleNode ;;
  passages <- passageDataNodeList ;;
  alloc (newSC2DataInfoCache env "orgin" scripts styles passages).

Definition createNewSC2DataInfoFromNow : M SC2DataManager nat := captureFromNow.

Definition initSC2DataInfoCache : M SC2DataManager unit :=
  origin <- gets originSC2DataInfoCache ;;
  match origin with
  | Some _ => ret tt
  | None =>
      r <- captureFromNow ;;
      modify (set_originSC2DataInfoCache (Some r))
  end.

Definition getSC2DataInfoCache : M SC2DataManager (option nat) :=
  initSC2DataInfoCache ;;;
  gets originSC2DataInfoCache.

Definition getSC2DataInfoAfterPatch : M SC2DataManager nat :=
  initSC2DataInfoCache ;;;
  c <- gets cSC2DataInfoAfterPatchCache ;;
  match c with
  | Some r => ret r
  | None =>
      r <- captureFromNow ;;
      modify (set_cSC2DataInfoAfterPatchCache (Some r)) ;;;
      v <- deref r ;;
      emit (ConsoleLog "getSC2DataInfoAfterPatch() init cloneSC2DataInfo"
              [dataSource (cloneSC2DataInfo env v)]) ;;;
      ret r
  end.

Definition flushAfterPatchCache : M SC2DataManager unit :=
  modify (set_cSC2DataInfoAfterPatchCache None) ;;;
  _ <- getSC2DataInfoAfterPatch ;;
  ret tt.

Definition earlyResetSC2DataInfoCache : M SC2DataManager unit :=
  initSC2DataInfoCache ;;;
  flushAfterPatchCache.

(** [cache?.clean()] *)
Definition cleanIfDefined (c : option nat) : M SC2DataManager unit :=
  match c with
  | Some r => update r (clean env)
  | None => ret tt
  end.

Definition cleanAllCacheAfterModLoadEnd : M SC2DataManager unit :=
  origin <- gets originSC2DataInfoCache ;;
  cleanIfDefined origin ;;;
  modify (set_originSC2DataInfoCache None) ;;;
  c <- gets cSC2DataInfoAfterPatchCache ;;
  cleanIfDefined c ;;;
  modify (set_cSC2DataInfoAfterPatchCache None).

(** [rp.applyReplacePatcher(target)]: the patcher edits the object
    behind [target]; what it had written before throwing stays. *)
Definition callReplacePatcher (rp : ReplacePatcher) (target : nat)
  : M SC2DataManager unit :=
  v <- deref target ;;
  let '(r, v') := runReplacePatcher rp v in
  update target (fun _ => v') ;;;
  liftResult r.

(** The body of the inner loop of [applyReplacePatcher]. *)
Definition applyOneReplacePatcher (target : nat) (modName : string)
    (rp : ReplacePatcher) : M SC2DataManager unit :=
  emit (ConsoleLog "ModLoader ====== applyReplacePatcher() Replace Patch"
          [modName; patchFileName rp]) ;;;
  emit (ReplacePatcher_start modName (patchFileName rp)) ;;;
  try_catch (callReplacePatcher rp target)
    (fun e =>
       emit (ConsoleError
               "ModLoader ====== applyReplacePatcher() Replace Patch Error: "
               [errorText e]) ;;;
       emit (LoggerError
               ("ModLoader ====== applyReplacePatcher() Replace Patch Error: ["
                +:+ errorMessageOrText e +:+ "]"))) ;;;
  emit (ReplacePatcher_end modName (patchFileName rp)) ;;;
  emit (ConsoleLog "ModLoader ====== applyReplacePatcher() Replace Patch"
          [modName; patchFileName rp]).

Definition applyReplacePatcher (target : nat) : M SC2DataManager unit :=
  modCache <- (loader <- getModLoader ;; ret (modCache loader)) ;;
  modOrder <- (loader <- getModLoader ;; ret (modOrder loader)) ;;
  forEach modOrder (fun modName =>
    match modCache !! modName with
    | None => emit (ConsoleError "applyReplacePatcher() (!mod)" [modName])
    | Some modInfo =>
        forEach (replacePatcher modInfo) (applyOneReplacePatcher target modName)
    end).

(** [T.tags?.join(' ') || ''] *)
Definition joinTags (tags : option (list string)) : string :=
  match tags with
  | Some (t :: ts) => fold_left (fun acc x => acc +:+ " " +:+ x) ts t
  | _ => EmptyString
  end.

(** [if (v) { s.setAttribute(name, v) }] for an optional string [v]. *)
Definition setAttributeIfTruthy (name : string) (v : option string) (s : Node)
  : Result Node :=
  match v with
  | Some x => if String.eqb x EmptyString then Ok s else setAttribute name x s
  | None => Ok s
  end.

Definition makePassageNode (T : PassageDataItem) : M SC2DataManager Node :=
  s <- createElement "tw-passagedata" ;;
  s <- liftResult
         (match passage_id T with
          | Some z => if 0 <? z then setAttribute "pid" (numberToString z) s else Ok s
          | None => Ok s
          end) ;;
  s <- liftResult (setAttribute "name" (passage_name T) s) ;;
  s <- liftResult (setAttribute "tags" (joinTags (passage_tags T)) s) ;;
  s <- liftResult (setAttributeIfTruthy "position" (passage_position T) s) ;;
  s <- liftResult (setAttributeIfTruthy "size" (passage_size T) s) ;;
  assignTextContent (passage_content T) s.

(** One entry of a combined node: the identifying comment, the content
    and a line feed. [kind] is [twine-user-stylesheet] or
    [twine-user-script]. *)
Definition entryText (kind : string) (T : SC2DataItem) : string :=
  "/* " +:+ kind +:+ " #" +:+ idToString (item_id T) +:+ ": " +:+ DQUOTE
  +:+ item_name T +:+ DQUOTE +:+ " */" +:+ item_content T +:+ LF.

(** [items.reduce((acc, T) => acc + entry(T), '')] *)
Definition combinedContent (kind : string) (items : list SC2DataItem) : string :=
  fold_left (fun acc T => acc +:+ entryText kind T) items EmptyString.

Definition makeStyleNode (sc : nat) : M SC2DataManager Node :=
  v <- deref sc ;;
  let newStyleNodeContent := combinedContent "twine-user-stylesheet" (styleFileItems v) in
  n <- createElement "style" ;;
  n <- liftResult (setAttribute "type" "text/twine-css" n) ;;
  n <- liftResult (setAttribute "role" "stylesheet" n) ;;
  n <- liftResult (setAttribute "id" "twine-user-stylesheet" n) ;;
  assignTextContent newStyleNodeContent n.

Definition set_scriptFileItems (items : list SC2DataItem) (v : SC2DataInfo)
  : SC2DataInfo :=
  mkInfo (dataSource v) items (styleFileItems v) (passageDataItems v).

Definition makeScriptNode (sc : nat) : M SC2DataManager Node :=
  update sc (fun v => set_scriptFileItems (sortScriptFileItems (scriptFileItems v)) v) ;;;
  v <- deref sc ;;
  let newScriptNodeContent := combinedContent "twine-user-script" (scriptFileItems v) in
  n <- createElement "script" ;;
  n <- liftResult (setAttribute "type" "text/twine-javascript" n) ;;
  n <- liftResult (setAttribute "role" "script" n) ;;
  n <- liftResult (setAttribute "id" "twine-user-script" n) ;;
  assignTextContent newScriptNodeContent n.

(** [modOrder.map(T => modCache.get(T)).filter(T => !!T).map(T => T.cache)] *)
Definition modCachesInOrder (loader : ModLoader) : list SC2DataInfo :=
  map cache (omap (fun T => modCache loader !! T) (modOrder loader)).

(** [patchModToGame], from its start to the call of
    [replaceMergeSC2DataInfoCache]; the result is the reference held by
    [modSC2DataInfoCache]. The merge works on its first argument, the
    clone, and returns it. *)
Definition patchModToGame_merge : M SC2DataManager nat :=
  emit PatchModToGame_start ;;;
  loader <- getModLoader ;;
  _ <- getModLoader ;;
  modify (set_cSC2DataInfoAfterPatchCache None) ;;;
  flushAfterPatchCache ;;;
  originSC2DataInfoCache <- getSC2DataInfoAfterPatch ;;
  emit (ConsoleLog "ModLoader ====== patchModToGame() Concat Mod" []) ;;;
  let em :=
    normalMergeSC2DataInfoCache env (newSC2DataInfo "EmptyMod")
      (modCachesInOrder loader) in
  emit (ConsoleLog "ModLoader ====== patchModToGame() Replace Game" []) ;;;
  base <- deref originSC2DataInfoCache ;;
  clone <- alloc (cloneSC2DataInfo env base) ;;
  update clone (fun b => replaceMergeSC2DataInfoCache env b em) ;;;
  ret clone.

Definition rootRemoveChild (node : Node) : M SC2DataManager unit :=
  onRootNode "removeChild" (removeChild node).

Definition rootAppendChild (node : Node) : M SC2DataManager unit :=
  onRootNode "appendChild" (appendChild node).

(** [patchModToGame], from [makeScriptNode] to the last [appendChild]:
    the part that runs without an [await]. [styleNode] and [scriptNode]
    are live collections, read when their loop starts;
    [passageDataNodeList] is an array filled before the first removal. *)
Definition patchModToGame_swap (modSC2DataInfoCache : nat) : M SC2DataManager unit :=
  newScriptNode <- makeScriptNode modSC2DataInfoCache ;;
  newStyleNode <- makeStyleNode modSC2DataInfoCache ;;
  merged <- deref modSC2DataInfoCache ;;
  newPassageDataNode <- mapM makePassageNode (passageDataItems merged) ;;
  _ <- rootNode ;;
  _ <- styleNode ;;
  _ <- scriptNode ;;
  passageDataNodeList <- passageDataNodeList ;;
  styles <- styleNode ;;
  forEach styles rootRemoveChild ;;;
  scripts <- scriptNode ;;
  forEach scripts rootRemoveChild ;;;
  forEach passageDataNodeList rootRemoveChild ;;;
  rootAppendChild newScriptNode ;;;
  rootAppendChild newStyleNode ;;;
  forEach newPassageDataNode rootAppendChild.

Definition patchModToGame : M SC2DataManager unit :=
  modSC2DataInfoCache <- patchModToGame_merge ;;
  applyReplacePatcher modSC2DataInfoCache ;;;
  patchModToGame_swap modSC2DataInfoCache ;;;
  flushAfterPatchCache ;;;
  emit PatchModToGame_end.

(** [startInit], up to its first [await]: the guard, and for the
    invocation that passes it the capture of the origin snapshot and
    the call of [getModLoader().loadMod(...)]. The result tells whether
    the invocation goes on. *)
Definition startInit_enter : M SC2DataManager bool :=
  started <- gets startInitOk ;;
  if started then
    emit (ConsoleLog "ModLoader ====== SC2DataManager startInit() already start" []) ;;;
    ret false
  else
    modify (set_startInitOk true) ;;;
    emit (ConsoleLog "ModLoader ====== SC2DataManager startInit() start" []) ;;;
    initSC2DataInfoCache ;;;
    _ <- getModLoader ;;
    emit LoadMod ;;;
    ret true.

(** [startInit], from the end of [loadMod] to its end. *)
Definition startInit_resume : M SC2DataManager unit :=
  modify (fun st => set_modLoader (loadMod env (modLoader st)) st) ;;;
  emit DependenceCheck ;;;
  loader <- getModLoader ;;
  let conflicts := checkModConflictList env loader in
  modify (set_conflictResult (Some conflicts)) ;;;
  emit (ConsoleLog "ModLoader ====== mod conflictResult" (map conflictMod conflicts)) ;;;
  emit (TriggerHook "beforePatchModToGame") ;;;
  patchModToGame ;;;
  emit (TriggerHook "afterPatchModToGame") ;;;
  emit (LoggerInfo
    "ModLoader ====== SC2DataManager startInit() end. To Start JsPreloader.....").

Definition startInit : M SC2DataManager unit :=
  proceed <- startInit_enter ;;
  if proceed then startInit_resume else ret tt.

(** The calls that can reach the manager while an invocation of
    [startInit] is suspended at an [await], the rest of that invocation
    among them. *)
Inductive Call :=
| CallCheckSC2Data
| CallCreateNewSC2DataInfoFromNow
| CallEarlyResetSC2DataInfoCache
| CallCleanAllCacheAfterModLoadEnd
| CallInitSC2DataInfoCache
| CallGetSC2DataInfoCache
| CallGetSC2DataInfoAfterPatch
| CallFlushAfterPatchCache
| CallApplyReplacePatcher (target : nat)
| CallPatchModToGame
| CallStartInit
| CallStartInitResume.

Definition runCall (c : Call) : M SC2DataManager unit :=
  match c with
  | CallCheckSC2Data => _ <- checkSC2Data ;; ret tt
  | CallCreateNewSC2DataInfoFromNow => _ <- createNewSC2DataInfoFromNow ;; ret tt
  | CallEarlyResetSC2DataInfoCache => earlyResetSC2DataInfoCache
  | CallCleanAllCacheAfterModLoadEnd => cleanAllCacheAfterModLoadEnd
  | CallInitSC2DataInfoCache => initSC2DataInfoCache
  | CallGetSC2DataInfoCache => _ <- getSC2DataInfoCache ;; ret tt
  | CallGetSC2DataInfoAfterPatch => _ <- getSC2DataInfoAfterPatch ;; ret tt
  | CallFlushAfterPatchCache => flushAfterPatchCache
  | CallApplyReplacePatcher target => applyReplacePatcher target
  | CallPatchModToGame => patchModToGame
  | CallStartInit => startInit
  | CallStartInitResume => startInit_resume
  end.

(** The state after a sequence of calls, each taken to its end whether
    it returns or throws. *)
Definition afterCalls (calls : list Call) (st : SC2DataManager) : SC2DataManager :=
  fold_left (fun s c => snd (runCall c s)) calls st.

End Manager.

(** ** [HtmlTagSrcHook] *)

(** A hook is code of a mod. It is taken here for what it does to the
    element it is handed and for what its promise settles to: the hooks
    covered are those whose promise settles and that leave the two
    tables of the class alone (no call of [addHook] or
    [addReturnModeHook] from inside a hook while a dispatch runs).

    [HtmlTagSrcHookType]: called with the element, [mlSrc] and [field];
    it may change the element; its promise resolves to a boolean or
    rejects. *)
Definition HtmlTagSrcHookType : Type := string -> string -> M Node bool.

(** [HtmlTagSrcReturnModeHookType]: called with [mlSrc]; its promise
    resolves to a pair or rejects. *)
Definition HtmlTagSrcReturnModeHookType : Type := string -> Result (bool * string).

(** The two tables of the class, the element a call of [doHook] works
    on, and the events sent to the console and the logger. *)
Record HtmlTagSrcHook := mkHtmlTagSrcHook {
  hookTable : list (string * HtmlTagSrcHookType);
  hookReturnModeTable : list (string * HtmlTagSrcReturnModeHookType);
  element : Node;
  hookEvents : list Event;
}.

Definition set_hookTable (t : list (string * HtmlTagSrcHookType)) (st : HtmlTagSrcHook)
  : HtmlTagSrcHook :=
  mkHtmlTagSrcHook t (hookReturnModeTable st) (element st) (hookEvents st).

Definition set_hookReturnModeTable (t : list (string * HtmlTagSrcReturnModeHookType))
    (st : HtmlTagSrcHook) : HtmlTagSrcHook :=
  mkHtmlTagSrcHook (hookTable st) t (element st) (hookEvents st).

Definition set_element (el : Node) (st : HtmlTagSrcHook) : HtmlTagSrcHook :=
  mkHtmlTagSrcHook (hookTable st) (hookReturnModeTable st) el (hookEvents st).

Definition hookEmit (e : Event) : M HtmlTagSrcHook unit :=
  modify (fun st =>
    mkHtmlTagSrcHook (hookTable st) (hookReturnModeTable st) (element st)
      (hookEvents st ++ [e])).

Definition addHook (hookKey : string) (hook : HtmlTagSrcHookType)
  : M HtmlTagSrcHook unit :=
  table <- gets hookTable ;;
  (if assocHas hookKey table then
     hookEmit (ConsoleError "[HtmlTagSrcHook] addHook: hookKey already exist!" [hookKey]) ;;;
     hookEmit (LoggerError
       ("[HtmlTagSrcHook] addHook: hookKey[" +:+ hookKey +:+ "] already exist!"))
   else ret tt) ;;;
  modify (fun st => set_hookTable (assocSet hookKey hook (hookTable st)) st).

Definition addReturnModeHook (hookKey : string) (hook : HtmlTagSrcReturnModeHookType)
  : M HtmlTagSrcHook unit :=
  table <- gets hookReturnModeTable ;;
  (if assocHas hookKey table then
     hookEmit (ConsoleError
       "[HtmlTagSrcHook] addReturnModeHook: hookKey already exist!" [hookKey]) ;;;
     hookEmit (LoggerError
       ("[HtmlTagSrcHook] addReturnModeHook: hookKey[" +:+ hookKey
        +:+ "] already exist!"))
   else ret tt) ;;;
  modify (fun st =>
    set_hookReturnModeTable (assocSet hookKey hook (hookReturnModeTable st)) st).

(** [for (const x of l) { ... }] whose body may [return] from the
    enclosing function: [Some b] is that return, [None] goes on. *)
Fixpoint forEachUntil {S A B} (l : list A) (body : A -> M S (option B))
  : M S (option B) :=
  match l with
  | [] => ret None
  | x :: l' =>
      r <- body x ;;
      match r with
      | Some b => ret (Some b)
      | None => forEachUntil l' body
      end
  end.

(** [el.setAttribute(name, value)] on the element of the call. *)
Definition elSetAttribute (name value : string) : M HtmlTagSrcHook unit :=
  el <- gets element ;;
  el' <- liftResult (setAttribute name value el) ;;
  modify (set_element el').

(** [await hook(el, mlSrc, field)]: what the hook did to the element
    stays, also when its promise rejects. *)
Definition callHook (hook : HtmlTagSrcHookType) (mlSrc field : string)
  : M HtmlTagSrcHook bool :=
  el <- gets element ;;
  let '(r, el') := hook mlSrc field el in
  modify (set_element el') ;;;
  liftResult r.

Section DoHook.

(** [el.outerHTML], the serialisation of the element by the host. *)
Variable outerHTML : Node -> string.

(** The body of the loop over [hookReturnModeTable]. *)
Definition tryReturnModeHook (mlSrc field : string)
    (entry : string * HtmlTagSrcReturnModeHookType) : M HtmlTagSrcHook (option bool) :=
  let '(hookKey, hook) := entry in
  try_catch
    (r <- liftResult (hook mlSrc) ;;
     if fst r then
       elSetAttribute field (snd r) ;;;
       ret (Some true)
     else ret None)
    (fun e =>
       hookEmit (ConsoleError "[HtmlTagSrcHook] doHookCallback: call hookKey error"
                   [hookKey; errorText e]) ;;;
       hookEmit (LoggerError
         ("[HtmlTagSrcHook] doHookCallback: call hookKey[" +:+ hookKey
          +:+ "] error [" +:+ errorMessageOrText e +:+ "]")) ;;;
       ret None).

(** The body of the loop over [hookTable]. *)
Definition tryHook (mlSrc field : string) (entry : string * HtmlTagSrcHookType)
  : M HtmlTagSrcHook (option bool) :=
  let '(hookKey, hook) := entry in
  try_catch
    (b <- callHook hook mlSrc field ;;
     if b then ret (Some true) else ret None)
    (fun e =>
       hookEmit (ConsoleError "[HtmlTagSrcHook] doHook: call hookKey error"
                   [hookKey; errorText e]) ;;;
       hookEmit (LoggerError
         ("[HtmlTagSrcHook] doHook: call hookKey[" +:+ hookKey
          +:+ "] error [" +:+ errorMessageOrText e +:+ "]")) ;;;
       ret None).

(** [!mlSrc]: the attribute is absent or empty. *)
Definition truthyString (v : option string) : option string :=
  match v with
  | Some x => if String.eqb x EmptyString then None else Some x
  | None => None
  end.

Definition doHook (field : string) : M HtmlTagSrcHook bool :=
  el <- gets element ;;
  match truthyString (getAttribute el ("ML-" +:+ field)) with
  | None =>
      hookEmit (ConsoleError ("[HtmlTagSrcHook] doHook: no ML-" +:+ field)
                  [outerHTML el]) ;;;
      hookEmit (LoggerError ("[HtmlTagSrcHook] doHook: no ML-" +:+ field +:+ " ["
                             +:+ outerHTML el +:+ "]")) ;;;
      ret false
  | Some mlSrc =>
      returnModeHooks <- gets hookReturnModeTable ;;
      r <- forEachUntil returnModeHooks (tryReturnModeHook mlSrc field) ;;
      match r with
      | Some b => ret b
      | None =>
          hooks <- gets hookTable ;;
          r <- forEachUntil hooks (tryHook mlSrc field) ;;
          match r with
          | Some b => ret b
          | None =>
              elSetAttribute "ML-src_replace_failed" "1" ;;;
              elSetAttribute field mlSrc ;;;
              ret false
          end
      end
  end.

End DoHook.

(** The registrations a [HtmlTagSrcHook] has received. *)
Inductive Registration :=
| RegisterHook (hookKey : string) (hook : HtmlTagSrcHookType)
| RegisterReturnModeHook (hookKey : string) (hook : HtmlTagSrcReturnModeHookType).

Definition register (r : Registration) : M HtmlTagSrcHook unit :=
  match r with
  | RegisterHook k h => addHook k h
  | RegisterReturnModeHook k h => addReturnModeHook k h
  end.

(** A new [HtmlTagSrcHook]: both tables empty. *)
Definition newHtmlTagSrcHook (el : Node) : HtmlTagSrcHook :=
  mkHtmlTagSrcHook [] [] el [].

Definition afterRegistrations (regs : list Registration) (st : HtmlTagSrcHook)
  : HtmlTagSrcHook :=
  fold_left (fun s r => snd (register r s)) regs st.

(** No key is filed twice in a table. *)
Definition uniqueKeys (st : HtmlTagSrcHook) : Prop :=
  List.NoDup (map fst (hookTable st)) /\ List.NoDup (map fst (hookReturnModeTable st)).

(** The entries of a table filed under [k]. *)
Definition entriesOf {V} (k : string) (table : list (string * V)) : list (string * V) :=
  List.filter (fun kv => String.eqb (fst kv) k) table.

(** The state with further events sent. *)
Definition withHookEvents (evs : list Event) (st : HtmlTagSrcHook) : HtmlTagSrcHook :=
  mkHtmlTagSrcHook (hookTable st) (hookReturnModeTable st) (element st)
    (hookEvents st ++ evs).

(** A return-mode hook declines ([r[0]] is false) or throws on [mlSrc]. *)
Definition returnModeHookDeclines (mlSrc : string)
    (entry : string * HtmlTagSrcReturnModeHookType) : Prop :=
  match snd entry mlSrc with
  | Ok (true, _) => False
  | _ => True
  end.

(** Called one after the other from the element [el] on, each hook of
    [hooks] declines (resolves to false) or throws on the element as the
    hooks before it have left it. *)
Fixpoint hooksDecline (mlSrc field : string)
    (hooks : list (string * HtmlTagSrcHookType)) (el : Node) : Prop :=
  match hooks with
  | [] => True
  | entry :: hooks' =>
      match fst (snd entry mlSrc field el) with
      | Ok true => False
      | _ => True
      end
      /\ hooksDecline mlSrc field hooks' (snd (snd entry mlSrc field el))
  end.

(** The element after every hook of a table has been called on it, one
    after the other. *)
Definition afterAllHooks (mlSrc field : string)
    (hooks : list (string * HtmlTagSrcHookType)) (el : Node) : Node :=
  fold_left (fun e entry => snd (snd entry mlSrc field e)) hooks el.

(** What [doHook] is said to do when no hook takes the element: it
    returns false, with [field] back at the saved value and the failure
    mark set. *)
Definition doHookFallsBack (outerHTML : Node -> string) (field mlSrc : string)
    (st : HtmlTagSrcHook) : Prop :=
  exists st',
    doHook outerHTML field st = (Ok false, st')
    /\ getAttribute (element st') field = Some mlSrc
    /\ getAttribute (element st') "ML-src_replace_failed" = Some "1".

(** An [img] element whose only attribute is the saved value of a field
    that is itself named [ML-src_replace_failed]. *)
Definition markFieldElement : Node :=
  mkNode 0 "img" [("ml-ml-src_replace_failed", "x.png")] EmptyString [].

(** An [img] element with an attribute [ml-], the saved value of the
    field with the empty name. *)
Definition emptyFieldElement : Node :=
  mkNode 0 "img" [("ml-", "x.png")] EmptyString [].

(** An [img] element as the example of [doHook] prepares it. *)
Definition imgElement : Node :=
  mkNode 0 "img" [("ml-src", "img/a.png"); ("alt", "a")] EmptyString [].

(** A hook that declines after marking the element, and one that
    throws. *)
Definition decliningHook : HtmlTagSrcHookType :=
  fun mlSrc field el =>
    (Ok false, mkNode (nid el) (nodeName el)
                 (assocSet "data-seen" mlSrc (attributes el))
                 (nodeValue el) (childNodes el)).

Definition throwingHook : HtmlTagSrcHookType :=
  fun mlSrc field el => (Throw (mkError "no such image" "Error: no such image"), el).

Definition throwingReturnModeHook : HtmlTagSrcReturnModeHookType :=
  fun mlSrc => Throw (mkError EmptyString "offline").

Definition exampleHookState : HtmlTagSrcHook :=
  mkHtmlTagSrcHook
    [("a", throwingHook); ("b", decliningHook)]
    [("r", throwingReturnModeHook); ("s", fun _ => Ok (false, EmptyString))]
    imgElement [].

(** ** The transform loop, step by step *)

(** The iterations of [applyReplacePatcher]: for each name of
    [modOrder], one skipped iteration when [modCache] has no such mod,
    else one iteration per patcher of the mod, in declared order. *)
Definition patchSteps (loader : ModLoader) : list (string * option ReplacePatcher) :=
  flat_map
    (fun modName =>
       match modCache loader !! modName with
       | None => [(modName, None)]
       | Some modInfo => map (fun rp => (modName, Some rp)) (replacePatcher modInfo)
       end)
    (modOrder loader).

(** The object after one iteration: what the patcher wrote, whether it
    returned or threw. *)
Definition afterPatchStep (v : SC2DataInfo) (step : string * option ReplacePatcher)
  : SC2DataInfo :=
  match snd step with
  | Some rp => snd (runReplacePatcher rp v)
  | None => v
  end.

Definition afterPatchSteps (steps : list (string * option ReplacePatcher))
    (v : SC2DataInfo) : SC2DataInfo :=
  fold_left afterPatchStep steps v.

(** What is logged when a patcher has thrown [e]. *)
Definition patchErrorEvents (e : JsError) : list Event :=
  [ConsoleError "ModLoader ====== applyReplacePatcher() Replace Patch Error: "
     [errorText e];
   LoggerError ("ModLoader ====== applyReplacePatcher() Replace Patch Error: ["
                +:+ errorMessageOrText e +:+ "]")].

(** The events of one iteration on the object [v]: for a patcher, the
    console entry and the life-cycle call that name the mod and the
    patch file, the error entries if the patcher throws, and the
    closing life-cycle call and console entry. *)
Definition patchStepEvents (v : SC2DataInfo) (step : string * option ReplacePatcher)
  : list Event :=
  match step with
  | (modName, None) => [ConsoleError "applyReplacePatcher() (!mod)" [modName]]
  | (modName, Some rp) =>
      [ConsoleLog "ModLoader ====== applyReplacePatcher() Replace Patch"
         [modName; patchFileName rp];
       ReplacePatcher_start modName (patchFileName rp)]
      ++ match fst (runReplacePatcher rp v) with
         | Ok _ => []
         | Throw e => patchErrorEvents e
         end
      ++ [ReplacePatcher_end modName (patchFileName rp);
          ConsoleLog "ModLoader ====== applyReplacePatcher() Replace Patch"
            [modName; patchFileName rp]]
  end.

Fixpoint patchStepsEvents (steps : list (string * option ReplacePatcher))
    (v : SC2DataInfo) : list Event :=
  match steps with
  | [] => []
  | step :: steps' =>
      patchStepEvents v step ++ patchStepsEvents steps' (afterPatchStep v step)
  end.

(** [needle] occurs in [hay]. *)
Fixpoint contains (needle hay : string) : bool :=
  String.prefix needle hay
  || match hay with
     | EmptyString => false
     | String _ hay' => contains needle hay'
     end.

(** The entries sent with [console.error] or the logger's [error]. *)
Definition isErrorEntry (ev : Event) : bool :=
  match ev with
  | ConsoleError _ _ | LoggerError _ => true
  | _ => false
  end.

(** The texts an entry of the console or the logger carries. *)
Definition eventTexts (ev : Event) : list string :=
  match ev with
  | ConsoleLog msg args | ConsoleError msg args => msg :: args
  | ConsoleWarn msg | LoggerError msg | LoggerInfo msg => [msg]
  | _ => []
  end.

Definition eventMentions (needle : string) (ev : Event) : bool :=
  existsb (contains needle) (eventTexts ev).

(** "logged with the offending mod name and transform identity": some
    error entry names both the mod and the patch file. *)
Definition errorLoggedWithIdentity (modName file : string) (evs : list Event) : Prop :=
  exists ev,
    In ev evs /\ isErrorEntry ev = true
    /\ eventMentions modName ev = true /\ eventMentions file ev = true.

(** ** Assertions on computations *)

(** From a state satisfying [P], the computation ends in a state
    satisfying [Q] with its result if it returns and [R] if it throws. *)
Definition hoare {S A} (P : S -> Prop) (m : M S A) (Q : A -> S -> Prop)
    (R : S -> Prop) : Prop :=
  forall s, P s ->
    match m s with
    | (Ok a, s') => Q a s'
    | (Throw _, s') => R s'
    end.

(** [I] holds after the computation whenever it held before, however
    the computation ends. *)
Definition preserves {S A} (I : S -> Prop) (m : M S A) : Prop :=
  hoare I m (fun _ => I) I.

(** The state after a call of [getModLoader()]. *)
Definition withModLoader (st : SC2DataManager) : SC2DataManager :=
  if modLoaderCreated st then st
  else
    set_modLoaderCreated true
      (set_events (events st ++ [ConsoleLog "this.modLoadControllerCallback" []]) st).

(** The state once the object behind [target] holds [v] and the events
    [evs] have been sent. *)
Definition patched (target : nat) (v : SC2DataInfo) (evs : list Event)
    (st : SC2DataManager) : SC2DataManager :=
  set_events (events st ++ evs) (set_heap (<[target := v]> (heap st)) st).

(** ** The caches, state by state *)

(** The element the [rootNode] getter yields in a state. *)
Definition rootOf (st : SC2DataManager) : option Node :=
  head (getElementsByTagName (document st) "tw-storydata").

(** The snapshot captured from the render tree below [root]. *)
Definition captureOf (env : Imports) (root : Node) : SC2DataInfo :=
  newSC2DataInfoCache env "orgin"
    (getElementsByTagName root "script")
    (getElementsByTagName root "style")
    (getElementsByTagName root "tw-passagedata").

(** The state after [initSC2DataInfoCache]: an origin snapshot that is
    there stays; otherwise one is captured. *)
Definition initialized (env : Imports) (root : Node) (st : SC2DataManager)
  : SC2DataManager :=
  match originSC2DataInfoCache st with
  | Some _ => st
  | None =>
      set_originSC2DataInfoCache (Some (length (heap st)))
        (set_heap (heap st ++ [captureOf env root]) st)
  end.

(** The state after the after-patch snapshot has been captured anew. *)
Definition recaptured (env : Imports) (root : Node) (st : SC2DataManager)
  : SC2DataManager :=
  set_events
    (events st ++
     [ConsoleLog "getSC2DataInfoAfterPatch() init cloneSC2DataInfo"
        [dataSource (cloneSC2DataInfo env (captureOf env root))]])
    (set_cSC2DataInfoAfterPatchCache (Some (length (heap st)))
       (set_heap (heap st ++ [captureOf env root]) st)).

(** The state after [flushAfterPatchCache]. *)
Definition refreshed (env : Imports) (root : Node) (st : SC2DataManager)
  : SC2DataManager :=
  recaptured env root (initialized env root (set_cSC2DataInfoAfterPatchCache None st)).

(** The state in which [startInit] waits for [loadMod]. *)
Definition startInit_entered (env : Imports) (root : Node) (st : SC2DataManager)
  : SC2DataManager :=
  let s1 :=
    withModLoader
      (initialized env root
         (set_events
            (events st
             ++ [ConsoleLog "ModLoader ====== SC2DataManager startInit() start" []])
            (set_startInitOk true st))) in
  set_events (events s1 ++ [LoadMod]) s1.

(** What the merge phase of [patchModToGame] leaves behind the
    reference it returns. *)
Definition mergedOnto (env : Imports) (base : SC2DataInfo) (loader : ModLoader)
  : SC2DataInfo :=
  replaceMergeSC2DataInfoCache env (cloneSC2DataInfo env base)
    (normalMergeSC2DataInfoCache env (newSC2DataInfo "EmptyMod")
       (modCachesInOrder loader)).

(** ** Properties of the state that the methods keep *)

(** The guard of [startInit] is set. *)
Definition startInitStarted (st : SC2DataManager) : Prop := startInitOk st = true.

(** The origin snapshot is the object behind [r], holding [v]. *)
Definition originIs (r : nat) (v : SC2DataInfo) (st : SC2DataManager) : Prop :=
  originSC2DataInfoCache st = Some r /\ heap st !! r = Some v.

(** A property of the state that survives every write the methods make
    other than the shutdown clean-up: writes to the document, the
    after-patch cache, the loader and its creation, the conflict report
    and the events;
    setting the guard; a new object in the store; the first capture of
    the origin snapshot; and an in-place change of an object behind a
    reference for which [editable] holds, as it does for every new
    reference. *)
Record Stable (P : SC2DataManager -> Prop) (editable : nat -> Prop) : Prop := {
  stable_document : forall s d, P s -> P (set_document d s);
  stable_nextNodeId : forall s n, P s -> P (set_nextNodeId n s);
  stable_afterPatch : forall s c, P s -> P (set_cSC2DataInfoAfterPatchCache c s);
  stable_modLoader : forall s m, P s -> P (set_modLoader m s);
  stable_conflictResult : forall s c, P s -> P (set_conflictResult c s);
  stable_events : forall s e, P s -> P (set_events e s);
  stable_modLoaderCreated : forall s b, P s -> P (set_modLoaderCreated b s);
  stable_startInitOk : forall s, P s -> P (set_startInitOk true s);
  stable_alloc : forall s x, P s -> P (set_heap (heap s ++ [x]) s);
  stable_fresh : forall s, P s -> editable (length (heap s));
  stable_update : forall s t f, P s -> editable t -> P (set_heap (alter f t (heap s)) s);
  stable_origin : forall s r,
    P s -> originSC2DataInfoCache s = None ->
    P (set_originSC2DataInfoCache (Some r) s);
}.

(** The calls that are not the shutdown clean-up, nor a direct call of
    [applyReplacePatcher] on the object behind [r]. *)
Definition keepsOrigin (r : nat) (c : Call) : Prop :=
  c <> CallCleanAllCacheAfterModLoadEnd
  /\ forall target, c = CallApplyReplacePatcher target -> target <> r.

(** ** The swap of the render tree, seen from the root element *)

(** A style, script or passage node. *)
Definition isPatchedKind (n : Node) : bool :=
  String.eqb (nodeName n) "style" || String.eqb (nodeName n) "script"
  || String.eqb (nodeName n) "tw-passagedata".

(** Node identities are unique below [root]. *)
Definition uniqueIds (root : Node) : Prop := List.NoDup (map nid (descendants root)).

(** Every style, script and passage node below [root] is a child of
    [root], as in a story-data element that a Twine compiler wrote. *)
Definition flatRoot (root : Node) : Prop :=
  forall s, In s (descendants root) -> isPatchedKind s = true -> In s (childNodes root).

(** [for (const node of nodes) { parent.removeChild(node) }] on the
    parent itself. *)
Fixpoint removeEach (nodes : list Node) (parent : Node) : Result Node :=
  match nodes with
  | [] => Ok parent
  | n :: nodes' =>
      match removeChild n parent with
      | Ok parent' => removeEach nodes' parent'
      | Throw e => Throw e
      end
  end.

(** The parent with [nodes] appended to its children. *)
Definition withChildrenAppended (nodes : list Node) (parent : Node) : Node :=
  mkNode (nid parent) (nodeName parent) (attributes parent) (nodeValue parent)
    (childNodes parent ++ nodes).

(** The state in which the story-data root has become [root']. *)
Definition withRoot (root' : Node) (st : SC2DataManager) : SC2DataManager :=
  set_document (replaceFirstDescendant "tw-storydata" root' (document st)) st.

(** The element [createElement(tag)] returns followed by the
    [setAttribute] calls of [attrs], for attribute names that are all
    different. *)
Definition newElement (i : nat) (tag : string) (attrs : list (string * string))
    (text : string) : Node :=
  setTextContent (S i) text (mkNode i tag attrs EmptyString []).

(** The node [makeScriptNode] builds from sorted script records, the
    node [makeStyleNode] builds, and the node [makePassageNode] builds,
    [i] being the next free node identity. *)
Definition scriptNodeOf (i : nat) (items : list SC2DataItem) : Node :=
  newElement i "script"
    [("type", "text/twine-javascript"); ("role", "script"); ("id", "twine-user-script")]
    (combinedContent "twine-user-script" items).

Definition styleNodeOf (i : nat) (items : list SC2DataItem) : Node :=
  newElement i "style"
    [("type", "text/twine-css"); ("role", "stylesheet"); ("id", "twine-user-stylesheet")]
    (combinedContent "twine-user-stylesheet" items).

Definition optionalAttribute (name : string) (v : option string)
  : list (string * string) :=
  match v with
  | Some x => if String.eqb x EmptyString then [] else [(name, x)]
  | None => []
  end.

Definition passageNodeOf (i : nat) (T : PassageDataItem) : Node :=
  newElement i "tw-passagedata"
    (match passage_id T with
     | Some z => if 0 <? z then [("pid", numberToString z)] else []
     | None => []
     end
     ++ [("name", passage_name T); ("tags", joinTags (passage_tags T))]
     ++ optionalAttribute "position" (passage_position T)
     ++ optionalAttribute "size" (passage_size T))
    (passage_content T).

Fixpoint passageNodesFrom (i : nat) (Ts : list PassageDataItem) : list Node :=
  match Ts with
  | [] => []
  | T :: Ts' => passageNodeOf i T :: passageNodesFrom (S (S i)) Ts'
  end.

(** The strings of a list, one after the other. *)
Definition joinStrings (l : list string) : string :=
  fold_right String.append EmptyString l.

(** What identifies the node made for a passage record. *)
Definition passageNodeSummary (n : Node) : string * option string * string :=
  (nodeName n, getAttribute n "name", textContent n).

Definition passageRecordSummary (T : PassageDataItem)
  : string * option string * string :=
  ("tw-passagedata", Some (passage_name T), passage_content T).

(** ** Example documents and states *)

Definition element0 (i : nat) (name : string) (ats : list (string * string))
    (cs : list Node) : Node :=
  mkNode i name ats EmptyString cs.

Definition textNode (i : nat) (data : string) : Node :=
  mkNode i "#text" [] data [].

(** The story data of a compiled story: one style node, one script node
    and two passages. *)
Definition exampleStoryData : Node :=
  element0 3 "tw-storydata" [("name", "story")]
    [element0 4 "style" [("id", "twine-user-stylesheet")] [textNode 5 "body{}"];
     element0 6 "script" [("id", "twine-user-script")] [textNode 7 "var a;"];
     element0 8 "tw-passagedata" [("pid", "1"); ("name", "Start")] [textNode 9 "Hi"];
     element0 10 "tw-passagedata" [("pid", "2"); ("name", "End")] [textNode 11 "Bye"]].

(** A document of the expected shape: exactly one story-data root with
    exactly one style node, exactly one script node and passages. *)
Definition exampleDocument : Node :=
  mkNode 0 "#document" [] EmptyString
    [element0 1 "html" []
       [element0 2 "body" [] [exampleStoryData]]].

Definition emptyModLoader : ModLoader := mkModLoader empty [].

(** A manager on a document, nothing captured and nothing sent yet,
    whose loader exists and holds [loader]. *)
Definition newSC2DataManager (doc : Node) (nextId : nat) (loader : ModLoader)
  : SC2DataManager :=
  mkManager doc nextId [] None None false loader None [] true.

(** A manager that has just been constructed on a document: no call of
    [getModLoader()] yet. [loader] is what the first call will create. *)
Definition constructedSC2DataManager (doc : Node) (nextId : nat) (loader : ModLoader)
  : SC2DataManager :=
  mkManager doc nextId [] None None false loader None [] false.

(** *** Example mods *)

(** A patcher that rewrites the content of every passage. *)
Definition shoutPatcher : ReplacePatcher :=
  mkReplacePatcher "shout.json"
    (fun v =>
       (Ok tt,
        mkInfo (dataSource v) (scriptFileItems v) (styleFileItems v)
          (map (fun T =>
                  mkPassage (passage_id T) (passage_name T) (passage_tags T)
                    (passage_content T +:+ "!") (passage_position T) (passage_size T))
               (passageDataItems v)))).

(** A patcher that drops the styles and then throws. *)
Definition brokenPatcher : ReplacePatcher :=
  mkReplacePatcher "broken.json"
    (fun v =>
       (Throw (mkError "pattern not found" "Error: pattern not found"),
        mkInfo (dataSource v) (scriptFileItems v) [] (passageDataItems v))).

Definition modA : ModInfo :=
  mkModInfo
    (mkInfo "modA"
       [mkItem None "a.js" "var a = 1;"; mkItem (Some 7) "lib.js" "var lib;"]
       [mkItem (Some 0) "a.css" "p{}"]
       [mkPassage (Some 1) "Start" (Some ["intro"; "nobr"]) "Hello" (Some "10,10") None;
        mkPassage None "Shop" None "Buy" None None])
    [brokenPatcher; shoutPatcher].

Definition modB : ModInfo :=
  mkModInfo
    (mkInfo "modB" [mkItem (Some 2) "b.js" "var b;"] [] [])
    [shoutPatcher].

(** Load order names a mod that was never loaded between the two. *)
Definition exampleModLoader : ModLoader :=
  mkModLoader (<["modA" := modA]> (<["modB" := modB]> empty)) ["modA"; "ghost"; "modB"].

(** Modelled from the spec: the per-kind step shared by [normalMerge]
    and [replaceMerge] of [MergeSC2DataInfoCache.ts]: a record whose name
    is already present replaces that record where it stands, a record
    with a new name is appended. *)
Fixpoint upsertBy {A} (nameOf : A -> string) (x : A) (l : list A) : list A :=
  match l with
  | [] => [x]
  | y :: l' =>
      if String.eqb (nameOf y) (nameOf x) then x :: l' else y :: upsertBy nameOf x l'
  end.

Definition mergeInto (base overlay : SC2DataInfo) : SC2DataInfo :=
  mkInfo (dataSource base)
    (fold_left (fun acc x => upsertBy item_name x acc)
       (scriptFileItems overlay) (scriptFileItems base))
    (fold_left (fun acc x => upsertBy item_name x acc)
       (styleFileItems overlay) (styleFileItems base))
    (fold_left (fun acc x => upsertBy passage_name x acc)
       (passageDataItems overlay) (passageDataItems base)).

(** Modelled from the spec: [capture] of [SC2DataInfoCache.ts] reads the
    current script, style and passage nodes into records; here one
    record per node, named by its [name] or [id] attribute. *)
Definition captureItem (n : Node) : SC2DataItem :=
  mkItem None
    (match getAttribute n "id" with Some x => x | None => EmptyString end)
    (textContent n).

Definition capturePassage (n : Node) : PassageDataItem :=
  mkPassage None
    (match getAttribute n "name" with Some x => x | None => EmptyString end)
    None (textContent n) (getAttribute n "position") (getAttribute n "size").

(** An instance of the imported code, for the examples. *)
Definition exampleImports : Imports :=
  mkImports
    (fun label scripts styles passages =>
       mkInfo label (map captureItem scripts) (map captureItem styles)
         (map capturePassage passages))
    (fun v => v)
    (fun v => mkInfo (dataSource v) [] [] [])
    (fun first rest => fold_left mergeInto rest first)
    mergeInto
    (fun _ => exampleModLoader)
    (fun _ => []).

(** A manager on the example document with the example mods loaded. *)
Definition exampleManager : SC2DataManager :=
  newSC2DataManager exampleDocument 12 exampleModLoader.

(** The same manager holding one [SC2DataInfo] object, the cache of
    [modA]. *)
Definition exampleManagerWithObject : SC2DataManager :=
  set_heap [cache modA] exampleManager.

(** The example manager after its first access to the origin snapshot. *)
Definition exampleManagerInitialized : SC2DataManager :=
  snd (initSC2DataInfoCache exampleImports exampleManager).

(** The example manager between the transforms and the swap: the merge
    target is the third object of the store. *)
Definition exampleManagerMerged : SC2DataManager :=
  snd ((target <- patchModToGame_merge exampleImports ;;
        applyReplacePatcher target) exampleManager).

Definition exampleMerged : SC2DataInfo :=
  afterPatchSteps (patchSteps exampleModLoader)
    (mergedOnto exampleImports (captureOf exampleImports exampleStoryData)
       exampleModLoader).

(** The expected shape of the render tree: exactly one story-data root
    in the document, holding exactly one style node, exactly one script
    node and any number of passage nodes. *)
Definition expectedShape (doc : Node) : Prop :=
  exists root,
    getElementsByTagName doc "tw-storydata" = [root]
    /\ length (getElementsByTagName root "style") = 1%nat
    /\ length (getElementsByTagName root "script") = 1%nat.

(** ** [HtmlTagSrcHook]: [requestImageBySrc] and [doHookCallback] *)

(** The value of the first return-mode hook, in table order, that
    resolves to a pair whose first component is true. *)
Fixpoint firstAccepted (src : string)
    (hooks : list (string * HtmlTagSrcReturnModeHookType)) : option string :=
  match hooks with
  | [] => None
  | (_, hook) :: hooks' =>
      match hook src with
      | Ok (true, v) => Some v
      | _ => firstAccepted src hooks'
      end
  end.

(** The body of the loop of [requestImageBySrc]. *)
Definition tryRequestImage (src : string)
    (entry : string * HtmlTagSrcReturnModeHookType) : M HtmlTagSrcHook (option string) :=
  let '(hookKey, hook) := entry in
  try_catch
    (r <- liftResult (hook src) ;;
     if fst r then ret (Some (snd r)) else ret None)
    (fun e =>
       hookEmit (ConsoleError "[HtmlTagSrcHook] requestImageBySrc: call hookKey error"
                   [hookKey; errorText e]) ;;;
       hookEmit (LoggerError
         ("[HtmlTagSrcHook] requestImageBySrc: call hookKey[" +:+ hookKey
          +:+ "] error [" +:+ errorMessageOrText e +:+ "]")) ;;;
       ret None).

(** [requestImageBySrc(src)]; [None] is [undefined]. *)
Definition requestImageBySrc (src : string) : M HtmlTagSrcHook (option string) :=
  if String.eqb src EmptyString then
    hookEmit (ConsoleError "[HtmlTagSrcHook] requestImageBySrc: no src" [src]) ;;;
    hookEmit (LoggerError
      ("[HtmlTagSrcHook] requestImageBySrc: no src [" +:+ src +:+ "]")) ;;;
    ret None
  else
    hooks <- gets hookReturnModeTable ;;
    forEachUntil hooks (tryRequestImage src).

(** A computation on one component of a pair of states. *)
Definition onFst {S W A} (m : M S A) : M (S * W) A :=
  fun sw => let '(r, s') := m (fst sw) in (r, (s', snd sw)).

Definition onSnd {S W A} (m : M W A) : M (S * W) A :=
  fun sw => let '(r, w') := m (snd sw) in (r, (fst sw, w')).

Section DoHookCallback.

(** The callback is code of the caller: it works on a state [W] of its
    own, returns a value of type [A] or throws, and registers no hook. *)
Context {W A : Type}.

(** The body of the loop of [doHookCallback]: the call of the callback
    stands inside the [try]. *)
Definition tryHookCallback (src : string) (callback : string -> M W A)
    (entry : string * HtmlTagSrcReturnModeHookType)
  : M (HtmlTagSrcHook * W) (option (bool * A)) :=
  let '(hookKey, hook) := entry in
  try_catch
    (r <- liftResult (hook src) ;;
     if fst r then
       a <- onSnd (callback (snd r)) ;;
       ret (Some (true, a))
     else ret None)
    (fun e =>
       onFst (hookEmit
         (ConsoleError "[HtmlTagSrcHook] doHookCallback: call hookKey error"
            [hookKey; errorText e])) ;;;
       onFst (hookEmit (LoggerError
         ("[HtmlTagSrcHook] doHookCallback: call hookKey[" +:+ hookKey
          +:+ "] error [" +:+ errorMessageOrText e +:+ "]"))) ;;;
       ret None).

Definition doHookCallback (src : string) (callback : string -> M W A)
  : M (HtmlTagSrcHook * W) (bool * A) :=
  if String.eqb src EmptyString then
    onFst (hookEmit (ConsoleError "[HtmlTagSrcHook] doHookCallback: no src" [src])) ;;;
    onFst (hookEmit (LoggerError
      ("[HtmlTagSrcHook] doHookCallback: no src [" +:+ src +:+ "]"))) ;;;
    a <- onSnd (callback src) ;;
    ret (false, a)
  else
    hooks <- onFst (gets hookReturnModeTable) ;;
    r <- forEachUntil hooks (tryHookCallback src callback) ;;
    match r with
    | Some result => ret result
    | None =>
        a <- onSnd (callback src) ;;
        ret (false, a)
    end.

End DoHookCallback.

(** The source the callback of [doHookCallback] is meant to get: the
    value of the first hook that takes [src], else [src] itself. *)
Definition chosenSource (src : string)
    (hooks : list (string * HtmlTagSrcReturnModeHookType)) : string :=
  if String.eqb src EmptyString then src
  else default src (firstAccepted src hooks).

Definition sourceTaken (src : string)
    (hooks : list (string * HtmlTagSrcReturnModeHookType)) : bool :=
  negb (String.eqb src EmptyString)
  && match firstAccepted src hooks with Some _ => true | None => false end.

(** [[flag, value]] for a callback that returned [value]. *)
Definition flagged {A} (flag : bool) (r : Result A) : Result (bool * A) :=
  match r with
  | Ok a => Ok (flag, a)
  | Throw e => Throw e
  end.

(** ** [SC2DataManager]: [getConflictResult] and [rePlacePassage] *)

Definition getConflictResult : M SC2DataManager (option (list ConflictEntry)) :=
  gets conflictResult.

Definition HierarchyRequestError : JsError :=
  mkError "The new child element contains the parent."
          "HierarchyRequestError: The new child element contains the parent.".

(** The tree [n] without the node [child], wherever below [n] it is. *)
Fixpoint withoutNode (child : Node) (n : Node) : Node :=
  match n with
  | mkNode i nm ats v cs =>
      mkNode i nm ats v
        (flat_map (fun c => if sameNode c child then [] else [withoutNode child c]) cs)
  end.

(** [this.rootNode.appendChild(node)] for any [node]. A node that is in
    the document is the object found there: it is refused with
    [HierarchyRequestError] when the root lies inside it, and otherwise
    leaves its place before it becomes the last child of the root. *)
Definition rootInsertChild (node : Node) : M SC2DataManager unit :=
  r <- rootNode ;;
  match r with
  | None => throw (undefinedReadError "appendChild")
  | Some root =>
      doc <- gets document ;;
      match List.find (fun c => sameNode c node) (nodesSelf doc) with
      | None => rootAppendChild node
      | Some current =>
          if existsb (fun c => sameNode c root) (nodesSelf current) then
            throw HierarchyRequestError
          else
            modify (set_document (withoutNode current doc)) ;;;
            rootAppendChild current
      end
  end.

(** [rePlacePassage(toRemovePassageDataNodeList, toAddPassageDataNodeList)].
    [removeChild] and [appendChild] return the node or throw, so the
    branches [!rn] and [!an] cannot be taken and are left out; the node
    lists logged to the console are not recorded. *)
Definition rePlacePassage (toRemovePassageDataNodeList toAddPassageDataNodeList : list Node)
  : M SC2DataManager unit :=
  emit (ConsoleLog "rePlacePassage()" []) ;;;
  _ <- rootNode ;;
  emit (ConsoleLog "rePlacePassage() rootNode" []) ;;;
  forEach toRemovePassageDataNodeList rootRemoveChild ;;;
  forEach toAddPassageDataNodeList rootInsertChild.

(** The identities of the nodes of a tree. *)
Definition nodeIds (n : Node) : list nat := map nid (nodesSelf n).

(** The nodes [nodes], with all that is below them, are new to the
    document [doc]: their identities occur neither in [doc] nor twice
    among themselves. *)
Definition newNodesFor (doc : Node) (nodes : list Node) : Prop :=
  List.NoDup (flat_map nodeIds nodes)
  /\ forall i, In i (flat_map nodeIds nodes) -> ~ In i (nodeIds doc).

(** ** The script sort, seen as a sort *)

(** Each record stands before its successor as far as [cmp] tells. *)
Definition sortedBy {A} (cmp : A -> A -> Z) (l : list A) : Prop :=
  Sorted (fun a b => cmp a b <= 0) l.

(** *** Further examples *)

(** A return-mode hook that takes the sources below [img/]. *)
Definition modImageHook : HtmlTagSrcReturnModeHookType :=
  fun src => Ok (String.prefix "img/" src, "data:image/png;base64," +:+ src).

(** A hook that takes every element and sets [field] itself. *)
Definition acceptingHook : HtmlTagSrcHookType :=
  fun mlSrc field el =>
    (Ok true, mkNode (nid el) (nodeName el)
                (assocSet field ("blob:" +:+ mlSrc) (attributes el))
                (nodeValue el) (childNodes el)).

Definition exampleReturnModeState : HtmlTagSrcHook :=
  mkHtmlTagSrcHook
    [("a", throwingHook)]
    [("r", throwingReturnModeHook); ("m", modImageHook);
     ("s", fun _ => Ok (true, "never"))]
    imgElement [].

Definition exampleAcceptingState : HtmlTagSrcHook :=
  mkHtmlTagSrcHook
    [("b", decliningHook); ("c", acceptingHook); ("a", throwingHook)]
    [("r", throwingReturnModeHook)]
    imgElement [].

(** An [img] element without a saved source. *)
Definition plainImgElement : Node := mkNode 0 "img" [("alt", "a")] EmptyString [].

(** A callback that records the sources it is called with, and one
    that fails on a [data:] source. *)
Definition recordingCallback : string -> M (list string) nat :=
  fun src calls => (Ok (String.length src), calls ++ [src]).

Definition failingOnDataCallback : string -> M (list string) nat :=
  fun src calls =>
    (if String.prefix "data:" src
     then Throw (mkError "decode failed" "Error: decode failed")
     else Ok (String.length src),
     calls ++ [src]).

(** A document without story data, and one whose style node lies inside
    a [div]. *)
Definition documentWithoutRoot : Node :=
  mkNode 0 "#document" [] EmptyString
    [element0 1 "html" [] [element0 2 "body" [] []]].

Definition nestedStyleNode : Node :=
  element0 5 "style" [("id", "twine-user-stylesheet")] [textNode 6 "body{}"].

Definition nestedStoryData : Node :=
  element0 3 "tw-storydata" [("name", "story")]
    [element0 4 "div" [] [nestedStyleNode];
     element0 7 "script" [("id", "twine-user-script")] [textNode 8 "var a;"]].

Definition nestedDocument : Node :=
  mkNode 0 "#document" [] EmptyString
    [element0 1 "html" [] [element0 2 "body" [] [nestedStoryData]]].

(** The first passage node of the example story, and a passage node
    that is not in the example document. *)
Definition startPassageNode : Node :=
  element0 8 "tw-passagedata" [("pid", "1"); ("name", "Start")] [textNode 9 "Hi"].

Definition endPassageNode : Node :=
  element0 10 "tw-passagedata" [("pid", "2"); ("name", "End")] [textNode 11 "Bye"].

Definition newPassageNode : Node :=
  element0 20 "tw-passagedata" [("name", "New")] [textNode 21 "New text"].

(** The example manager after its first [getSC2DataInfoAfterPatch]. *)
Definition exampleManagerWithSnapshots : SC2DataManager :=
  snd (getSC2DataInfoAfterPatch exampleImports exampleManager).

(** * Properties *)

(** ** The script sort of [makeScriptNode] *)

Section ScriptSort.

Implicit Types (a b x y : SC2DataItem) (l A B : list SC2DataItem).

Lemma safe_id_some x : hasSafeIntegerId x = true -> exists z, item_id x = Some z.
Proof.
  unfold hasSafeIntegerId, isSafeInteger. destruct (item_id x); eauto. discriminate.
Qed.

Lemma scriptCompare_safe_safe a b :
  hasSafeIntegerId a = true -> hasSafeIntegerId b = true ->
  (scriptCompare a b <=? 0) = true <-> idLe a b.
Proof.
  intros Ha Hb. unfold scriptCompare, idLe.
  unfold hasSafeIntegerId in *. rewrite Ha, Hb. simpl.
  destruct (item_id a) as [x|]; [|discriminate].
  destruct (item_id b) as [y|]; [|discriminate].
  unfold js_gt, js_lt, js_seq.
  destruct (Z.ltb_spec x y); [split; [lia | reflexivity]|].
  destruct (Z.eqb_spec x y); [split; [lia | reflexivity]|].
  destruct (Z.ltb_spec y x); [|lia].
  split; [discriminate | lia].
Qed.

Lemma scriptCompare_safe_unsafe a b :
  hasSafeIntegerId a = true -> hasSafeIntegerId b = false -> scriptCompare a b = -1.
Proof.
  unfold scriptCompare, hasSafeIntegerId. intros -> ->. reflexivity.
Qed.

Lemma scriptCompare_unsafe_safe a b :
  hasSafeIntegerId a = false -> hasSafeIntegerId b = true -> scriptCompare a b = 1.
Proof.
  unfold scriptCompare, hasSafeIntegerId. intros -> ->. reflexivity.
Qed.

Lemma scriptCompare_unsafe_unsafe a b :
  hasSafeIntegerId a = false -> hasSafeIntegerId b = false -> scriptCompare a b = 0.
Proof.
  unfold scriptCompare, hasSafeIntegerId. intros -> ->. reflexivity.
Qed.

(** A record without a safe id passes every id-bearing record and stops
    in front of the first record without one. *)
Lemma insert_unsafe x A B :
  hasSafeIntegerId x = false ->
  Forall (fun r => hasSafeIntegerId r = true) A ->
  Forall (fun r => hasSafeIntegerId r = false) B ->
  sort_insert scriptCompare x (A ++ B) = A ++ x :: B.
Proof.
  intros Hx HA HB. induction HA as [|y A Hy _ IH]; simpl.
  - destruct HB as [|y B Hy _]; [reflexivity|].
    simpl. rewrite scriptCompare_unsafe_unsafe by assumption. reflexivity.
  - rewrite scriptCompare_unsafe_safe by assumption. simpl. now rewrite IH.
Qed.

(** An id-bearing record never travels into the trailing group. *)
Lemma insert_safe x A B :
  hasSafeIntegerId x = true ->
  Forall (fun r => hasSafeIntegerId r = false) B ->
  sort_insert scriptCompare x (A ++ B) = sort_insert scriptCompare x A ++ B.
Proof.
  intros Hx HB. induction A as [|y A IH]; simpl.
  - destruct HB as [|y B Hy _]; [reflexivity|].
    simpl. rewrite scriptCompare_safe_unsafe by assumption. reflexivity.
  - destruct (scriptCompare x y <=? 0); [reflexivity|]. now rewrite IH.
Qed.

Lemma insert_safe_Forall x A :
  hasSafeIntegerId x = true ->
  Forall (fun r => hasSafeIntegerId r = true) A ->
  Forall (fun r => hasSafeIntegerId r = true) (sort_insert scriptCompare x A).
Proof.
  intros Hx HA. induction HA as [|y A Hy HA IH]; simpl.
  - repeat constructor. assumption.
  - destruct (scriptCompare x y <=? 0); repeat constructor; assumption.
Qed.

Lemma idLe_total a b :
  hasSafeIntegerId a = true -> hasSafeIntegerId b = true ->
  ~ idLe a b -> idLe b a.
Proof.
  intros [x Ha]%safe_id_some [y Hb]%safe_id_some. unfold idLe.
  rewrite Ha, Hb. lia.
Qed.

Lemma insert_safe_Sorted x A :
  hasSafeIntegerId x = true ->
  Forall (fun r => hasSafeIntegerId r = true) A ->
  Sorted idLe A ->
  Sorted idLe (sort_insert scriptCompare x A).
Proof.
  intros Hx HA HS. induction A as [|y A IH]; simpl.
  - repeat constructor.
  - apply Forall_cons in HA as [Hy HA].
    apply Sorted_inv in HS as [HS Hhd].
    destruct (scriptCompare x y <=? 0) eqn:E.
    + constructor; [constructor; assumption|].
      constructor. now apply scriptCompare_safe_safe.
    + assert (Hyx : idLe y x).
      { apply idLe_total; try assumption.
        intros Hle%scriptCompare_safe_safe; congruence. }
      constructor; [now apply IH|].
      destruct A as [|w A]; simpl.
      * constructor. assumption.
      * destruct (scriptCompare x w <=? 0); constructor; try assumption.
        now inversion Hhd.
Qed.

(** Stability: the inserted record ends up in front of the records
    that carry the same id. *)
Lemma insert_safe_filter z x A :
  hasSafeIntegerId x = true ->
  Forall (fun r => hasSafeIntegerId r = true) A ->
  List.filter (hasIdEq z) (sort_insert scriptCompare x A)
  = List.filter (hasIdEq z) (x :: A).
Proof.
  intros Hx HA. induction HA as [|y A Hy HA IH]; [reflexivity|].
  simpl sort_insert. destruct (scriptCompare x y <=? 0) eqn:E; [reflexivity|].
  simpl. rewrite IH. simpl.
  destruct (hasIdEq z y) eqn:Ezy, (hasIdEq z x) eqn:Ezx; try reflexivity.
  exfalso. unfold hasIdEq in *.
  apply bool_decide_eq_true in Ezy, Ezx.
  assert (idLe x y) as Hle by (unfold idLe; rewrite Ezx, Ezy; lia).
  apply scriptCompare_safe_safe in Hle; congruence.
Qed.

Lemma sortScriptFileItems_invariant l :
  exists A,
    sortScriptFileItems l
    = A ++ List.filter (fun r => negb (hasSafeIntegerId r)) l
    /\ Forall (fun r => hasSafeIntegerId r = true) A
    /\ Sorted idLe A
    /\ forall z, List.filter (hasIdEq z) A
                 = List.filter (fun r => hasSafeIntegerId r && hasIdEq z r) l.
Proof.
  induction l as [|x l (A & HAeq & HAsafe & HAsorted & HAstable)].
  - exists []. repeat split; constructor.
  - assert (HB : Forall (fun r => hasSafeIntegerId r = false)
                   (List.filter (fun r => negb (hasSafeIntegerId r)) l)).
    { apply List.Forall_forall. intros r [_ Hr]%List.filter_In.
      now apply negb_true_iff. }
    unfold sortScriptFileItems in *. simpl. rewrite HAeq.
    destruct (hasSafeIntegerId x) eqn:Hx; simpl.
    + exists (sort_insert scriptCompare x A).
      split; [now apply insert_safe|].
      split; [now apply insert_safe_Forall|].
      split; [now apply insert_safe_Sorted|].
      intros z. rewrite insert_safe_filter by assumption.
      simpl. destruct (hasIdEq z x); now rewrite HAstable.
    + exists A. split; [now apply insert_unsafe|].
      repeat split; assumption.
Qed.

End ScriptSort.

(** C2, as the code has it: for every list of script records, the sort
    of [makeScriptNode] yields the records whose id passes
    [isSafeInteger] (negative ids included), and no other record, first,
    in ascending id order and records of equal id in their input order,
    followed by all other records in their input order; and the example
    list of the specification sorts as the specification says. *)
Theorem script_sort_stable_partition :
  (forall items,
     StablePartitionSort hasSafeIntegerId items (sortScriptFileItems items))
  /\ sortScriptFileItems
       [mkItem None "1" EmptyString; mkItem (Some 5) "2" EmptyString;
        mkItem None "3" EmptyString; mkItem (Some 2) "4" EmptyString]
     = [mkItem (Some 2) "4" EmptyString; mkItem (Some 5) "2" EmptyString;
        mkItem None "1" EmptyString; mkItem None "3" EmptyString].
Proof.
  split; [|reflexivity].
  intros items.
  destruct (sortScriptFileItems_invariant items) as (A & Heq & Hsafe & Hs & Hst).
  exists A. auto.
Qed.

(** C2, as the specification words it, fails: a record with a negative
    id is moved in front of an id-less record, although neither has "a
    well-formed non-negative integer id". *)
Lemma script_sort_negative_id_counterexample :
  ~ StablePartitionSort hasNonNegativeIntegerId
      [mkItem None "a" EmptyString; mkItem (Some (-1)) "b" EmptyString]
      (sortScriptFileItems [mkItem None "a" EmptyString; mkItem (Some (-1)) "b" EmptyString]).
Proof.
  intros (withId & Heq & _).
  vm_compute in Heq.
  destruct withId as [|w withId]; [discriminate|].
  injection Heq as _ Heq.
  destruct withId as [|w' withId]; [discriminate|].
  injection Heq as _ Heq.
  destruct withId; discriminate.
Qed.

(** ** Association lists: attribute lists and hook tables *)

Section Assoc.

Context {V : Type}.
Implicit Types (k : string) (v : V) (l : list (string * V)).

Lemma assocGet_assocSet_eq k v l : assocGet k (assocSet k v l) = Some v.
Proof.
  induction l as [|[k' v'] l IH]; simpl.
  - now rewrite String.eqb_refl.
  - destruct (String.eqb k' k) eqn:E; simpl; rewrite E; [reflexivity | exact IH].
Qed.

Lemma assocGet_assocSet_ne k k' v l :
  k <> k' -> assocGet k' (assocSet k v l) = assocGet k' l.
Proof.
  intros Hne. induction l as [|[k0 v0] l IH]; simpl.
  - destruct (String.eqb_spec k k'); [contradiction | reflexivity].
  - destruct (String.eqb_spec k0 k) as [->|Hk0]; simpl.
    + destruct (String.eqb_spec k k'); [contradiction | reflexivity].
    + destruct (String.eqb k0 k'); [reflexivity | exact IH].
Qed.

Lemma assocHas_false_notin k l :
  assocHas k l = false -> ~ In k (map fst l).
Proof.
  unfold assocHas. induction l as [|[k' v'] l IH]; simpl; [tauto|].
  destruct (String.eqb_spec k' k); simpl; [discriminate|].
  intros H [Heq | Hin]; [contradiction | now apply IH].
Qed.

Lemma assocSet_keys k v l :
  map fst (assocSet k v l)
  = if assocHas k l then map fst l else map fst l ++ [k].
Proof.
  unfold assocHas. induction l as [|[k' v'] l IH]; simpl; [reflexivity|].
  destruct (String.eqb k' k); simpl; [reflexivity|].
  rewrite IH. now destruct (existsb _ l).
Qed.

Lemma entriesOf_notin k l : ~ In k (map fst l) -> entriesOf k l = [].
Proof.
  unfold entriesOf. induction l as [|[k' v'] l IH]; simpl; [reflexivity|].
  intros Hn. destruct (String.eqb_spec k' k) as [->|_]; [tauto|].
  apply IH. tauto.
Qed.

Lemma entriesOf_assocSet k v l :
  List.NoDup (map fst l) -> entriesOf k (assocSet k v l) = [(k, v)].
Proof.
  unfold entriesOf. induction l as [|[k' v'] l IH]; simpl; intros Hnd.
  - now rewrite String.eqb_refl.
  - apply List.NoDup_cons_iff in Hnd as [Hnotin Hnd].
    destruct (String.eqb_spec k' k) as [->|Hne]; simpl.
    + rewrite String.eqb_refl. f_equal. now apply entriesOf_notin.
    + destruct (String.eqb_spec k' k); [contradiction|]. now apply IH.
Qed.

Lemma assocSet_NoDup k v l :
  List.NoDup (map fst l) -> List.NoDup (map fst (assocSet k v l)).
Proof.
  intros Hnd. rewrite assocSet_keys.
  destruct (assocHas k l) eqn:E; [assumption|].
  apply assocHas_false_notin in E.
  apply List.NoDup_rev in Hnd. rewrite <- (List.rev_involutive (map fst l ++ [k])).
  apply List.NoDup_rev. rewrite List.rev_app_distr. simpl.
  constructor; [|assumption]. now rewrite <- List.in_rev.
Qed.

End Assoc.

(** ** [HtmlTagSrcHook]: registration *)

Lemma addHook_run hookKey hook st :
  addHook hookKey hook st
  = (Ok tt,
     mkHtmlTagSrcHook (assocSet hookKey hook (hookTable st))
       (hookReturnModeTable st) (element st)
       (hookEvents st ++
        if assocHas hookKey (hookTable st) then
          [ConsoleError "[HtmlTagSrcHook] addHook: hookKey already exist!" [hookKey];
           LoggerError ("[HtmlTagSrcHook] addHook: hookKey[" +:+ hookKey
                        +:+ "] already exist!")]
        else [])).
Proof.
  unfold addHook, bind, gets, hookEmit, modify, ret, set_hookTable. simpl.
  destruct (assocHas hookKey (hookTable st)); simpl.
  - now rewrite <- List.app_assoc.
  - now rewrite List.app_nil_r.
Qed.

Lemma addReturnModeHook_run hookKey hook st :
  addReturnModeHook hookKey hook st
  = (Ok tt,
     mkHtmlTagSrcHook (hookTable st)
       (assocSet hookKey hook (hookReturnModeTable st)) (element st)
       (hookEvents st ++
        if assocHas hookKey (hookReturnModeTable st) then
          [ConsoleError "[HtmlTagSrcHook] addReturnModeHook: hookKey already exist!"
             [hookKey];
           LoggerError ("[HtmlTagSrcHook] addReturnModeHook: hookKey[" +:+ hookKey
                        +:+ "] already exist!")]
        else [])).
Proof.
  unfold addReturnModeHook, bind, gets, hookEmit, modify, ret, set_hookReturnModeTable.
  simpl. destruct (assocHas hookKey (hookReturnModeTable st)); simpl.
  - now rewrite <- List.app_assoc.
  - now rewrite List.app_nil_r.
Qed.

Lemma register_uniqueKeys r st : uniqueKeys st -> uniqueKeys (snd (register r st)).
Proof.
  intros [H1 H2]. destruct r as [k h|k h]; simpl.
  - rewrite addHook_run. split; simpl; [now apply assocSet_NoDup | assumption].
  - rewrite addReturnModeHook_run. split; simpl; [assumption | now apply assocSet_NoDup].
Qed.

Lemma afterRegistrations_uniqueKeys regs st :
  uniqueKeys st -> uniqueKeys (afterRegistrations regs st).
Proof.
  revert st. induction regs as [|r regs IH]; intros st Hst; [exact Hst|].
  apply IH. now apply register_uniqueKeys.
Qed.

(** ** [HtmlTagSrcHook]: [doHook] *)

Section DoHookProperties.

Variable outerHTML : Node -> string.

Lemma getAttribute_setAttribute_eq name value el el' :
  setAttribute name value el = Ok el' -> getAttribute el' name = Some value.
Proof.
  unfold setAttribute, getAttribute.
  destruct (validAttributeLocalName name); [|discriminate].
  intros [= <-]. simpl. apply assocGet_assocSet_eq.
Qed.

Lemma getAttribute_setAttribute_ne name name' value el el' :
  toLowerCase name <> toLowerCase name' ->
  setAttribute name value el = Ok el' -> getAttribute el' name' = getAttribute el name'.
Proof.
  unfold setAttribute, getAttribute. intros Hne.
  destruct (validAttributeLocalName name); [|discriminate].
  intros [= <-]. simpl. now apply assocGet_assocSet_ne.
Qed.

Lemma forEachUntil_cons {S A B} (x : A) (l : list A) (body : A -> M S (option B)) s :
  forEachUntil (x :: l) body s
  = match body x s with
    | (Ok (Some b), s') => (Ok (Some b), s')
    | (Ok None, s') => forEachUntil l body s'
    | (Throw e, s') => (Throw e, s')
    end.
Proof.
  cbn [forEachUntil]. unfold bind. destruct (body x s) as [[[b|]|e] s']; reflexivity.
Qed.

Lemma forEachUntil_app {S A B} (l1 l2 : list A) (body : A -> M S (option B)) s s1 :
  forEachUntil l1 body s = (Ok None, s1) ->
  forEachUntil (l1 ++ l2) body s = forEachUntil l2 body s1.
Proof.
  revert s. induction l1 as [|x l1 IH]; intros s.
  - cbn. unfold ret. now intros [= ->].
  - cbn [app]. rewrite !forEachUntil_cons.
    destruct (body x s) as [[[b|]|e] s']; try discriminate. apply IH.
Qed.

Lemma tryReturnModeHook_declines mlSrc field entry st :
  returnModeHookDeclines mlSrc entry ->
  exists evs, tryReturnModeHook mlSrc field entry st = (Ok None, withHookEvents evs st).
Proof.
  destruct entry as [k h]. unfold returnModeHookDeclines. simpl.
  unfold tryReturnModeHook, try_catch, bind, liftResult, ret, hookEmit, modify,
    withHookEvents.
  destruct (h mlSrc) as [[[|] src]|e]; [contradiction| |]; intros _; cbn.
  - exists []. rewrite List.app_nil_r. now destruct st.
  - eexists. rewrite <- List.app_assoc. reflexivity.
Qed.

Lemma tryHook_declines mlSrc field entry st :
  match fst (snd entry mlSrc field (element st)) with
  | Ok true => False
  | _ => True
  end ->
  exists evs,
    tryHook mlSrc field entry st
    = (Ok None,
       withHookEvents evs (set_element (snd (snd entry mlSrc field (element st))) st)).
Proof.
  destruct entry as [k h]. intros Hd. simpl in Hd.
  unfold tryHook, try_catch, callHook, bind, gets, liftResult, ret, hookEmit, modify,
    withHookEvents, set_element.
  cbn [snd]. destruct (h mlSrc field (element st)) as [r el'].
  destruct r as [[|]|e]; [contradiction| |]; cbn.
  - exists []. now rewrite List.app_nil_r.
  - eexists. rewrite <- List.app_assoc. reflexivity.
Qed.

(** The loop over the return-mode hooks, when none of them takes the
    source: it runs to its end and leaves the tables and the element as
    they were. *)
Lemma returnModeLoop_all_decline mlSrc field hooks st :
  Forall (returnModeHookDeclines mlSrc) hooks ->
  exists evs,
    forEachUntil hooks (tryReturnModeHook mlSrc field) st
    = (Ok None, withHookEvents evs st).
Proof.
  intros Hall. revert st.
  induction Hall as [|entry hooks Hh _ IH]; intros st.
  - exists []. unfold withHookEvents. cbn. unfold ret.
    rewrite List.app_nil_r. now destruct st.
  - rewrite forEachUntil_cons.
    destruct (tryReturnModeHook_declines mlSrc field entry st Hh) as [evs1 ->].
    destruct (IH (withHookEvents evs1 st)) as [evs2 ->].
    exists (evs1 ++ evs2). unfold withHookEvents. cbn.
    now rewrite List.app_assoc.
Qed.

(** The loop over the hooks, when none of them takes the element: every
    hook is called, in table order, on the element as the hooks before
    it left it. *)
Lemma hookLoop_all_decline mlSrc field hooks st :
  hooksDecline mlSrc field hooks (element st) ->
  exists evs,
    forEachUntil hooks (tryHook mlSrc field) st
    = (Ok None,
       withHookEvents evs
         (set_element (afterAllHooks mlSrc field hooks (element st)) st)).
Proof.
  revert st. induction hooks as [|entry hooks IH]; intros st Hall.
  - exists []. unfold withHookEvents, set_element. cbn. unfold ret.
    rewrite List.app_nil_r. now destruct st.
  - destruct Hall as [Hh Hrest]. rewrite forEachUntil_cons.
    destruct (tryHook_declines mlSrc field entry st Hh) as [evs1 ->].
    match goal with |- context [forEachUntil hooks _ ?s] =>
      destruct (IH s) as [evs2 ->]; [exact Hrest|] end.
    exists (evs1 ++ evs2). unfold withHookEvents, set_element, afterAllHooks. cbn.
    now rewrite List.app_assoc.
Qed.

Lemma truthyString_Some v x :
  v = Some x -> x <> EmptyString -> truthyString v = Some x.
Proof.
  intros -> Hx. unfold truthyString.
  destruct (String.eqb_spec x EmptyString); [contradiction | reflexivity].
Qed.

(** [doHook] on an element with a saved value, once the return-mode
    hooks have all declined or thrown: the loop over the other table and
    what follows it run on the state those hooks left, that is, the
    state with their error entries. *)
Lemma doHook_hook_loop field mlSrc st :
  getAttribute (element st) ("ML-" +:+ field) = Some mlSrc ->
  mlSrc <> EmptyString ->
  Forall (returnModeHookDeclines mlSrc) (hookReturnModeTable st) ->
  exists evs,
    doHook outerHTML field st
    = (r <- forEachUntil (hookTable st) (tryHook mlSrc field) ;;
       match r with
       | Some b => ret b
       | None =>
           elSetAttribute "ML-src_replace_failed" "1" ;;;
           elSetAttribute field mlSrc ;;;
           ret false
       end) (withHookEvents evs st).
Proof.
  intros Hml Hne HR.
  destruct (returnModeLoop_all_decline mlSrc field _ st HR) as [evs1 E1].
  exists evs1. unfold doHook. unfold bind at 1. unfold gets at 1.
  rewrite (truthyString_Some _ mlSrc Hml Hne).
  unfold bind at 1. unfold gets at 1. unfold bind at 1. rewrite E1.
  unfold bind at 1. unfold gets at 1. reflexivity.
Qed.

(** The loop over the hooks up to the first hook that takes the
    element. *)
Lemma hookLoop_accepts mlSrc field hookKey (hook : HtmlTagSrcHookType)
    (before after : list (string * HtmlTagSrcHookType)) st :
  hooksDecline mlSrc field before (element st) ->
  fst (hook mlSrc field (afterAllHooks mlSrc field before (element st))) = Ok true ->
  exists evs,
    forEachUntil (before ++ (hookKey, hook) :: after) (tryHook mlSrc field) st
    = (Ok (Some true),
       withHookEvents evs
         (set_element
            (snd (hook mlSrc field (afterAllHooks mlSrc field before (element st))))
            st)).
Proof.
  intros Hbefore Hacc.
  destruct (hookLoop_all_decline mlSrc field before st Hbefore) as [evs E].
  exists evs.
  rewrite (forEachUntil_app _ _ _ _ _ E), forEachUntil_cons.
  unfold tryHook, try_catch, callHook, bind, gets, modify, liftResult, ret.
  cbn [element set_element withHookEvents].
  destruct (hook mlSrc field (afterAllHooks mlSrc field before (element st)))
    as [r el'] eqn:Eh.
  cbn [fst snd] in Hacc |- *. subst r. reflexivity.
Qed.

(** [doHook] when no hook of either table takes the element: the mark
    and the restored field are set on the element as the hooks have left
    it. *)
Lemma doHook_past_loops field mlSrc st :
  getAttribute (element st) ("ML-" +:+ field) = Some mlSrc ->
  mlSrc <> EmptyString ->
  Forall (returnModeHookDeclines mlSrc) (hookReturnModeTable st) ->
  hooksDecline mlSrc field (hookTable st) (element st) ->
  exists evs,
    doHook outerHTML field st
    = (elSetAttribute "ML-src_replace_failed" "1" ;;;
       elSetAttribute field mlSrc ;;;
       ret false)
        (withHookEvents evs
           (set_element (afterAllHooks mlSrc field (hookTable st) (element st)) st)).
Proof.
  intros Hml Hne HR HH.
  destruct (doHook_hook_loop field mlSrc st Hml Hne HR) as [evs1 ->].
  destruct (hookLoop_all_decline mlSrc field _ (withHookEvents evs1 st) HH) as [evs2 E2].
  cbn [withHookEvents hookTable element] in E2.
  exists (evs1 ++ evs2). unfold bind at 1. cbn [withHookEvents hookTable]. rewrite E2.
  unfold withHookEvents, set_element. cbn. now rewrite List.app_assoc.
Qed.

(** C10, as the code has it: for an element with a non-empty
    [ML-<field>] attribute and a [field] that is a valid attribute name
    other than [ML-src_replace_failed] itself, if in this run every
    hook of both tables declines or throws (a hook of the second table
    on the element as the hooks before it have left it), [doHook] calls
    every hook in table order (a throwing hook does not stop the loop),
    then sets [ML-src_replace_failed] to [1], restores [field] to the
    saved value and returns false; nothing is thrown out of [doHook]. *)
Theorem doHook_all_hooks_decline (field mlSrc : string) (st : HtmlTagSrcHook) :
  getAttribute (element st) ("ML-" +:+ field) = Some mlSrc ->
  mlSrc <> EmptyString ->
  validAttributeLocalName field = true ->
  toLowerCase field <> "ml-src_replace_failed" ->
  Forall (returnModeHookDeclines mlSrc) (hookReturnModeTable st) ->
  hooksDecline mlSrc field (hookTable st) (element st) ->
  doHookFallsBack outerHTML field mlSrc st
  /\ exists st' marked,
       doHook outerHTML field st = (Ok false, st')
       /\ setAttribute "ML-src_replace_failed" "1"
            (afterAllHooks mlSrc field (hookTable st) (element st)) = Ok marked
       /\ setAttribute field mlSrc marked = Ok (element st')
       /\ hookTable st' = hookTable st
       /\ hookReturnModeTable st' = hookReturnModeTable st.
Proof.
  intros Hml Hne Hvalid Hfield HR HH.
  assert (Hrun : exists st' marked,
    doHook outerHTML field st = (Ok false, st')
    /\ setAttribute "ML-src_replace_failed" "1"
         (afterAllHooks mlSrc field (hookTable st) (element st)) = Ok marked
    /\ setAttribute field mlSrc marked = Ok (element st')
    /\ hookTable st' = hookTable st
    /\ hookReturnModeTable st' = hookReturnModeTable st).
  { destruct (doHook_past_loops field mlSrc st Hml Hne HR HH) as [evs ->].
    unfold elSetAttribute, bind, gets, liftResult, modify, ret, set_element,
      withHookEvents, setAttribute.
    rewrite Hvalid. cbn. eexists _, _. repeat split. }
  split; [|exact Hrun].
  destruct Hrun as (st' & marked & Hdo & Hmark & Hset & _).
  exists st'. split; [exact Hdo|].
  split; [now apply (getAttribute_setAttribute_eq _ _ _ _ Hset)|].
  rewrite (getAttribute_setAttribute_ne field "ML-src_replace_failed" _ _ _ Hfield Hset).
  now apply (getAttribute_setAttribute_eq _ _ _ _ Hmark).
Qed.

Lemma forEachUntil_no_throw {S A B} (l : list A) (body : A -> M S (option B)) :
  (forall x s, exists r s', body x s = (Ok r, s')) ->
  forall s, exists r s', forEachUntil l body s = (Ok r, s').
Proof.
  intros Hbody. induction l as [|x l IH]; intros s.
  - eexists _, _. reflexivity.
  - rewrite forEachUntil_cons.
    destruct (Hbody x s) as ([b|] & s' & ->); [eexists _, _; reflexivity | apply IH].
Qed.

Lemma tryReturnModeHook_no_throw mlSrc field entry st :
  exists r st', tryReturnModeHook mlSrc field entry st = (Ok r, st').
Proof.
  destruct entry as [k h].
  unfold tryReturnModeHook, try_catch, bind, liftResult, ret, hookEmit, modify,
    elSetAttribute, gets.
  destruct (h mlSrc) as [[[|] src]|e]; cbn; try (eexists _, _; reflexivity).
  destruct (setAttribute field src (element st)); cbn; eexists _, _; reflexivity.
Qed.

Lemma tryHook_no_throw mlSrc field entry st :
  exists r st', tryHook mlSrc field entry st = (Ok r, st').
Proof.
  destruct entry as [k h].
  unfold tryHook, try_catch, callHook, bind, gets, liftResult, ret, hookEmit, modify.
  destruct (h mlSrc field (element st)) as [[[|]|e] el']; cbn;
    eexists _, _; reflexivity.
Qed.

End DoHookProperties.

Lemma doHook_all_hooks_decline_witness :
  doHookFallsBack (fun _ => "<img>") "src" "img/a.png" exampleHookState
  /\ exists st' marked,
       doHook (fun _ => "<img>") "src" exampleHookState = (Ok false, st')
       /\ setAttribute "ML-src_replace_failed" "1"
            (afterAllHooks "img/a.png" "src" (hookTable exampleHookState)
               (element exampleHookState)) = Ok marked
       /\ setAttribute "src" "img/a.png" marked = Ok (element st')
       /\ hookTable st' = hookTable exampleHookState
       /\ hookReturnModeTable st' = hookReturnModeTable exampleHookState.
Proof.
  apply (doHook_all_hooks_decline (fun _ => "<img>") "src" "img/a.png" exampleHookState).
  - reflexivity.
  - discriminate.
  - reflexivity.
  - discriminate.
  - repeat constructor.
  - simpl. repeat constructor.
Defined.

(** C10, as the claim words it, fails when [field] is the name of the
    failure mark: the element carries a non-empty [ML-<field>] attribute
    and no hook takes it, yet the mark ends up holding the saved value,
    not [1], because [field] is restored after the mark is set. *)
Lemma doHook_mark_field_counterexample :
  let st := mkHtmlTagSrcHook [] [] markFieldElement [] in
  getAttribute (element st) ("ML-" +:+ "ML-src_replace_failed") = Some "x.png"
  /\ Forall (returnModeHookDeclines "x.png") (hookReturnModeTable st)
  /\ hooksDecline "x.png" "ML-src_replace_failed" (hookTable st) (element st)
  /\ ~ doHookFallsBack (fun _ => "<img>") "ML-src_replace_failed" "x.png" st.
Proof.
  cbn zeta. split; [reflexivity|]. split; [constructor|]. split; [constructor|].
  intros (st' & Hdo & _ & Hmark).
  vm_compute in Hdo. injection Hdo as <-.
  vm_compute in Hmark. discriminate.
Qed.

(** An empty [field] is not a valid attribute name: with an [ml-]
    attribute on the element and no hook taking it, the last
    [setAttribute] throws out of [doHook]. *)
Lemma doHook_empty_field_throws :
  fst (doHook (fun _ => "<img>") EmptyString
         (mkHtmlTagSrcHook [] [] emptyFieldElement []))
  = Throw InvalidCharacterError.
Proof. reflexivity. Qed.

(** ** The DOM tree *)

(** Induction over a node and, through [Forall], over its children. *)
Lemma Node_ind (P : Node -> Prop) :
  (forall i nm ats v cs, Forall P cs -> P (mkNode i nm ats v cs)) ->
  forall n, P n.
Proof.
  intros H. fix IH 1. intros [i nm ats v cs]. apply H.
  induction cs as [|c cs IHcs]; constructor; [apply IH | exact IHcs].
Qed.

(** In document order an element is followed at once by its own
    descendants: the elements named [tag] found after the first one start
    with those below it. *)
Lemma elementsSelf_first_then_below tag n :
  forall r rest,
    elementsSelf tag n = r :: rest ->
    exists rest', rest = getElementsByTagName r tag ++ rest'.
Proof.
  induction n as [i nm ats v cs IH] using Node_ind. intros r rest. simpl.
  destruct (String.eqb nm tag).
  - intros [= <- <-]. exists []. unfold getElementsByTagName. simpl.
    now rewrite List.app_nil_r.
  - simpl. induction IH as [|c cs Hc _ IHcs]; simpl; [discriminate|].
    destruct (elementsSelf tag c) as [|r1 rest1] eqn:Ec; simpl.
    + exact IHcs.
    + intros [= <- <-]. destruct (Hc r1 rest1 eq_refl) as [rest' ->].
      eexists. now rewrite <- List.app_assoc.
Qed.

Lemma getElementsByTagName_first_then_below tag n r rest :
  getElementsByTagName n tag = r :: rest ->
  exists rest', rest = getElementsByTagName r tag ++ rest'.
Proof.
  unfold getElementsByTagName at 1.
  induction (childNodes n) as [|c cs IH]; simpl; [discriminate|].
  destruct (elementsSelf tag c) as [|r1 rest1] eqn:Ec; simpl.
  - exact IH.
  - intros [= <- <-].
    destruct (elementsSelf_first_then_below tag c r1 rest1 Ec) as [rest' ->].
    eexists. now rewrite <- List.app_assoc.
Qed.

(** The only story-data element of a document has no story-data element
    below it. *)
Lemma single_root_has_no_nested_root doc root :
  getElementsByTagName doc "tw-storydata" = [root] ->
  getElementsByTagName root "tw-storydata" = [].
Proof.
  intros H. destruct (getElementsByTagName_first_then_below _ _ _ _ H) as [rest' E].
  symmetry in E. now apply List.app_eq_nil in E as [-> _].
Qed.

(** ** [checkSC2Data] *)

(** Whatever the document, [checkSC2Data] answers false: past the
    checks of the root, style and script counts it counts the
    [tw-storydata] elements below the root, where the passages are
    meant, and there is none. *)
Lemma checkSC2Data_always_false (st : SC2DataManager) :
  fst (checkSC2Data st) = Ok false.
Proof.
  unfold checkSC2Data. unfold bind at 1. unfold gets at 1.
  destruct (getElementsByTagName (document st) "tw-storydata")
    as [|rNode [|r2 rNodes]] eqn:Eroot; try reflexivity.
  destruct (negb (Nat.eqb (length (getElementsByTagName rNode "style")) 1));
    [reflexivity|].
  destruct (negb (Nat.eqb (length (getElementsByTagName rNode "script")) 1));
    [reflexivity|].
  rewrite (single_root_has_no_nested_root _ _ Eroot). reflexivity.
Qed.

(** C8 at a document of the expected shape: one story-data root, one
    style node, one script node and two passages; [checkSC2Data] returns
    false and reports that there is no passage. *)
Theorem checkSC2Data_rejects_expected_shape :
  expectedShape exampleDocument
  /\ checkSC2Data (newSC2DataManager exampleDocument 12 emptyModLoader)
     = (Ok false,
        set_events
          [ConsoleError "checkSC2Data() (passageDataNodes.length < 1)" []]
          (newSC2DataManager exampleDocument 12 emptyModLoader)).
Proof.
  split; [|reflexivity].
  exists exampleStoryData. repeat split.
Qed.

(** ** Reasoning about computations *)

Section Monad.

Context {S : Type}.

Lemma bind_run {A B} (m : M S A) (k : A -> M S B) s :
  bind m k s
  = match m s with
    | (Ok a, s') => k a s'
    | (Throw e, s') => (Throw e, s')
    end.
Proof. reflexivity. Qed.

Lemma bind_Ok {A B} (m : M S A) (k : A -> M S B) s a s' :
  m s = (Ok a, s') -> bind m k s = k a s'.
Proof. intros H. unfold bind. now rewrite H. Qed.

Lemma bind_Ok_inv {A B} (m : M S A) (k : A -> M S B) s b s2 :
  bind m k s = (Ok b, s2) ->
  exists a s1, m s = (Ok a, s1) /\ k a s1 = (Ok b, s2).
Proof.
  unfold bind. destruct (m s) as [[a|e] s1]; [eauto | discriminate].
Qed.

Lemma forEach_cons {A} (x : A) (l : list A) (body : A -> M S unit) :
  forEach (x :: l) body = (body x ;;; forEach l body).
Proof. reflexivity. Qed.

Lemma forEach_app {A} (l1 l2 : list A) (body : A -> M S unit) s :
  forEach (l1 ++ l2) body s = (forEach l1 body ;;; forEach l2 body) s.
Proof.
  revert s. induction l1 as [|x l1 IH]; intros s; simpl.
  - reflexivity.
  - rewrite !bind_run. destruct (body x s) as [[[]|e] s']; [|reflexivity].
    rewrite IH. reflexivity.
Qed.

Lemma hoare_conseq {A} (P P' : S -> Prop) (m : M S A) (Q Q' : A -> S -> Prop)
    (R R' : S -> Prop) :
  hoare P' m Q' R' ->
  (forall s, P s -> P' s) -> (forall a s, Q' a s -> Q a s) ->
  (forall s, R' s -> R s) ->
  hoare P m Q R.
Proof.
  intros H HP HQ HR s Hs. specialize (H s (HP s Hs)).
  destruct (m s) as [[a|e] s']; auto.
Qed.

Lemma hoare_ret {A} (a : A) (Q : A -> S -> Prop) R : hoare (Q a) (ret a) Q R.
Proof. intros s Hs. exact Hs. Qed.

Lemma hoare_throw {A} e (Q : A -> S -> Prop) (R : S -> Prop) :
  hoare R (throw e) Q R.
Proof. intros s Hs. exact Hs. Qed.

Lemma hoare_bind {A B} (P : S -> Prop) (m : M S A) (Mid : A -> S -> Prop)
    (k : A -> M S B) (Q : B -> S -> Prop) R :
  hoare P m Mid R -> (forall a, hoare (Mid a) (k a) Q R) ->
  hoare P (bind m k) Q R.
Proof.
  intros Hm Hk s Hs. rewrite bind_run. specialize (Hm s Hs).
  destruct (m s) as [[a|e] s']; [now apply Hk | exact Hm].
Qed.

Lemma hoare_try_catch {A} (P : S -> Prop) (m : M S A) (h : JsError -> M S A)
    (Q : A -> S -> Prop) (Mid R : S -> Prop) :
  hoare P m Q Mid -> (forall e, hoare Mid (h e) Q R) ->
  hoare P (try_catch m h) Q R.
Proof.
  intros Hm Hh s Hs. unfold try_catch. specialize (Hm s Hs).
  destruct (m s) as [[a|e] s']; [exact Hm | now apply Hh].
Qed.

Lemma preserves_ret {A} (I : S -> Prop) (a : A) : preserves I (ret a).
Proof. intros s Hs. exact Hs. Qed.

Lemma preserves_throw {A} (I : S -> Prop) e : preserves I (@throw S A e).
Proof. intros s Hs. exact Hs. Qed.

Lemma preserves_gets {A} (I : S -> Prop) (f : S -> A) : preserves I (gets f).
Proof. intros s Hs. exact Hs. Qed.

Lemma preserves_liftResult {A} (I : S -> Prop) (r : Result A) :
  preserves I (liftResult r).
Proof. intros s Hs. unfold liftResult. now destruct r. Qed.

Lemma preserves_modify (I : S -> Prop) (f : S -> S) :
  (forall s, I s -> I (f s)) -> preserves I (modify f).
Proof. intros H s Hs. now apply H. Qed.

Lemma preserves_bind {A B} (I : S -> Prop) (m : M S A) (k : A -> M S B) :
  preserves I m -> (forall a, preserves I (k a)) -> preserves I (bind m k).
Proof. intros Hm Hk. now apply hoare_bind with (Mid := fun _ => I). Qed.

Lemma preserves_try_catch {A} (I : S -> Prop) (m : M S A) (h : JsError -> M S A) :
  preserves I m -> (forall e, preserves I (h e)) -> preserves I (try_catch m h).
Proof. intros Hm Hh. now apply hoare_try_catch with (Mid := I). Qed.

Lemma preserves_forEach {A} (I : S -> Prop) (l : list A) (body : A -> M S unit) :
  (forall x, preserves I (body x)) -> preserves I (forEach l body).
Proof.
  intros Hbody. induction l as [|x l IH]; simpl.
  - apply preserves_ret.
  - apply preserves_bind; [apply Hbody | intros _; exact IH].
Qed.

Lemma preserves_mapM {A B} (I : S -> Prop) (f : A -> M S B) (l : list A) :
  (forall x, preserves I (f x)) -> preserves I (mapM f l).
Proof.
  intros Hf. induction l as [|x l IH]; simpl.
  - apply preserves_ret.
  - apply preserves_bind; [apply Hf | intros y].
    apply preserves_bind; [exact IH | intros ys; apply preserves_ret].
Qed.

Lemma preserves_snd {A} (I : S -> Prop) (m : M S A) s :
  preserves I m -> I s -> I (snd (m s)).
Proof.
  intros H Hs. specialize (H s Hs). destruct (m s) as [[a|e] s']; exact H.
Qed.

End Monad.

(** ** [applyReplacePatcher] *)

Lemma list_alter_lookup {A} (f : A -> A) (l : list A) (i : nat) (x : A) :
  l !! i = Some x -> alter f i l = <[i := f x]> l.
Proof.
  revert i. induction l as [|y l IH]; intros [|i]; simpl; try discriminate.
  - now intros [= ->].
  - intros H. f_equal. now apply IH.
Qed.

Lemma patched_id target v st :
  heap st !! target = Some v -> patched target v [] st = st.
Proof.
  intros H. unfold patched, set_events, set_heap. simpl.
  rewrite (list_insert_id _ _ _ H), List.app_nil_r. now destruct st.
Qed.

Lemma patched_patched target v1 v2 evs1 evs2 st :
  patched target v2 evs2 (patched target v1 evs1 st)
  = patched target v2 (evs1 ++ evs2) st.
Proof.
  unfold patched, set_events, set_heap. simpl.
  now rewrite list_insert_insert_eq, List.app_assoc.
Qed.

Lemma patched_lookup target v evs st w :
  heap st !! target = Some w -> heap (patched target v evs st) !! target = Some v.
Proof.
  intros H. unfold patched. simpl. apply list_lookup_insert_eq.
  now apply lookup_lt_Some in H.
Qed.

Section ApplyReplacePatcher.

Lemma applyOneReplacePatcher_run target modName rp st v :
  heap st !! target = Some v ->
  applyOneReplacePatcher target modName rp st
  = (Ok tt,
     patched target (afterPatchStep v (modName, Some rp))
       (patchStepEvents v (modName, Some rp)) st).
Proof.
  intros Hv.
  destruct st as [doc next h origin afterPatch started loader conflicts evs created].
  cbn [heap] in Hv.
  cbv [applyOneReplacePatcher callReplacePatcher try_catch bind emit modify deref
       update liftResult ret patched afterPatchStep patchStepEvents patchErrorEvents
       set_events set_heap heap events document nextNodeId originSC2DataInfoCache
       cSC2DataInfoAfterPatchCache startInitOk modLoader conflictResult fst snd].
  rewrite Hv.
  destruct (runReplacePatcher rp v) as [[[]|err] w].
  all: rewrite (list_alter_lookup _ _ _ _ Hv).
  all: rewrite <- !List.app_assoc; reflexivity.
Qed.

Lemma applyMissingMod_run target modName st v :
  heap st !! target = Some v ->
  emit (ConsoleError "applyReplacePatcher() (!mod)" [modName]) st
  = (Ok tt,
     patched target (afterPatchStep v (modName, None))
       (patchStepEvents v (modName, None)) st).
Proof.
  intros Hv. unfold emit, modify, patched, afterPatchStep. cbn.
  rewrite (list_insert_id _ _ _ Hv). now destruct st.
Qed.

(** The inner loop: all patchers of one mod run, one after the other. *)
Lemma forEach_patchers_run target modName rps st v :
  heap st !! target = Some v ->
  forEach rps (applyOneReplacePatcher target modName) st
  = (Ok tt,
     patched target
       (afterPatchSteps (map (fun rp => (modName, Some rp)) rps) v)
       (patchStepsEvents (map (fun rp => (modName, Some rp)) rps) v) st).
Proof.
  revert st v. induction rps as [|rp rps IH]; intros st v Hv.
  - cbn. unfold ret. now rewrite patched_id.
  - rewrite forEach_cons, bind_run, (applyOneReplacePatcher_run _ _ _ _ _ Hv).
    rewrite (IH _ _ (patched_lookup _ _ _ _ _ Hv)).
    now rewrite patched_patched.
Qed.

Lemma afterPatchSteps_app steps1 steps2 v :
  afterPatchSteps (steps1 ++ steps2) v
  = afterPatchSteps steps2 (afterPatchSteps steps1 v).
Proof. unfold afterPatchSteps. apply fold_left_app. Qed.

Lemma patchStepsEvents_app steps1 steps2 v :
  patchStepsEvents (steps1 ++ steps2) v
  = patchStepsEvents steps1 v
    ++ patchStepsEvents steps2 (afterPatchSteps steps1 v).
Proof.
  revert v. induction steps1 as [|step steps1 IH]; intros v; simpl; [reflexivity|].
  now rewrite IH, List.app_assoc.
Qed.

(** The outer loop over [modOrder]. *)
Lemma forEach_mods_run target loader names st v :
  heap st !! target = Some v ->
  let steps := patchSteps (mkModLoader (modCache loader) names) in
  forEach names (fun modName =>
    match modCache loader !! modName with
    | None => emit (ConsoleError "applyReplacePatcher() (!mod)" [modName])
    | Some modInfo =>
        forEach (replacePatcher modInfo) (applyOneReplacePatcher target modName)
    end) st
  = (Ok tt, patched target (afterPatchSteps steps v) (patchStepsEvents steps v) st).
Proof.
  revert st v. induction names as [|name names IH]; intros st v Hv; cbn zeta.
  - cbn. unfold ret. now rewrite patched_id.
  - rewrite forEach_cons, bind_run.
    unfold patchSteps. cbn [modOrder modCache flat_map].
    rewrite afterPatchSteps_app, patchStepsEvents_app.
    destruct (modCache loader !! name) as [modInfo|] eqn:Emod.
    + rewrite (forEach_patchers_run _ _ _ _ _ Hv).
      rewrite (IH _ _ (patched_lookup _ _ _ _ _ Hv)).
      now rewrite patched_patched.
    + rewrite (applyMissingMod_run target _ _ _ Hv).
      rewrite (IH _ _ (patched_lookup _ _ _ _ _ Hv)).
      now rewrite patched_patched.
Qed.

(** [getModLoader()] returns the loader; its first call leaves the
    entry of the console and the field set. *)
Lemma getModLoader_run st : getModLoader st = (Ok (modLoader st), withModLoader st).
Proof.
  destruct st as [doc next h o c started loader conflicts evs created].
  destruct created; reflexivity.
Qed.

Lemma withModLoader_created st : modLoaderCreated (withModLoader st) = true.
Proof.
  unfold withModLoader. destruct (modLoaderCreated st) eqn:E; [exact E | reflexivity].
Qed.

Lemma withModLoader_idem st : withModLoader (withModLoader st) = withModLoader st.
Proof. unfold withModLoader at 1. now rewrite withModLoader_created. Qed.

Lemma withModLoader_of_created st : modLoaderCreated st = true -> withModLoader st = st.
Proof. unfold withModLoader. now intros ->. Qed.

(** The events of a first call of [getModLoader()]. *)
Lemma withModLoader_frame st :
  exists evs,
    withModLoader st = set_modLoaderCreated true (set_events (events st ++ evs) st)
    /\ evs = (if modLoaderCreated st then []
              else [ConsoleLog "this.modLoadControllerCallback" []]).
Proof.
  destruct st as [doc next h o c started loader conflicts evs created].
  destruct created; eexists; (split; [|reflexivity]); cbn.
  - now rewrite List.app_nil_r.
  - reflexivity.
Qed.

Lemma withModLoader_fields st :
  document (withModLoader st) = document st
  /\ nextNodeId (withModLoader st) = nextNodeId st
  /\ heap (withModLoader st) = heap st
  /\ originSC2DataInfoCache (withModLoader st) = originSC2DataInfoCache st
  /\ cSC2DataInfoAfterPatchCache (withModLoader st) = cSC2DataInfoAfterPatchCache st
  /\ startInitOk (withModLoader st) = startInitOk st
  /\ modLoader (withModLoader st) = modLoader st
  /\ conflictResult (withModLoader st) = conflictResult st.
Proof. unfold withModLoader. destruct (modLoaderCreated st); repeat split. Qed.

Lemma applyReplacePatcher_run target st v :
  heap st !! target = Some v ->
  applyReplacePatcher target st
  = (Ok tt,
     patched target (afterPatchSteps (patchSteps (modLoader st)) v)
       (patchStepsEvents (patchSteps (modLoader st)) v) (withModLoader st)).
Proof.
  intros Hv. unfold applyReplacePatcher.
  rewrite !bind_run, getModLoader_run. cbn [ret].
  rewrite !bind_run, getModLoader_run, withModLoader_idem.
  destruct (withModLoader_fields st) as (_ & _ & Hh & _ & _ & _ & Hl & _).
  rewrite Hl. cbn [ret].
  rewrite (forEach_mods_run target (modLoader st) _ (withModLoader st) v)
    by now rewrite Hh.
  now destruct (modLoader st).
Qed.

End ApplyReplacePatcher.

(** C5, as the code has it: whatever the mods and their patchers,
    [applyReplacePatcher] returns normally, having run every iteration
    of its two loops after its call of [getModLoader()]; a patcher that
    throws is caught at its call: its
    error, and nothing else, is sent to [console.error] and to the
    logger, between the console entry and life-cycle call that name the
    mod and the patch file and the closing life-cycle call and console
    entry that name them again; and every later patcher, of that mod
    and of later mods, is still applied, to the object as the thrower
    left it. *)
Theorem applyReplacePatcher_continues_on_error (target : nat) (st : SC2DataManager)
    (v : SC2DataInfo) :
  heap st !! target = Some v ->
  let steps := patchSteps (modLoader st) in
  applyReplacePatcher target st
  = (Ok tt,
     patched target (afterPatchSteps steps v) (patchStepsEvents steps v)
       (withModLoader st))
  /\ forall before modName rp after e,
       steps = before ++ (modName, Some rp) :: after ->
       fst (runReplacePatcher rp (afterPatchSteps before v)) = Throw e ->
       let thrown := snd (runReplacePatcher rp (afterPatchSteps before v)) in
       afterPatchSteps steps v = afterPatchSteps after thrown
       /\ patchStepsEvents steps v
          = patchStepsEvents before v
            ++ [ConsoleLog "ModLoader ====== applyReplacePatcher() Replace Patch"
                  [modName; patchFileName rp];
                ReplacePatcher_start modName (patchFileName rp)]
            ++ patchErrorEvents e
            ++ [ReplacePatcher_end modName (patchFileName rp);
                ConsoleLog "ModLoader ====== applyReplacePatcher() Replace Patch"
                  [modName; patchFileName rp]]
            ++ patchStepsEvents after thrown.
Proof.
  intros Hv steps. split; [now apply applyReplacePatcher_run|].
  intros before modName rp after e -> Hthrow thrown.
  rewrite afterPatchSteps_app, patchStepsEvents_app.
  cbn [patchStepsEvents patchStepEvents afterPatchSteps fold_left].
  unfold afterPatchStep at 1 2. cbn [snd]. fold thrown. rewrite Hthrow.
  split; [reflexivity|].
  now rewrite <- !List.app_assoc.
Qed.

Lemma applyReplacePatcher_continues_on_error_witness :
  let steps := patchSteps (modLoader exampleManagerWithObject) in
  applyReplacePatcher 0 exampleManagerWithObject
  = (Ok tt,
     patched 0 (afterPatchSteps steps (cache modA))
       (patchStepsEvents steps (cache modA)) (withModLoader exampleManagerWithObject))
  /\ forall before modName rp after e,
       steps = before ++ (modName, Some rp) :: after ->
       fst (runReplacePatcher rp (afterPatchSteps before (cache modA))) = Throw e ->
       let thrown := snd (runReplacePatcher rp (afterPatchSteps before (cache modA))) in
       afterPatchSteps steps (cache modA) = afterPatchSteps after thrown
       /\ patchStepsEvents steps (cache modA)
          = patchStepsEvents before (cache modA)
            ++ [ConsoleLog "ModLoader ====== applyReplacePatcher() Replace Patch"
                  [modName; patchFileName rp];
                ReplacePatcher_start modName (patchFileName rp)]
            ++ patchErrorEvents e
            ++ [ReplacePatcher_end modName (patchFileName rp);
                ConsoleLog "ModLoader ====== applyReplacePatcher() Replace Patch"
                  [modName; patchFileName rp]]
            ++ patchStepsEvents after thrown.
Proof.
  apply (applyReplacePatcher_continues_on_error 0 exampleManagerWithObject (cache modA)).
  reflexivity.
Defined.

(** C5, as the claim words it, fails: [brokenPatcher] of [modA]
    throws, and no error entry of the run names [modA] or
    [broken.json]; only the entries around the error entries do. *)
Lemma applyReplacePatcher_error_entries_counterexample :
  let steps := patchSteps (modLoader exampleManagerWithObject) in
  let st' := snd (applyReplacePatcher 0 exampleManagerWithObject) in
  (exists after e,
     steps = ("modA", Some brokenPatcher) :: after
     /\ fst (runReplacePatcher brokenPatcher (cache modA)) = Throw e)
  /\ ~ errorLoggedWithIdentity "modA" "broken.json" (events st').
Proof.
  cbn zeta. split.
  - eexists _, _. split; vm_compute; reflexivity.
  - intros (ev & Hin & Herr & Hmod & Hfile).
    vm_compute in Hin.
    repeat (destruct Hin as [<-|Hin]; [vm_compute in Herr, Hmod; discriminate|]).
    exact Hin.
Qed.

(** The example run: [brokenPatcher] throws first, and both
    [shoutPatcher]s still run on what it left. *)
Example applyReplacePatcher_example :
  let '(r, st') := applyReplacePatcher 0 exampleManagerWithObject in
  r = Ok tt
  /\ match heap st' !! 0%nat with
     | Some w =>
         map passage_content (passageDataItems w) = ["Hello!!"; "Buy!!"]
         /\ styleFileItems w = []
     | None => False
     end
  /\ events st'
     = [ConsoleLog "ModLoader ====== applyReplacePatcher() Replace Patch"
          ["modA"; "broken.json"];
        ReplacePatcher_start "modA" "broken.json";
        ConsoleError "ModLoader ====== applyReplacePatcher() Replace Patch Error: "
          ["Error: pattern not found"];
        LoggerError
          "ModLoader ====== applyReplacePatcher() Replace Patch Error: [pattern not found]";
        ReplacePatcher_end "modA" "broken.json";
        ConsoleLog "ModLoader ====== applyReplacePatcher() Replace Patch"
          ["modA"; "broken.json"];
        ConsoleLog "ModLoader ====== applyReplacePatcher() Replace Patch"
          ["modA"; "shout.json"];
        ReplacePatcher_start "modA" "shout.json";
        ReplacePatcher_end "modA" "shout.json";
        ConsoleLog "ModLoader ====== applyReplacePatcher() Replace Patch"
          ["modA"; "shout.json"];
        ConsoleError "applyReplacePatcher() (!mod)" ["ghost"];
        ConsoleLog "ModLoader ====== applyReplacePatcher() Replace Patch"
          ["modB"; "shout.json"];
        ReplacePatcher_start "modB" "shout.json";
        ReplacePatcher_end "modB" "shout.json";
        ConsoleLog "ModLoader ====== applyReplacePatcher() Replace Patch"
          ["modB"; "shout.json"]].
Proof. vm_compute. repeat split. Qed.

(** ** The caches of [SC2DataManager] *)

(** Symbolic execution of straight-line code on a state given by its
    fields. *)
Ltac run_manager :=
  cbv [bind ret throw try_catch gets modify liftResult emit alloc deref update
       rootNode rootElements styleNode scriptNode passageDataNodeList
       captureFromNow createNewSC2DataInfoFromNow initSC2DataInfoCache
       getSC2DataInfoCache getSC2DataInfoAfterPatch flushAfterPatchCache
       earlyResetSC2DataInfoCache cleanIfDefined cleanAllCacheAfterModLoadEnd
       getModLoader rootOf captureOf initialized recaptured refreshed
       set_document set_nextNodeId set_heap set_originSC2DataInfoCache
       set_cSC2DataInfoAfterPatchCache set_startInitOk set_modLoader
       set_conflictResult set_events set_modLoaderCreated
       document nextNodeId heap originSC2DataInfoCache cSC2DataInfoAfterPatchCache
       startInitOk modLoader conflictResult events modLoaderCreated fst snd].

(** The same, with the equation of a value the code branches on. *)
Ltac run_manager_with H :=
  unfold rootOf in H; cbn [document] in H;
  repeat (progress (run_manager; rewrite ?H)).

Lemma lookup_alloc {A} (l : list A) (x : A) : (l ++ [x]) !! length l = Some x.
Proof. now rewrite list_lookup_middle. Qed.

Lemma lookup_snoc_eq {A} (l : list A) (x : A) (n : nat) :
  n = length l -> (l ++ [x]) !! n = Some x.
Proof. intros ->. apply lookup_alloc. Qed.

Lemma lookup_snoc_lt {A} (l : list A) (x : A) (n : nat) :
  (n < length l)%nat -> (l ++ [x]) !! n = l !! n.
Proof. intros H. now apply lookup_app_l. Qed.

(** Arithmetic on the sizes of a store that has grown. *)
Ltac store_size := rewrite ?length_app; cbn [length]; lia.

Section Caches.

Variable env : Imports.

Lemma rootElements_run tag st root :
  rootOf st = Some root ->
  rootElements tag st = (Ok (getElementsByTagName root tag), st).
Proof.
  intros Hroot. destruct st. run_manager_with Hroot. reflexivity.
Qed.

Lemma rootElements_no_root tag st :
  rootOf st = None -> rootElements tag st = (Throw undefinedRootError, st).
Proof.
  intros Hroot. destruct st. run_manager_with Hroot. reflexivity.
Qed.

Lemma captureFromNow_run st root :
  rootOf st = Some root ->
  captureFromNow env st
  = (Ok (length (heap st)), set_heap (heap st ++ [captureOf env root]) st).
Proof.
  intros Hroot. destruct st. run_manager_with Hroot. reflexivity.
Qed.

Lemma captureFromNow_no_root st :
  rootOf st = None -> captureFromNow env st = (Throw undefinedRootError, st).
Proof.
  intros Hroot. destruct st. run_manager_with Hroot. reflexivity.
Qed.

Lemma initSC2DataInfoCache_run st root :
  rootOf st = Some root ->
  initSC2DataInfoCache env st = (Ok tt, initialized env root st).
Proof.
  intros Hroot. destruct st as [doc next h [o|] c started loader conflicts evs created];
    run_manager_with Hroot; reflexivity.
Qed.

(** With an origin snapshot in place the tree is not read at all. *)
Lemma initSC2DataInfoCache_keeps st r :
  originSC2DataInfoCache st = Some r ->
  initSC2DataInfoCache env st = (Ok tt, st).
Proof.
  intros Ho. destruct st. cbn in Ho. subst. run_manager. reflexivity.
Qed.

Lemma initSC2DataInfoCache_no_root st :
  rootOf st = None -> originSC2DataInfoCache st = None ->
  initSC2DataInfoCache env st = (Throw undefinedRootError, st).
Proof.
  intros Hroot Ho. destruct st. cbn in Ho. subst.
  run_manager_with Hroot. reflexivity.
Qed.

Lemma getSC2DataInfoAfterPatch_cached st o r :
  originSC2DataInfoCache st = Some o ->
  cSC2DataInfoAfterPatchCache st = Some r ->
  getSC2DataInfoAfterPatch env st = (Ok r, st).
Proof.
  intros Ho Hc. destruct st. cbn in Ho, Hc. subst. run_manager. reflexivity.
Qed.

Lemma getSC2DataInfoAfterPatch_capture st root :
  rootOf st = Some root ->
  cSC2DataInfoAfterPatchCache st = None ->
  getSC2DataInfoAfterPatch env st
  = (Ok (length (heap (initialized env root st))),
     recaptured env root (initialized env root st)).
Proof.
  intros Hroot Hc.
  destruct st as [doc next h [o|] c started loader conflicts evs created];
    cbn in Hc; subst; run_manager_with Hroot; rewrite lookup_alloc; reflexivity.
Qed.

Lemma flushAfterPatchCache_run st root :
  rootOf st = Some root ->
  flushAfterPatchCache env st = (Ok tt, refreshed env root st).
Proof.
  intros Hroot.
  destruct st as [doc next h [o|] c started loader conflicts evs created];
    run_manager_with Hroot; rewrite lookup_alloc; reflexivity.
Qed.

Lemma flushAfterPatchCache_no_root st :
  rootOf st = None -> exists e st', flushAfterPatchCache env st = (Throw e, st').
Proof.
  intros Hroot.
  destruct st as [doc next h [o|] c started loader conflicts evs created];
    run_manager_with Hroot; eexists _, _; reflexivity.
Qed.

End Caches.

(** ** [patchModToGame]: merge, then transforms *)

Ltac run_manager_rw H :=
  unfold rootOf in H; cbn [document] in H;
  repeat (progress (run_manager; rewrite ?H, ?lookup_alloc)).

Section PatchMerge.

Variable env : Imports.

(** The merge phase: the after-patch snapshot is captured anew and
    stays behind [baseline]; the merge target is another object, the
    clone, which ends up holding the merge of the mods onto the clone. *)
Lemma patchModToGame_merge_run st root :
  rootOf st = Some root ->
  exists baseline target st1,
    patchModToGame_merge env st = (Ok target, st1)
    /\ cSC2DataInfoAfterPatchCache st1 = Some baseline
    /\ heap st1 !! baseline = Some (captureOf env root)
    /\ target <> baseline
    /\ heap st1 !! target
       = Some (mergedOnto env (captureOf env root) (modLoader st))
    /\ modLoader st1 = modLoader st
    /\ document st1 = document st
    /\ startInitOk st1 = startInitOk st
    /\ modLoaderCreated st1 = true.
Proof.
  intros Hroot.
  destruct st as [doc next h [o|] c started loader conflicts evs [|]].
  all: eexists _, _, _.
  all: unfold patchModToGame_merge, mergedOnto, captureOf; run_manager_rw Hroot.
  all: split; [reflexivity|].
  all: cbn [cSC2DataInfoAfterPatchCache heap modLoader document startInitOk
            modLoaderCreated].
  all: split; [reflexivity|].
  all: split; [rewrite list_lookup_alter_ne by store_size;
               rewrite ?lookup_snoc_lt by store_size;
               apply lookup_snoc_eq; store_size|].
  all: split; [store_size|].
  all: split; [|repeat split].
  all: rewrite list_lookup_alter_eq, lookup_alloc; reflexivity.
Qed.

(** C1: on a document that has a story-data root, [patchModToGame]
    first captures the after-patch baseline anew and computes
    [normalMerge] seeded with the empty snapshot over the snapshots of
    the mods in load order, then folds that onto a clone of the
    baseline with [replaceMerge], the baseline object being another
    object than the merge target and left as captured, then applies
    the patchers of the mods, in load order and declared order, to the
    merge target, and only then goes on to build and swap the nodes. *)
Theorem patchModToGame_merge_then_transforms (st : SC2DataManager) (root : Node) :
  rootOf st = Some root ->
  exists baseline target st1 st2,
    patchModToGame_merge env st = (Ok target, st1)
    /\ cSC2DataInfoAfterPatchCache st1 = Some baseline
    /\ heap st1 !! baseline = Some (captureOf env root)
    /\ target <> baseline
    /\ heap st1 !! target
       = Some (replaceMergeSC2DataInfoCache env
                 (cloneSC2DataInfo env (captureOf env root))
                 (normalMergeSC2DataInfoCache env (newSC2DataInfo "EmptyMod")
                    (map cache
                       (omap (fun T => modCache (modLoader st) !! T)
                          (modOrder (modLoader st))))))
    /\ applyReplacePatcher target st1 = (Ok tt, st2)
    /\ heap st2 !! target
       = Some (afterPatchSteps (patchSteps (modLoader st))
                 (mergedOnto env (captureOf env root) (modLoader st)))
    /\ heap st2 !! baseline = Some (captureOf env root)
    /\ cSC2DataInfoAfterPatchCache st2 = Some baseline
    /\ patchModToGame env st
       = (patchModToGame_swap target ;;; flushAfterPatchCache env ;;;
          emit PatchModToGame_end) st2.
Proof.
  intros Hroot.
  destruct (patchModToGame_merge_run st root Hroot)
    as (baseline & target & st1 & Hmerge & Hcache & Hbase & Hne & Htarget & Hloader
        & _ & _ & Hcreated).
  exists baseline, target, st1. eexists.
  split; [exact Hmerge|]. split; [exact Hcache|]. split; [exact Hbase|].
  split; [exact Hne|]. split; [exact Htarget|].
  pose proof (applyReplacePatcher_run target st1 _ Htarget) as Happly.
  rewrite Hloader, (withModLoader_of_created _ Hcreated) in Happly.
  split; [exact Happly|].
  split; [now apply (patched_lookup _ _ _ _ _ Htarget)|].
  split; [unfold patched; cbn [heap set_events set_heap];
          now rewrite list_lookup_insert_ne|].
  split; [exact Hcache|].
  unfold patchModToGame. rewrite bind_run, Hmerge, bind_run, Happly. reflexivity.
Qed.

End PatchMerge.

Lemma patchModToGame_merge_then_transforms_witness :
  exists baseline target st1 st2,
    patchModToGame_merge exampleImports exampleManager = (Ok target, st1)
    /\ cSC2DataInfoAfterPatchCache st1 = Some baseline
    /\ heap st1 !! baseline = Some (captureOf exampleImports exampleStoryData)
    /\ target <> baseline
    /\ heap st1 !! target
       = Some (replaceMergeSC2DataInfoCache exampleImports
                 (cloneSC2DataInfo exampleImports
                    (captureOf exampleImports exampleStoryData))
                 (normalMergeSC2DataInfoCache exampleImports
                    (newSC2DataInfo "EmptyMod")
                    (map cache
                       (omap (fun T => modCache (modLoader exampleManager) !! T)
                          (modOrder (modLoader exampleManager))))))
    /\ applyReplacePatcher target st1 = (Ok tt, st2)
    /\ heap st2 !! target
       = Some (afterPatchSteps (patchSteps (modLoader exampleManager))
                 (mergedOnto exampleImports
                    (captureOf exampleImports exampleStoryData)
                    (modLoader exampleManager)))
    /\ heap st2 !! baseline = Some (captureOf exampleImports exampleStoryData)
    /\ cSC2DataInfoAfterPatchCache st2 = Some baseline
    /\ patchModToGame exampleImports exampleManager
       = (patchModToGame_swap target ;;; flushAfterPatchCache exampleImports ;;;
          emit PatchModToGame_end) st2.
Proof.
  apply (patchModToGame_merge_then_transforms exampleImports exampleManager
           exampleStoryData).
  reflexivity.
Defined.

(** ** What every method keeps *)

Lemma startInitStarted_Stable : Stable startInitStarted (fun _ => True).
Proof. split; intros; try exact I; destruct s; assumption || reflexivity. Qed.

Lemma originIs_Stable r v : Stable (originIs r v) (fun t => t <> r).
Proof.
  split.
  1-7: intros s ? H; destruct s; exact H.
  - intros s H. destruct s. exact H.
  - intros s x [Ho Hv]. destruct s. split; [exact Ho|].
    cbn in *. now apply lookup_app_l_Some.
  - intros s [_ Hv] Heq. apply lookup_lt_Some in Hv. lia.
  - intros s t f [Ho Hv] Ht. destruct s. split; [exact Ho|].
    cbn in *. now rewrite list_lookup_alter_ne.
  - intros s r' [Ho _] Hnone. congruence.
Qed.

(** Composition of a computation whose result satisfies a fact that
    does not depend on the state. *)
Lemma preserves_bind_fact {S A B} (I : S -> Prop) (fact : A -> Prop)
    (m : M S A) (k : A -> M S B) :
  hoare I m (fun a s => I s /\ fact a) I ->
  (forall a, fact a -> preserves I (k a)) ->
  preserves I (bind m k).
Proof.
  intros Hm Hk. apply hoare_bind with (Mid := fun a s => I s /\ fact a);
    [exact Hm|].
  intros a s [Hs Ha]. now apply Hk.
Qed.

(** Taking a computation apart down to the writes it makes. *)
Ltac preserves_step :=
  first
    [ apply preserves_ret | apply preserves_throw | apply preserves_gets
    | apply preserves_liftResult
    | apply preserves_bind; [|intros ?]
    | apply preserves_try_catch; [|intros ?]
    | apply preserves_forEach; intros ?
    | apply preserves_mapM; intros ?
    | match goal with
      | |- preserves _ (match ?x with _ => _ end) => destruct x
      end ].

Section Stability.

Variable env : Imports.
Variable P : SC2DataManager -> Prop.
Variable editable : nat -> Prop.
Hypothesis HP : Stable P editable.

Lemma emit_preserves e : preserves P (emit e).
Proof. apply preserves_modify. intros s Hs. now apply (stable_events _ _ HP). Qed.

Lemma getModLoader_preserves : preserves P getModLoader.
Proof.
  unfold getModLoader.
  repeat first [apply emit_preserves | preserves_step].
  apply preserves_modify. intros s Hs. now apply (stable_modLoaderCreated _ _ HP).
Qed.

Lemma alloc_preserves v : hoare P (alloc v) (fun r s => P s /\ editable r) P.
Proof.
  intros s Hs. unfold alloc.
  split; [now apply (stable_alloc _ _ HP) | now apply (stable_fresh _ _ HP)].
Qed.

Lemma alloc_preserves' v : preserves P (alloc v).
Proof. intros s Hs. now apply (alloc_preserves v s Hs). Qed.

Lemma deref_preserves r : preserves P (deref r).
Proof. intros s Hs. unfold deref. now destruct (heap s !! r). Qed.

Lemma update_preserves t f : editable t -> preserves P (update t f).
Proof.
  intros Ht. apply preserves_modify. intros s Hs. now apply (stable_update _ _ HP).
Qed.

Lemma rootNode_preserves : preserves P rootNode.
Proof. apply preserves_gets. Qed.

Lemma rootElements_preserves tag : preserves P (rootElements tag).
Proof. unfold rootElements. repeat preserves_step. Qed.

Lemma onRootNode_preserves method f : preserves P (onRootNode method f).
Proof.
  unfold onRootNode. repeat preserves_step.
  apply preserves_modify. intros s Hs. now apply (stable_document _ _ HP).
Qed.

Lemma createElement_preserves tag : preserves P (createElement tag).
Proof. intros s Hs. now apply (stable_nextNodeId _ _ HP). Qed.

Lemma assignTextContent_preserves text n : preserves P (assignTextContent text n).
Proof. intros s Hs. now apply (stable_nextNodeId _ _ HP). Qed.

Lemma checkSC2Data_preserves : preserves P checkSC2Data.
Proof.
  unfold checkSC2Data. preserves_step. preserves_step.
  destruct a as [|rNode [|r2 rNodes]];
    repeat first [preserves_step | apply emit_preserves].
Qed.

Lemma captureFromNow_preserves : preserves P (captureFromNow env).
Proof.
  unfold captureFromNow, styleNode, scriptNode, passageDataNodeList.
  repeat first [apply rootElements_preserves | apply alloc_preserves' | preserves_step].
Qed.

Lemma initSC2DataInfoCache_preserves : preserves P (initSC2DataInfoCache env).
Proof.
  intros s Hs. unfold initSC2DataInfoCache. rewrite bind_run. unfold gets.
  destruct (originSC2DataInfoCache s) as [o|] eqn:Ho; [exact Hs|].
  rewrite bind_run. pose proof (captureFromNow_preserves s Hs) as Hc.
  destruct (captureFromNow env s) as [[r|e] s1] eqn:Ec; [|exact Hc].
  unfold modify. apply (stable_origin _ _ HP); [exact Hc|].
  destruct (rootOf s) as [root|] eqn:Hroot.
  - rewrite (captureFromNow_run env s root Hroot) in Ec.
    injection Ec as _ <-. now destruct s.
  - rewrite (captureFromNow_no_root env s Hroot) in Ec. discriminate.
Qed.

Lemma getSC2DataInfoCache_preserves : preserves P (getSC2DataInfoCache env).
Proof.
  unfold getSC2DataInfoCache.
  repeat first [apply initSC2DataInfoCache_preserves | preserves_step].
Qed.

Lemma getSC2DataInfoAfterPatch_preserves : preserves P (getSC2DataInfoAfterPatch env).
Proof.
  unfold getSC2DataInfoAfterPatch.
  repeat first [apply initSC2DataInfoCache_preserves | apply captureFromNow_preserves
               | apply deref_preserves | apply emit_preserves | preserves_step].
  apply preserves_modify. intros s Hs. now apply (stable_afterPatch _ _ HP).
Qed.

Lemma flushAfterPatchCache_preserves : preserves P (flushAfterPatchCache env).
Proof.
  unfold flushAfterPatchCache.
  repeat first [apply getSC2DataInfoAfterPatch_preserves | preserves_step].
  apply preserves_modify. intros s Hs. now apply (stable_afterPatch _ _ HP).
Qed.

Lemma earlyResetSC2DataInfoCache_preserves :
  preserves P (earlyResetSC2DataInfoCache env).
Proof.
  unfold earlyResetSC2DataInfoCache.
  repeat first [apply initSC2DataInfoCache_preserves
               | apply flushAfterPatchCache_preserves | preserves_step].
Qed.

Lemma callReplacePatcher_preserves rp target :
  editable target -> preserves P (callReplacePatcher rp target).
Proof.
  intros Ht. unfold callReplacePatcher.
  repeat first [apply deref_preserves | apply update_preserves; assumption
               | preserves_step].
Qed.

Lemma applyOneReplacePatcher_preserves target modName rp :
  editable target -> preserves P (applyOneReplacePatcher target modName rp).
Proof.
  intros Ht. unfold applyOneReplacePatcher.
  repeat first [apply emit_preserves | apply callReplacePatcher_preserves; assumption
               | preserves_step].
Qed.

Lemma applyReplacePatcher_preserves target :
  editable target -> preserves P (applyReplacePatcher target).
Proof.
  intros Ht. unfold applyReplacePatcher.
  repeat first [apply emit_preserves | apply getModLoader_preserves
               | apply applyOneReplacePatcher_preserves; assumption
               | preserves_step].
Qed.

Lemma makePassageNode_preserves T : preserves P (makePassageNode T).
Proof.
  unfold makePassageNode.
  repeat first [apply createElement_preserves | apply assignTextContent_preserves
               | preserves_step].
Qed.

Lemma makeStyleNode_preserves sc : preserves P (makeStyleNode sc).
Proof.
  unfold makeStyleNode.
  repeat first [apply createElement_preserves | apply assignTextContent_preserves
               | apply deref_preserves | preserves_step].
Qed.

Lemma makeScriptNode_preserves sc : editable sc -> preserves P (makeScriptNode sc).
Proof.
  intros Hsc. unfold makeScriptNode.
  repeat first [apply createElement_preserves | apply assignTextContent_preserves
               | apply deref_preserves | apply update_preserves; assumption
               | preserves_step].
Qed.

Lemma patchModToGame_swap_preserves target :
  editable target -> preserves P (patchModToGame_swap target).
Proof.
  intros Ht. unfold patchModToGame_swap, rootRemoveChild, rootAppendChild,
    styleNode, scriptNode, passageDataNodeList.
  repeat first [apply makeScriptNode_preserves; assumption
               | apply makeStyleNode_preserves | apply makePassageNode_preserves
               | apply deref_preserves | apply rootNode_preserves
               | apply rootElements_preserves | apply onRootNode_preserves
               | preserves_step].
Qed.

(** The merge phase keeps the property and returns a reference that may
    be edited in place: the clone it has just made. *)
Lemma patchModToGame_merge_preserves :
  hoare P (patchModToGame_merge env) (fun target s => P s /\ editable target) P.
Proof.
  unfold patchModToGame_merge.
  apply hoare_bind with (Mid := fun _ => P); [apply emit_preserves|intros _].
  apply hoare_bind with (Mid := fun _ => P); [apply getModLoader_preserves|intros loader].
  apply hoare_bind with (Mid := fun _ => P); [apply getModLoader_preserves|intros _].
  apply hoare_bind with (Mid := fun _ => P);
    [apply preserves_modify; intros s Hs; now apply (stable_afterPatch _ _ HP)|intros _].
  apply hoare_bind with (Mid := fun _ => P);
    [apply flushAfterPatchCache_preserves|intros _].
  apply hoare_bind with (Mid := fun _ => P);
    [apply getSC2DataInfoAfterPatch_preserves|intros baseline].
  apply hoare_bind with (Mid := fun _ => P); [apply emit_preserves|intros _].
  apply hoare_bind with (Mid := fun _ => P); [apply emit_preserves|intros _].
  apply hoare_bind with (Mid := fun _ => P); [apply deref_preserves|intros base].
  apply hoare_bind with (Mid := fun target s => P s /\ editable target);
    [apply alloc_preserves|intros clone].
  intros s [Hs Hclone]. rewrite bind_run.
  pose proof (update_preserves clone
    (fun b => replaceMergeSC2DataInfoCache env b
       (normalMergeSC2DataInfoCache env (newSC2DataInfo "EmptyMod")
          (modCachesInOrder loader))) Hclone s Hs) as Hu.
  destruct (update _ _ s) as [[[]|e] s1]; [|exact Hu].
  split; assumption.
Qed.

Lemma patchModToGame_preserves : preserves P (patchModToGame env).
Proof.
  unfold patchModToGame.
  apply preserves_bind_fact with (fact := editable);
    [apply patchModToGame_merge_preserves|intros target Ht].
  repeat first [apply applyReplacePatcher_preserves; assumption
               | apply patchModToGame_swap_preserves; assumption
               | apply flushAfterPatchCache_preserves | apply emit_preserves
               | preserves_step].
Qed.

Lemma startInit_enter_preserves : preserves P (startInit_enter env).
Proof.
  unfold startInit_enter.
  repeat first [apply emit_preserves | apply initSC2DataInfoCache_preserves
               | apply getModLoader_preserves | preserves_step].
  apply preserves_modify. intros s Hs. now apply (stable_startInitOk _ _ HP).
Qed.

Lemma startInit_resume_preserves : preserves P (startInit_resume env).
Proof.
  unfold startInit_resume.
  repeat first [apply emit_preserves | apply patchModToGame_preserves
               | apply getModLoader_preserves | preserves_step].
  - apply preserves_modify. intros s Hs. now apply (stable_modLoader _ _ HP).
  - apply preserves_modify. intros s Hs. now apply (stable_conflictResult _ _ HP).
Qed.

Lemma startInit_preserves : preserves P (startInit env).
Proof.
  unfold startInit.
  repeat first [apply startInit_enter_preserves | apply startInit_resume_preserves
               | preserves_step].
Qed.

(** Every call but the shutdown clean-up keeps the property, a call of
    [applyReplacePatcher] provided its target may be edited. *)
Lemma runCall_preserves c :
  c <> CallCleanAllCacheAfterModLoadEnd ->
  (forall target, c = CallApplyReplacePatcher target -> editable target) ->
  preserves P (runCall env c).
Proof.
  intros Hc Ht. destruct c; cbn [runCall]; try contradiction.
  all: repeat first
    [ apply checkSC2Data_preserves | apply captureFromNow_preserves
    | apply earlyResetSC2DataInfoCache_preserves
    | apply initSC2DataInfoCache_preserves | apply getSC2DataInfoCache_preserves
    | apply getSC2DataInfoAfterPatch_preserves | apply flushAfterPatchCache_preserves
    | apply applyReplacePatcher_preserves; apply Ht; reflexivity
    | apply patchModToGame_preserves | apply startInit_preserves
    | apply startInit_resume_preserves | preserves_step ].
Qed.

End Stability.

(** The shutdown clean-up leaves the guard of [startInit] alone. *)
Lemma cleanAllCacheAfterModLoadEnd_keeps_guard env :
  preserves startInitStarted (cleanAllCacheAfterModLoadEnd env).
Proof.
  intros s Hs. destruct s as [doc next h [o|] [c|] started loader conflicts evs created];
    exact Hs.
Qed.

Lemma runCall_keeps_guard env c : preserves startInitStarted (runCall env c).
Proof.
  assert (Hc : c = CallCleanAllCacheAfterModLoadEnd
               \/ c <> CallCleanAllCacheAfterModLoadEnd)
    by (destruct c; (now left) || (right; discriminate)).
  destruct Hc as [->|Hc].
  - apply cleanAllCacheAfterModLoadEnd_keeps_guard.
  - apply (runCall_preserves env _ _ startInitStarted_Stable); [exact Hc|].
    intros; exact I.
Qed.

Lemma afterCalls_keeps_guard env calls st :
  startInitStarted st -> startInitStarted (afterCalls env calls st).
Proof.
  revert st. induction calls as [|c calls IH]; intros st Hst; [exact Hst|].
  apply IH. now apply preserves_snd; [apply runCall_keeps_guard|].
Qed.

(** ** The guard of [startInit] *)

Lemma startInit_already_started env st :
  startInitOk st = true ->
  startInit env st
  = (Ok tt,
     set_events
       (events st ++
        [ConsoleLog "ModLoader ====== SC2DataManager startInit() already start" []])
       st).
Proof.
  intros H. destruct st. cbn in H. subst. reflexivity.
Qed.

Lemma startInit_enter_sets_guard env st :
  startInitOk st = false -> startInitOk (snd (startInit_enter env st)) = true.
Proof.
  intros H. unfold startInit_enter. rewrite bind_run. unfold gets. rewrite H.
  rewrite bind_run. unfold modify at 1.
  apply (preserves_snd startInitStarted); [|now destruct st].
  repeat first
    [ apply (emit_preserves _ _ startInitStarted_Stable)
    | apply (initSC2DataInfoCache_preserves env _ _ startInitStarted_Stable)
    | preserves_step ].
Qed.

(** C6, as the code has it: the guard sits in [startInit], the start-up
    entry point that calls [patchModToGame]. Once an invocation of
    [startInit] has passed the guard, whatever calls reach the manager
    while that invocation is suspended or after it has ended, the rest
    of the invocation itself among them, a second invocation of
    [startInit] returns at once: it sends one console entry and changes
    nothing else, neither the store, nor the caches, nor the
    document. *)
Theorem startInit_second_invocation_is_rejected (env : Imports)
    (st : SC2DataManager) (calls : list Call) :
  startInitOk st = false ->
  let entered := snd (startInit_enter env st) in
  let later := afterCalls env calls entered in
  startInitOk entered = true
  /\ startInitOk later = true
  /\ startInit env later
     = (Ok tt,
        set_events
          (events later ++
           [ConsoleLog "ModLoader ====== SC2DataManager startInit() already start" []])
          later).
Proof.
  intros H entered later.
  assert (He : startInitOk entered = true) by now apply startInit_enter_sets_guard.
  assert (Hl : startInitOk later = true)
    by now apply (afterCalls_keeps_guard env calls entered).
  split; [exact He|]. split; [exact Hl|].
  now apply startInit_already_started.
Qed.

Lemma startInit_second_invocation_is_rejected_witness :
  let entered := snd (startInit_enter exampleImports exampleManager) in
  let later :=
    afterCalls exampleImports
      [CallGetSC2DataInfoAfterPatch; CallStartInitResume;
       CallCleanAllCacheAfterModLoadEnd] entered in
  startInitOk entered = true
  /\ startInitOk later = true
  /\ startInit exampleImports later
     = (Ok tt,
        set_events
          (events later ++
           [ConsoleLog "ModLoader ====== SC2DataManager startInit() already start" []])
          later).
Proof.
  apply (startInit_second_invocation_is_rejected exampleImports exampleManager
           [CallGetSC2DataInfoAfterPatch; CallStartInitResume;
            CallCleanAllCacheAfterModLoadEnd]).
  reflexivity.
Defined.

(** [patchModToGame] itself reads no guard: called on a manager whose
    [startInit] is under way it patches the document all the same. *)
Example patchModToGame_is_not_guarded :
  let st := set_startInitOk true exampleManager in
  let '(r, st') := patchModToGame exampleImports st in
  r = Ok tt /\ document st' <> document st.
Proof. vm_compute. split; [reflexivity | discriminate]. Qed.

(** C6, as the claim words it, fails for [patchModToGame]: with a first
    invocation suspended at its first [await], the one on
    [PatchModToGame_start], a second invocation is not rejected. It
    runs to its end: it merges the mods, runs their patchers and
    replaces the nodes of the render tree. *)
Lemma patchModToGame_second_invocation_counterexample :
  let inFlight := snd (emit PatchModToGame_start exampleManager) in
  let '(r, st') := patchModToGame exampleImports inFlight in
  r = Ok tt
  /\ document st' <> document inFlight
  /\ heap st' <> heap inFlight
  /\ In (ReplacePatcher_start "modA" "broken.json") (events st').
Proof.
  vm_compute.
  split; [reflexivity|]. split; [discriminate|]. split; [discriminate|].
  repeat first [left; reflexivity | right].
Qed.

(** ** The origin snapshot *)

Lemma afterCalls_keeps_origin env r v calls st :
  Forall (keepsOrigin r) calls ->
  originIs r v st -> originIs r v (afterCalls env calls st).
Proof.
  intros Hcalls. revert st.
  induction Hcalls as [|c calls [Hc Ht] _ IH]; intros st Hst; [exact Hst|].
  apply IH. apply preserves_snd; [|exact Hst].
  now apply (runCall_preserves env _ _ (originIs_Stable r v)).
Qed.

(** C7: once the origin snapshot is there, [getSC2DataInfoCache] returns
    that very object and [initSC2DataInfoCache] does nothing, neither of
    them reading the tree; [earlyResetSC2DataInfoCache] and every
    sequence of calls other than the shutdown clean-up leave the same
    object in place with its content; [cleanAllCacheAfterModLoadEnd]
    drops it; and the first access on a manager that has none captures
    it, from the render tree as it is then. *)
Theorem origin_snapshot_is_captured_once (env : Imports) (st : SC2DataManager)
    (r : nat) (v : SC2DataInfo) :
  originSC2DataInfoCache st = Some r ->
  heap st !! r = Some v ->
  getSC2DataInfoCache env st = (Ok (Some r), st)
  /\ initSC2DataInfoCache env st = (Ok tt, st)
  /\ originIs r v (snd (earlyResetSC2DataInfoCache env st))
  /\ (forall calls,
        Forall (keepsOrigin r) calls -> originIs r v (afterCalls env calls st))
  /\ originSC2DataInfoCache (snd (cleanAllCacheAfterModLoadEnd env st)) = None
  /\ (forall st0 root,
        originSC2DataInfoCache st0 = None ->
        rootOf st0 = Some root ->
        getSC2DataInfoCache env st0
        = (Ok (Some (length (heap st0))),
           set_originSC2DataInfoCache (Some (length (heap st0)))
             (set_heap (heap st0 ++ [captureOf env root]) st0))).
Proof.
  intros Ho Hv.
  split.
  { unfold getSC2DataInfoCache.
    rewrite bind_run, (initSC2DataInfoCache_keeps env st r Ho). unfold gets.
    now rewrite Ho. }
  split; [now apply (initSC2DataInfoCache_keeps env st r)|].
  split.
  { apply preserves_snd; [|now split].
    apply (earlyResetSC2DataInfoCache_preserves env _ _ (originIs_Stable r v)). }
  split; [intros calls Hcalls; now apply afterCalls_keeps_origin|].
  split.
  { destruct st as [doc next h o [c|] started loader conflicts evs created];
      cbn in Ho; subst; reflexivity. }
  intros st0 root Hnone Hroot.
  unfold getSC2DataInfoCache.
  rewrite bind_run, (initSC2DataInfoCache_run env st0 root Hroot).
  unfold gets, initialized. rewrite Hnone. reflexivity.
Qed.

Lemma origin_snapshot_is_captured_once_witness :
  let st := exampleManagerInitialized in
  let r := 0%nat in
  let v := captureOf exampleImports exampleStoryData in
  getSC2DataInfoCache exampleImports st = (Ok (Some r), st)
  /\ initSC2DataInfoCache exampleImports st = (Ok tt, st)
  /\ originIs r v (snd (earlyResetSC2DataInfoCache exampleImports st))
  /\ (forall calls,
        Forall (keepsOrigin r) calls ->
        originIs r v (afterCalls exampleImports calls st))
  /\ originSC2DataInfoCache (snd (cleanAllCacheAfterModLoadEnd exampleImports st))
     = None
  /\ (forall st0 root,
        originSC2DataInfoCache st0 = None ->
        rootOf st0 = Some root ->
        getSC2DataInfoCache exampleImports st0
        = (Ok (Some (length (heap st0))),
           set_originSC2DataInfoCache (Some (length (heap st0)))
             (set_heap (heap st0 ++ [captureOf exampleImports root]) st0))).
Proof.
  apply (origin_snapshot_is_captured_once exampleImports exampleManagerInitialized
           0%nat (captureOf exampleImports exampleStoryData)).
  - reflexivity.
  - reflexivity.
Defined.

(** ** The after-patch snapshot *)

Lemma refreshed_facts env root s :
  exists r o,
    cSC2DataInfoAfterPatchCache (refreshed env root s) = Some r
    /\ heap (refreshed env root s) !! r = Some (captureOf env root)
    /\ originSC2DataInfoCache (refreshed env root s) = Some o
    /\ document (refreshed env root s) = document s.
Proof.
  destruct s as [doc next h [o|] c started loader conflicts evs created];
    unfold refreshed, recaptured, initialized;
    cbn [originSC2DataInfoCache set_cSC2DataInfoAfterPatchCache set_heap set_events
         set_originSC2DataInfoCache heap cSC2DataInfoAfterPatchCache document events];
    eexists _, _; (split; [reflexivity|]); (split; [apply lookup_alloc|]);
    split; reflexivity.
Qed.

(** C4: when [patchModToGame] returns, the after-patch cache holds a
    snapshot captured from the render tree as the call leaves it, and a
    later [getSC2DataInfoAfterPatch] returns that object without reading
    the tree again; in general [getSC2DataInfoAfterPatch] captures the
    snapshot from the current tree when the cache is empty, and
    returns the cached object when it is not. *)
Theorem patchModToGame_recomputes_after_patch_cache (env : Imports)
    (st st' : SC2DataManager) :
  patchModToGame env st = (Ok tt, st') ->
  (exists root r,
     rootOf st' = Some root
     /\ cSC2DataInfoAfterPatchCache st' = Some r
     /\ heap st' !! r = Some (captureOf env root)
     /\ getSC2DataInfoAfterPatch env st' = (Ok r, st'))
  /\ (forall s root,
        rootOf s = Some root ->
        cSC2DataInfoAfterPatchCache s = None ->
        exists r s',
          getSC2DataInfoAfterPatch env s = (Ok r, s')
          /\ cSC2DataInfoAfterPatchCache s' = Some r
          /\ heap s' !! r = Some (captureOf env root)
          /\ document s' = document s)
  /\ (forall s o r,
        originSC2DataInfoCache s = Some o ->
        cSC2DataInfoAfterPatchCache s = Some r ->
        getSC2DataInfoAfterPatch env s = (Ok r, s)).
Proof.
  intros Hpatch. split; [|split].
  - unfold patchModToGame in Hpatch.
    apply bind_Ok_inv in Hpatch as (target & s1 & _ & Hpatch).
    apply bind_Ok_inv in Hpatch as ([] & s2 & _ & Hpatch).
    apply bind_Ok_inv in Hpatch as ([] & s3 & _ & Hpatch).
    apply bind_Ok_inv in Hpatch as ([] & s4 & Hflush & Hend).
    destruct (rootOf s3) as [root|] eqn:Hroot.
    2: { destruct (flushAfterPatchCache_no_root env s3 Hroot) as (e & s' & Hthrow).
         congruence. }
    rewrite (flushAfterPatchCache_run env s3 root Hroot) in Hflush.
    injection Hflush as <-. injection Hend as <-.
    destruct (refreshed_facts env root s3) as (r & o & Hc & Hh & Ho & Hd).
    exists root, r.
    assert (Hroot' : rootOf (set_events
              (events (refreshed env root s3) ++ [PatchModToGame_end])
              (refreshed env root s3)) = Some root).
    { unfold rootOf in *. cbn [document set_events]. now rewrite Hd. }
    split; [exact Hroot'|]. split; [exact Hc|]. split; [exact Hh|].
    now apply (getSC2DataInfoAfterPatch_cached env _ o r).
  - intros s root Hroot Hc.
    rewrite (getSC2DataInfoAfterPatch_capture env s root Hroot Hc).
    eexists _, _. split; [reflexivity|].
    destruct s as [doc next h [o|] c started loader conflicts evs created];
      unfold recaptured, initialized;
      cbn [originSC2DataInfoCache set_cSC2DataInfoAfterPatchCache set_heap set_events
           set_originSC2DataInfoCache heap cSC2DataInfoAfterPatchCache document events];
      (split; [reflexivity|]); (split; [apply lookup_alloc|]); reflexivity.
  - intros s o r Ho Hc. now apply (getSC2DataInfoAfterPatch_cached env s o r).
Qed.

(** ** Building the new nodes *)

Lemma setAttribute_valid name value el :
  validAttributeLocalName name = true ->
  setAttribute name value el
  = Ok (mkNode (nid el) (nodeName el)
          (assocSet (toLowerCase name) value (attributes el))
          (nodeValue el) (childNodes el)).
Proof. intros H. unfold setAttribute. now rewrite H. Qed.

Ltac set_attributes :=
  repeat (rewrite setAttribute_valid by reflexivity;
          cbn [nid nodeName attributes nodeValue childNodes]).

Lemma makeStyleNode_run sc st v :
  heap st !! sc = Some v ->
  makeStyleNode sc st
  = (Ok (styleNodeOf (nextNodeId st) (styleFileItems v)),
     set_nextNodeId (S (S (nextNodeId st))) st).
Proof.
  intros Hv. destruct st as [doc next h origin afterPatch started loader conflicts evs created].
  cbn [heap] in Hv.
  unfold makeStyleNode, styleNodeOf, newElement.
  cbv [bind deref createElement assignTextContent liftResult heap nextNodeId
       set_nextNodeId document originSC2DataInfoCache cSC2DataInfoAfterPatchCache
       startInitOk modLoader conflictResult events].
  rewrite Hv. set_attributes. reflexivity.
Qed.

Lemma makeScriptNode_run sc st v :
  heap st !! sc = Some v ->
  makeScriptNode sc st
  = (Ok (scriptNodeOf (nextNodeId st) (sortScriptFileItems (scriptFileItems v))),
     set_nextNodeId (S (S (nextNodeId st)))
       (set_heap
          (<[sc := set_scriptFileItems (sortScriptFileItems (scriptFileItems v)) v]>
             (heap st)) st)).
Proof.
  intros Hv. destruct st as [doc next h origin afterPatch started loader conflicts evs created].
  cbn [heap] in Hv.
  unfold makeScriptNode, scriptNodeOf, newElement.
  cbv [bind deref update modify createElement assignTextContent liftResult heap
       nextNodeId set_nextNodeId set_heap document originSC2DataInfoCache
       cSC2DataInfoAfterPatchCache startInitOk modLoader conflictResult events].
  rewrite (list_alter_lookup _ _ _ _ Hv).
  rewrite list_lookup_insert_eq by (now apply lookup_lt_Some in Hv).
  set_attributes. reflexivity.
Qed.

Lemma assocSet_fresh {V} (k : string) (v : V) (l : list (string * V)) :
  ~ In k (map fst l) -> assocSet k v l = l ++ [(k, v)].
Proof.
  induction l as [|[k' w] l IH]; [reflexivity|].
  simpl. intros Hfresh. destruct (String.eqb_spec k' k); [tauto|].
  f_equal. apply IH. tauto.
Qed.

Lemma setAttribute_fresh name value el :
  validAttributeLocalName name = true ->
  toLowerCase name = name ->
  ~ In name (map fst (attributes el)) ->
  setAttribute name value el
  = Ok (mkNode (nid el) (nodeName el) (attributes el ++ [(name, value)])
          (nodeValue el) (childNodes el)).
Proof.
  intros Hvalid Hlower Hfresh.
  rewrite setAttribute_valid, Hlower by assumption.
  now rewrite assocSet_fresh.
Qed.

Lemma makePassageNode_run T st :
  makePassageNode T st
  = (Ok (passageNodeOf (nextNodeId st) T), set_nextNodeId (S (S (nextNodeId st))) st).
Proof.
  destruct st as [doc next h origin afterPatch started loader conflicts evs created].
  unfold makePassageNode, passageNodeOf, newElement, setAttributeIfTruthy,
    optionalAttribute.
  cbv [bind createElement assignTextContent liftResult nextNodeId set_nextNodeId
       document heap originSC2DataInfoCache cSC2DataInfoAfterPatchCache startInitOk
       modLoader conflictResult events].
  destruct (passage_id T) as [z|]; [destruct (0 <? z)|].
  all: destruct (passage_position T) as [pos|];
    [destruct (String.eqb pos EmptyString)|].
  all: destruct (passage_size T) as [sz|];
    [destruct (String.eqb sz EmptyString)|].
  all: repeat (rewrite setAttribute_fresh
                 by (first [reflexivity
                           | cbn [attributes map fst In app]; intuition discriminate]);
               cbn [nid nodeName attributes nodeValue childNodes app]).
  all: reflexivity.
Qed.

Lemma mapM_makePassageNode_run Ts st :
  mapM makePassageNode Ts st
  = (Ok (passageNodesFrom (nextNodeId st) Ts),
     set_nextNodeId (nextNodeId st + 2 * length Ts)%nat st).
Proof.
  revert st. induction Ts as [|T Ts IH]; intros st.
  - cbn. unfold ret. rewrite Nat.add_0_r. now destruct st.
  - cbn [mapM]. rewrite bind_run, makePassageNode_run, bind_run, IH.
    unfold ret. cbn [passageNodesFrom length nextNodeId set_nextNodeId].
    destruct st. unfold set_nextNodeId. cbn. do 3 f_equal. lia.
Qed.

(** ** Writing the root element back into the document *)

Lemma elementsSelf_nodeName tag n r :
  In r (elementsSelf tag n) -> nodeName r = tag.
Proof.
  induction n as [i nm ats v cs IH] using Node_ind. simpl.
  rewrite in_app_iff. intros [Hin | Hin].
  - destruct (String.eqb_spec nm tag) as [<-|]; [|contradiction].
    destruct Hin as [<-|[]]. reflexivity.
  - apply in_flat_map in Hin as (c & Hc & Hr).
    rewrite List.Forall_forall in IH. now apply (IH c Hc).
Qed.

Lemma getElementsByTagName_nodeName tag n r :
  In r (getElementsByTagName n tag) -> nodeName r = tag.
Proof.
  unfold getElementsByTagName. intros (c & _ & Hr)%in_flat_map.
  now apply (elementsSelf_nodeName tag c).
Qed.

Lemma replaceFirstSelf_unfold tag new i nm ats v cs :
  replaceFirstSelf tag new (mkNode i nm ats v cs)
  = if String.eqb nm tag then Some new
    else option_map (mkNode i nm ats v) (replaceFirstInList tag new cs).
Proof.
  cbn [replaceFirstSelf]. destruct (String.eqb nm tag); [reflexivity|].
  f_equal. induction cs as [|c cs IH]; [reflexivity|].
  cbn [replaceFirstInList]. destruct (replaceFirstSelf tag new c); [reflexivity|].
  now rewrite <- IH.
Qed.

Lemma elementsSelf_head_self tag n : nodeName n = tag -> head (elementsSelf tag n) = Some n.
Proof.
  destruct n as [i nm ats v cs]. simpl. intros ->. now rewrite String.eqb_refl.
Qed.

(** Replacing the first element named [tag] succeeds exactly when there
    is one, and the replacement is then the first element named [tag]. *)
Lemma replaceFirstSelf_spec tag new n :
  nodeName new = tag ->
  match elementsSelf tag n with
  | [] => replaceFirstSelf tag new n = None
  | _ :: _ =>
      exists n', replaceFirstSelf tag new n = Some n'
                 /\ head (elementsSelf tag n') = Some new
  end.
Proof.
  intros Hnew. induction n as [i nm ats v cs IH] using Node_ind.
  rewrite replaceFirstSelf_unfold. cbn [elementsSelf].
  destruct (String.eqb nm tag) eqn:Enm.
  - cbn. exists new. split; [reflexivity | now apply elementsSelf_head_self].
  - cbn [app].
    assert (Hlist :
      match flat_map (elementsSelf tag) cs with
      | [] => replaceFirstInList tag new cs = None
      | _ :: _ =>
          exists cs', replaceFirstInList tag new cs = Some cs'
                      /\ head (flat_map (elementsSelf tag) cs') = Some new
      end).
    { induction IH as [|c cs Hc _ IHcs]; [reflexivity|].
      cbn [flat_map replaceFirstInList].
      destruct (elementsSelf tag c) as [|r rest] eqn:Ec.
      - rewrite Hc. cbn [app].
        destruct (flat_map (elementsSelf tag) cs) as [|r' rest'].
        + now rewrite IHcs.
        + destruct IHcs as (cs' & -> & Hhead). exists (c :: cs').
          split; [reflexivity|]. cbn [flat_map]. now rewrite Ec.
      - destruct Hc as (c' & -> & Hhead). cbn [app]. exists (c' :: cs).
        split; [reflexivity|]. cbn [flat_map].
        destruct (elementsSelf tag c') as [|x xs]; [discriminate|].
        exact Hhead. }
    destruct (flat_map (elementsSelf tag) cs) as [|r rest].
    + now rewrite Hlist.
    + destruct Hlist as (cs' & -> & Hhead). eexists. split; [reflexivity|].
      cbn [elementsSelf]. rewrite Enm. exact Hhead.
Qed.

Lemma replaceFirstInList_spec tag new cs r rest :
  nodeName new = tag ->
  flat_map (elementsSelf tag) cs = r :: rest ->
  exists cs', replaceFirstInList tag new cs = Some cs'
              /\ head (flat_map (elementsSelf tag) cs') = Some new.
Proof.
  intros Hnew. revert r rest. induction cs as [|c cs IH]; intros r rest; [discriminate|].
  cbn [flat_map replaceFirstInList].
  pose proof (replaceFirstSelf_spec tag new c Hnew) as Hc.
  destruct (elementsSelf tag c) as [|x xs] eqn:Ec.
  - rewrite Hc. cbn [app]. intros Hcs.
    destruct (IH _ _ Hcs) as (cs' & -> & Hhead). exists (c :: cs').
    split; [reflexivity|]. cbn [flat_map]. now rewrite Ec.
  - intros _. destruct Hc as (c' & -> & Hhead). exists (c' :: cs).
    split; [reflexivity|]. cbn [flat_map].
    destruct (elementsSelf tag c') as [|y ys]; [discriminate|]. exact Hhead.
Qed.

(** After the write-back the [rootNode] getter yields the element that
    was written. *)
Lemma rootOf_withRoot st root root' :
  rootOf st = Some root -> nodeName root' = "tw-storydata" ->
  rootOf (withRoot root' st) = Some root'.
Proof.
  unfold rootOf, withRoot, replaceFirstDescendant, getElementsByTagName.
  intros Hroot Hname. cbn [document set_document].
  destruct (flat_map (elementsSelf "tw-storydata") (childNodes (document st)))
    as [|r rest] eqn:E; [discriminate|].
  destruct (replaceFirstInList_spec _ _ _ _ _ Hname E) as (cs' & -> & Hhead).
  exact Hhead.
Qed.

Lemma rootOf_nodeName st root : rootOf st = Some root -> nodeName root = "tw-storydata".
Proof.
  unfold rootOf. intros H.
  apply (getElementsByTagName_nodeName _ (document st)).
  destruct (getElementsByTagName (document st) "tw-storydata"); [discriminate|].
  injection H as ->. now left.
Qed.

Lemma onRootNode_run method f st root :
  rootOf st = Some root ->
  onRootNode method f st
  = match f root with
    | Ok root' => (Ok tt, withRoot root' st)
    | Throw e => (Throw e, st)
    end.
Proof.
  intros Hroot. unfold onRootNode, rootNode. rewrite bind_run. unfold gets.
  fold (rootOf st). rewrite Hroot. rewrite bind_run. unfold liftResult.
  now destruct (f root).
Qed.

(** ** Removing children by identity *)

Lemma sameNode_true a b : sameNode a b = true <-> nid a = nid b.
Proof. unfold sameNode. apply Nat.eqb_eq. Qed.

Lemma removeFirst_filter t l :
  List.NoDup (map nid l) ->
  removeFirst t l = List.filter (fun c => negb (sameNode c t)) l.
Proof.
  induction l as [|c l IH]; [reflexivity|].
  cbn [map]. intros [Hnotin Hnd]%List.NoDup_cons_iff. cbn [removeFirst List.filter].
  destruct (sameNode c t) eqn:E; cbn [negb].
  - apply sameNode_true in E. symmetry. apply List.forallb_filter_id.
    apply List.forallb_forall. intros x Hx. apply negb_true_iff.
    destruct (sameNode x t) eqn:Ex; [|reflexivity].
    apply sameNode_true in Ex. exfalso. apply Hnotin. rewrite E, <- Ex.
    now apply List.in_map.
  - f_equal. now apply IH.
Qed.

Lemma NoDup_map_filter {A B} (f : A -> B) (p : A -> bool) (l : list A) :
  List.NoDup (map f l) -> List.NoDup (map f (List.filter p l)).
Proof.
  induction l as [|x l IH]; [trivial|].
  cbn [map List.filter]. intros [Hnotin Hnd]%List.NoDup_cons_iff.
  destruct (p x); [|now apply IH].
  cbn [map]. constructor; [|now apply IH].
  intros (y & Hy & Hin)%List.in_map_iff. apply List.filter_In in Hin as [Hin _].
  apply Hnotin. rewrite <- Hy. now apply List.in_map.
Qed.

Lemma filter_filter_andb {A} (p q : A -> bool) (l : list A) :
  List.filter q (List.filter p l) = List.filter (fun x => p x && q x) l.
Proof.
  induction l as [|x l IH]; [reflexivity|].
  cbn [List.filter]. destruct (p x); cbn [List.filter andb]; [|exact IH].
  destruct (q x); now rewrite IH.
Qed.

(** A loop of [removeChild] that runs to its end has found every node
    among the children, and leaves the children that are none of the
    nodes; the parent is otherwise unchanged. *)
Lemma removeEach_Ok nodes parent parent' :
  List.NoDup (map nid (childNodes parent)) ->
  removeEach nodes parent = Ok parent' ->
  childNodes parent'
  = List.filter (fun c => negb (existsb (sameNode c) nodes)) (childNodes parent)
  /\ (forall t, In t nodes -> exists c, In c (childNodes parent) /\ nid c = nid t)
  /\ nid parent' = nid parent /\ nodeName parent' = nodeName parent
  /\ attributes parent' = attributes parent /\ nodeValue parent' = nodeValue parent.
Proof.
  revert parent. induction nodes as [|t nodes IH]; intros parent Hnd.
  - intros [= <-]. cbn [existsb negb].
    split; [symmetry; apply List.forallb_filter_id; now apply List.forallb_forall|].
    split; [intros t Ht; destruct Ht|]. repeat split.
  - cbn [removeEach]. unfold removeChild.
    destruct (existsb (fun c => sameNode c t) (childNodes parent)) eqn:Ex;
      [|discriminate].
    intros Hrest. apply IH in Hrest as (Hcs & Hall & Hid & Hname & Hats & Hval).
    2: { cbn [childNodes]. rewrite removeFirst_filter by assumption.
         now apply NoDup_map_filter. }
    cbn [childNodes nid nodeName attributes nodeValue] in *.
    rewrite removeFirst_filter in Hcs, Hall by assumption.
    split.
    { rewrite Hcs, filter_filter_andb. apply List.filter_ext. intros c.
      cbn [existsb]. rewrite negb_orb. reflexivity. }
    split; [|repeat split; assumption].
    intros t' [<-|Hin].
    + apply List.existsb_exists in Ex as (c & Hc & Hsame).
      exists c. split; [exact Hc | now apply sameNode_true].
    + destruct (Hall t' Hin) as (c & Hc & Hsame).
      apply List.filter_In in Hc as [Hc _]. eauto.
Qed.

(** And the other way round: when every node is a child, by identity,
    and no two nodes are the same, the loop runs to its end. *)
Lemma removeEach_total nodes parent :
  List.NoDup (map nid (childNodes parent)) ->
  List.NoDup (map nid nodes) ->
  (forall t, In t nodes -> In (nid t) (map nid (childNodes parent))) ->
  exists parent', removeEach nodes parent = Ok parent'.
Proof.
  revert parent. induction nodes as [|t nodes IH]; intros parent Hnd Hnodes Hall.
  - eexists. reflexivity.
  - cbn [removeEach]. unfold removeChild.
    cbn [map] in Hnodes. apply List.NoDup_cons_iff in Hnodes as [Hnotin Hnodes].
    assert (Ex : existsb (fun c => sameNode c t) (childNodes parent) = true).
    { apply List.existsb_exists.
      pose proof (Hall t (or_introl eq_refl)) as Ht.
      apply List.in_map_iff in Ht as (c & Hc & Hin).
      exists c. split; [exact Hin | now apply sameNode_true]. }
    rewrite Ex. apply IH; cbn [childNodes].
    + rewrite removeFirst_filter by assumption. now apply NoDup_map_filter.
    + exact Hnodes.
    + intros t' Ht'. rewrite removeFirst_filter by assumption.
      pose proof (Hall t' (or_intror Ht')) as Hc'.
      apply List.in_map_iff in Hc' as (c & Hc & Hin).
      apply List.in_map_iff. exists c. split; [exact Hc|].
      apply List.filter_In. split; [exact Hin|].
      apply negb_true_iff. destruct (sameNode c t) eqn:E; [|reflexivity].
      apply sameNode_true in E. exfalso. apply Hnotin.
      rewrite <- E, Hc. now apply List.in_map.
Qed.

(** ** Identities below the root *)

Lemma NoDup_app_disjoint {A} (l1 l2 : list A) (x : A) :
  List.NoDup (l1 ++ l2) -> In x l1 -> In x l2 -> False.
Proof.
  induction l1 as [|y l1 IH]; [intros _ []|].
  cbn [app]. intros [Hnotin Hnd]%List.NoDup_cons_iff [->|Hin] Hin2.
  - apply Hnotin, in_or_app. now right.
  - now apply IH.
Qed.

Lemma NoDup_map_inj {A B} (f : A -> B) (l : list A) (a b : A) :
  List.NoDup (map f l) -> In a l -> In b l -> f a = f b -> a = b.
Proof.
  induction l as [|x l IH]; [intros _ []|].
  cbn [map]. intros [Hnotin Hnd]%List.NoDup_cons_iff [->|Ha] [->|Hb] Heq.
  - reflexivity.
  - exfalso. apply Hnotin. rewrite Heq. now apply List.in_map.
  - exfalso. apply Hnotin. rewrite <- Heq. now apply List.in_map.
  - now apply IH.
Qed.

Lemma filter_flat_map {A B} (p : B -> bool) (f : A -> list B) (l : list A) :
  List.filter p (flat_map f l) = flat_map (fun x => List.filter p (f x)) l.
Proof.
  induction l as [|x l IH]; [reflexivity|].
  cbn [flat_map]. now rewrite List.filter_app, IH.
Qed.

Lemma flat_map_ext_Forall {A B} (f g : A -> list B) (l : list A) :
  Forall (fun x => f x = g x) l -> flat_map f l = flat_map g l.
Proof.
  induction 1 as [|x l Hx _ IH]; [reflexivity|]. cbn [flat_map]. now rewrite Hx, IH.
Qed.

(** The elements named [tag] are the nodes named [tag], in document
    order. *)
Lemma elementsSelf_filter tag n :
  elementsSelf tag n
  = List.filter (fun x => String.eqb (nodeName x) tag) (nodesSelf n).
Proof.
  induction n as [i nm ats v cs IH] using Node_ind.
  cbn [elementsSelf nodesSelf List.filter nodeName].
  rewrite filter_flat_map, (flat_map_ext_Forall _ _ _ IH).
  now destruct (String.eqb nm tag).
Qed.

Lemma getElementsByTagName_filter tag n :
  getElementsByTagName n tag
  = List.filter (fun x => String.eqb (nodeName x) tag) (descendants n).
Proof.
  unfold getElementsByTagName, descendants. rewrite filter_flat_map.
  apply flat_map_ext. intros c. apply elementsSelf_filter.
Qed.

Lemma getElementsByTagName_In tag n t :
  In t (getElementsByTagName n tag) <-> In t (descendants n) /\ nodeName t = tag.
Proof.
  rewrite getElementsByTagName_filter, List.filter_In.
  now rewrite String.eqb_eq.
Qed.

Lemma nodesSelf_self n : In n (nodesSelf n).
Proof. destruct n. now left. Qed.

Lemma nodesSelf_cases n x : In x (nodesSelf n) <-> x = n \/ In x (descendants n).
Proof.
  destruct n as [i nm ats v cs]. unfold descendants. cbn [nodesSelf childNodes In].
  intuition congruence.
Qed.

Lemma child_in_descendants n c : In c (childNodes n) -> In c (descendants n).
Proof.
  intros Hc. unfold descendants. apply in_flat_map. exists c.
  split; [exact Hc | apply nodesSelf_self].
Qed.

Lemma below_child_in_descendants n k s :
  In k (childNodes n) -> In s (descendants k) -> In s (descendants n).
Proof.
  intros Hk Hs. unfold descendants at 1. apply in_flat_map. exists k.
  split; [exact Hk|]. apply nodesSelf_cases. now right.
Qed.

(** With unique identities, a node that lies below a child of the root
    has the identity of no child of the root. *)
Lemma nested_is_no_child cs c k s :
  List.NoDup (map nid (flat_map nodesSelf cs)) ->
  In c cs -> In k cs -> In s (descendants k) -> nid c <> nid s.
Proof.
  induction cs as [|c0 cs IH]; [intros _ []|].
  cbn [flat_map]. rewrite map_app. intros Hnd Hc Hk Hs Heq.
  assert (Hc0 : nodesSelf c0 = c0 :: descendants c0) by now destruct c0.
  rewrite Hc0 in Hnd. cbn [map app] in Hnd.
  pose proof Hnd as [Hnotin Hnd']%List.NoDup_cons_iff.
  assert (Hbelow : forall k' s', In k' cs -> In s' (nodesSelf k') ->
                                  In (nid s') (map nid (flat_map nodesSelf cs))).
  { intros k' s' Hk' Hs'. apply List.in_map, in_flat_map. eauto. }
  destruct Hc as [->|Hc], Hk as [->|Hk].
  - apply Hnotin, in_or_app. left. rewrite Heq. now apply List.in_map.
  - apply Hnotin, in_or_app. right. rewrite Heq. apply (Hbelow k s Hk).
    apply nodesSelf_cases. now right.
  - apply (NoDup_app_disjoint _ _ (nid s) Hnd'); [now apply List.in_map|].
    rewrite <- Heq. apply (Hbelow c c Hc), nodesSelf_self.
  - apply List.NoDup_app_remove_l in Hnd'. now apply (IH Hnd' Hc Hk Hs).
Qed.

Lemma uniqueIds_children root :
  uniqueIds root -> List.NoDup (map nid (childNodes root)).
Proof.
  unfold uniqueIds, descendants. induction (childNodes root) as [|c cs IH]; [constructor|].
  cbn [flat_map map]. rewrite map_app.
  assert (Hc : nodesSelf c = c :: descendants c) by now destruct c.
  rewrite Hc. cbn [map app]. intros [Hnotin Hnd]%List.NoDup_cons_iff.
  constructor.
  - intros (x & Hx & Hin)%List.in_map_iff. apply Hnotin, in_or_app. right.
    rewrite <- Hx. apply List.in_map, in_flat_map. exists x.
    split; [exact Hin | apply nodesSelf_self].
  - apply IH. now apply List.NoDup_app_remove_l in Hnd.
Qed.

(** One loop of the swap: the nodes to remove are, among the children,
    exactly those named [tag]. [all] lists nodes with unique identities
    among which the children and the nodes to remove are found. *)
Lemma removeEach_by_tag all tag nodes parent parent' :
  List.NoDup (map nid all) ->
  List.NoDup (map nid (childNodes parent)) ->
  (forall c, In c (childNodes parent) -> In c all) ->
  (forall t, In t nodes -> In t all) ->
  (forall c, In c (childNodes parent) -> (In c nodes <-> nodeName c = tag)) ->
  removeEach nodes parent = Ok parent' ->
  childNodes parent'
  = List.filter (fun c => negb (String.eqb (nodeName c) tag)) (childNodes parent)
  /\ (forall t, In t nodes -> In t (childNodes parent))
  /\ nid parent' = nid parent /\ nodeName parent' = nodeName parent
  /\ attributes parent' = attributes parent /\ nodeValue parent' = nodeValue parent.
Proof.
  intros Hall Hnd Hcs Hnodes Htag Hrun.
  apply removeEach_Ok in Hrun as (Hchildren & Hfound & Hrest); [|exact Hnd].
  assert (Hin : forall t, In t nodes -> In t (childNodes parent)).
  { intros t Ht. destruct (Hfound t Ht) as (c & Hc & Hid).
    now rewrite <- (NoDup_map_inj nid all c t Hall (Hcs c Hc) (Hnodes t Ht) Hid). }
  split; [|split; [exact Hin | exact Hrest]].
  rewrite Hchildren. apply List.filter_ext_in. intros c Hc. f_equal.
  apply eq_true_iff_eq. rewrite List.existsb_exists, String.eqb_eq, <- (Htag c Hc).
  split.
  - intros (t & Ht & Hsame). apply sameNode_true in Hsame.
    now rewrite (NoDup_map_inj nid all c t Hall (Hcs c Hc) (Hnodes t Ht) Hsame).
  - intros Hin'. exists c. split; [exact Hin' | now apply sameNode_true].
Qed.

Lemma NoDup_app_shrink {A} (l1 l2 l2' : list A) :
  List.NoDup (l1 ++ l2) -> List.NoDup l2' -> (forall x, In x l2' -> In x l2) ->
  List.NoDup (l1 ++ l2').
Proof.
  intros Hnd Hnd' Hsub. induction l1 as [|y l1 IH]; [exact Hnd'|].
  cbn [app] in *. apply List.NoDup_cons_iff in Hnd as [Hnotin Hnd].
  constructor; [|now apply IH].
  intros [Hin|Hin]%in_app_or; apply Hnotin, in_or_app; [now left|right].
  now apply Hsub.
Qed.

Lemma NoDup_map_flat_map_filter {A B C} (f : B -> C) (g : A -> list B)
    (p : A -> bool) (l : list A) :
  List.NoDup (map f (flat_map g l)) ->
  List.NoDup (map f (flat_map g (List.filter p l))).
Proof.
  induction l as [|x l IH]; [trivial|].
  cbn [flat_map List.filter]. rewrite map_app. intros Hnd.
  pose proof (List.NoDup_app_remove_l _ _ Hnd) as Hnd2.
  destruct (p x); [|now apply IH].
  cbn [flat_map]. rewrite map_app.
  apply (NoDup_app_shrink _ _ _ Hnd); [now apply IH|].
  intros y (b & <- & Hb)%List.in_map_iff. apply List.in_map.
  apply in_flat_map in Hb as (a & Ha & Hb). apply List.filter_In in Ha as [Ha _].
  apply in_flat_map. eauto.
Qed.

Lemma isPatchedKind_false n :
  isPatchedKind n = false
  <-> nodeName n <> "style" /\ nodeName n <> "script" /\ nodeName n <> "tw-passagedata".
Proof.
  unfold isPatchedKind. rewrite !orb_false_iff, !String.eqb_neq. tauto.
Qed.

Lemma isPatchedKind_true n :
  isPatchedKind n = true
  <-> nodeName n = "style" \/ nodeName n = "script" \/ nodeName n = "tw-passagedata".
Proof.
  unfold isPatchedKind. rewrite !orb_true_iff, !String.eqb_eq. tauto.
Qed.

(** The three removal loops of the swap, when they all run to their
    end: the root keeps exactly its children that are not style, script
    or passage nodes, and nothing below those is such a node. *)
Lemma swap_removals root r1 r2 r3 :
  uniqueIds root ->
  removeEach (getElementsByTagName root "style") root = Ok r1 ->
  removeEach (getElementsByTagName r1 "script") r1 = Ok r2 ->
  removeEach (getElementsByTagName root "tw-passagedata") r2 = Ok r3 ->
  childNodes r3 = List.filter (fun n => negb (isPatchedKind n)) (childNodes root)
  /\ (forall k s, In k (childNodes r3) -> In s (nodesSelf k) -> isPatchedKind s = false)
  /\ nid r3 = nid root /\ nodeName r3 = nodeName root
  /\ attributes r3 = attributes root /\ nodeValue r3 = nodeValue root.
Proof.
  intros Hu H1 H2 H3.
  pose proof (uniqueIds_children root Hu) as Hcs.
  apply (removeEach_by_tag (descendants root) "style") in H1
    as (Hc1 & Hin1 & Hid1 & Hname1 & Hats1 & Hval1); try assumption.
  2: apply child_in_descendants.
  2: intros t Ht; now apply getElementsByTagName_In in Ht.
  2: { intros c Hc. rewrite getElementsByTagName_In.
       pose proof (child_in_descendants root c Hc). tauto. }
  assert (Hsub1 : forall c, In c (childNodes r1) -> In c (childNodes root)).
  { intros c Hc. rewrite Hc1 in Hc. now apply List.filter_In in Hc. }
  assert (Hdesc1 : forall s, In s (descendants r1) -> In s (descendants root)).
  { intros s (k & Hk & Hs)%in_flat_map. apply in_flat_map. exists k.
    split; [now apply Hsub1 | exact Hs]. }
  apply (removeEach_by_tag (descendants root) "script") in H2
    as (Hc2 & Hin2 & Hid2 & Hname2 & Hats2 & Hval2); try assumption.
  2: rewrite Hc1; now apply NoDup_map_filter.
  2: intros c Hc; apply child_in_descendants; now apply Hsub1.
  2: intros t Ht; apply getElementsByTagName_In in Ht; now apply Hdesc1.
  2: { intros c Hc. rewrite getElementsByTagName_In.
       pose proof (child_in_descendants r1 c Hc). tauto. }
  assert (Hsub2 : forall c, In c (childNodes r2) -> In c (childNodes r1)).
  { intros c Hc. rewrite Hc2 in Hc. now apply List.filter_In in Hc. }
  apply (removeEach_by_tag (descendants root) "tw-passagedata") in H3
    as (Hc3 & Hin3 & Hid3 & Hname3 & Hats3 & Hval3); try assumption.
  2: rewrite Hc2, Hc1; now apply NoDup_map_filter, NoDup_map_filter.
  2: intros c Hc; apply child_in_descendants; now apply Hsub1, Hsub2.
  2: intros t Ht; now apply getElementsByTagName_In in Ht.
  2: { intros c Hc. rewrite getElementsByTagName_In.
       pose proof (child_in_descendants root c (Hsub1 c (Hsub2 c Hc))). tauto. }
  assert (Hkept : childNodes r3
                  = List.filter (fun n => negb (isPatchedKind n)) (childNodes root)).
  { rewrite Hc3, Hc2, Hc1, !filter_filter_andb. apply List.filter_ext. intros c.
    unfold isPatchedKind. now rewrite !negb_orb, andb_assoc. }
  split; [exact Hkept|].
  split; [|repeat split; congruence].
  intros k s Hk Hs. rewrite Hkept in Hk. apply List.filter_In in Hk as [Hk Hknot].
  apply negb_true_iff in Hknot.
  apply nodesSelf_cases in Hs as [->|Hs]; [exact Hknot|].
  destruct (isPatchedKind s) eqn:Es; [exfalso|reflexivity].
  pose proof (below_child_in_descendants root k s Hk Hs) as Hsroot.
  assert (Hchild : In s (childNodes root)).
  { apply isPatchedKind_false in Hknot as (Hk1 & Hk2 & Hk3).
    apply isPatchedKind_true in Es as [Es|[Es|Es]].
    - apply Hin1, getElementsByTagName_In. now split.
    - assert (Hk' : In k (childNodes r1)).
      { rewrite Hc1. apply List.filter_In. split; [exact Hk|].
        apply negb_true_iff. now apply String.eqb_neq. }
      apply Hsub1, Hin2, getElementsByTagName_In. split; [|exact Es].
      now apply (below_child_in_descendants r1 k s).
    - apply Hsub1, Hsub2, Hin3, getElementsByTagName_In. now split. }
  now apply (nested_is_no_child (childNodes root) s k s Hu Hchild Hk Hs).
Qed.

(** ** The swap inside the document *)

Lemma removeChild_nodeName n parent parent' :
  removeChild n parent = Ok parent' -> nodeName parent' = nodeName parent.
Proof.
  unfold removeChild. destruct (existsb _ _); [|discriminate]. now intros [= <-].
Qed.

Lemma set_document_same st : st = set_document (document st) st.
Proof. now destruct st. Qed.

Lemma set_document_twice d d' st :
  set_document d' (set_document d st) = set_document d' st.
Proof. reflexivity. Qed.

(** The loop of [removeChild] calls on the root, as the document sees
    it. *)
Lemma forEach_rootRemoveChild nodes st root :
  rootOf st = Some root ->
  match removeEach nodes root with
  | Ok root' =>
      exists st', forEach nodes rootRemoveChild st = (Ok tt, st')
                  /\ rootOf st' = Some root'
                  /\ st' = set_document (document st') st
  | Throw e => exists st', forEach nodes rootRemoveChild st = (Throw e, st')
  end.
Proof.
  revert st root. induction nodes as [|n nodes IH]; intros st root Hroot.
  - cbn. exists st. split; [reflexivity|]. split; [exact Hroot|].
    apply set_document_same.
  - assert (Hstep : forEach (n :: nodes) rootRemoveChild st
                    = match removeChild n root with
                      | Ok r1 => forEach nodes rootRemoveChild (withRoot r1 st)
                      | Throw e => (Throw e, st)
                      end).
    { cbn [forEach]. rewrite bind_run. unfold rootRemoveChild at 1.
      rewrite (onRootNode_run _ _ st root Hroot).
      now destruct (removeChild n root). }
    rewrite Hstep. cbn [removeEach].
    destruct (removeChild n root) as [r1|e] eqn:Er; [|eexists; reflexivity].
    assert (Hroot1 : rootOf (withRoot r1 st) = Some r1).
    { apply (rootOf_withRoot st root); [exact Hroot|].
      rewrite (removeChild_nodeName _ _ _ Er). now apply (rootOf_nodeName st). }
    specialize (IH (withRoot r1 st) r1 Hroot1).
    destruct (removeEach nodes r1) as [r'|e'].
    + destruct IH as (st' & Hrun & Hroot' & Hsame). exists st'.
      split; [exact Hrun|]. split; [exact Hroot'|].
      rewrite Hsame at 1. unfold withRoot. apply set_document_twice.
    + exact IH.
Qed.

Lemma forEach_rootAppendChild nodes st root :
  rootOf st = Some root ->
  exists st', forEach nodes rootAppendChild st = (Ok tt, st')
              /\ rootOf st' = Some (withChildrenAppended nodes root)
              /\ st' = set_document (document st') st.
Proof.
  revert st root. induction nodes as [|n nodes IH]; intros st root Hroot.
  - exists st. split; [reflexivity|]. split; [|apply set_document_same].
    rewrite Hroot. unfold withChildrenAppended. rewrite List.app_nil_r.
    now destruct root.
  - set (r1 := mkNode (nid root) (nodeName root) (attributes root) (nodeValue root)
                 (childNodes root ++ [n])).
    assert (Hstep : forEach (n :: nodes) rootAppendChild st
                    = forEach nodes rootAppendChild (withRoot r1 st)).
    { cbn [forEach]. rewrite bind_run. unfold rootAppendChild at 1.
      now rewrite (onRootNode_run _ _ st root Hroot). }
    rewrite Hstep.
    assert (Hroot1 : rootOf (withRoot r1 st) = Some r1).
    { apply (rootOf_withRoot st root); [exact Hroot|].
      unfold r1. cbn [nodeName]. now apply (rootOf_nodeName st). }
    destruct (IH (withRoot r1 st) r1 Hroot1) as (st' & Hrun & Hroot' & Hsame).
    exists st'. split; [exact Hrun|]. split.
    + rewrite Hroot'. unfold withChildrenAppended, r1.
      cbn [nid nodeName attributes nodeValue childNodes].
      now rewrite <- List.app_assoc.
    + rewrite Hsame at 1. unfold withRoot. apply set_document_twice.
Qed.

(** The first part of the swap, which builds the new nodes: the script
    records are sorted in place, and the nodes take the next free
    identities. *)
Lemma patchModToGame_swap_build target st v :
  heap st !! target = Some v ->
  let scripts := sortScriptFileItems (scriptFileItems v) in
  let next := nextNodeId st in
  let built :=
    set_nextNodeId (next + 4 + 2 * length (passageDataItems v))%nat
      (set_heap (<[target := set_scriptFileItems scripts v]> (heap st)) st) in
  patchModToGame_swap target st
  = (_ <- rootNode ;;
     _ <- styleNode ;;
     _ <- scriptNode ;;
     passageDataNodeList <- passageDataNodeList ;;
     styles <- styleNode ;;
     forEach styles rootRemoveChild ;;;
     scriptNodes <- scriptNode ;;
     forEach scriptNodes rootRemoveChild ;;;
     forEach passageDataNodeList rootRemoveChild ;;;
     rootAppendChild (scriptNodeOf next scripts) ;;;
     rootAppendChild (styleNodeOf (next + 2) (styleFileItems v)) ;;;
     forEach (passageNodesFrom (next + 4) (passageDataItems v)) rootAppendChild) built.
Proof.
  intros Hv scripts next built. unfold patchModToGame_swap.
  rewrite bind_run, (makeScriptNode_run _ _ _ Hv).
  match goal with |- bind _ _ ?s = _ => set (s1 := s) end.
  assert (Hv1 : heap s1 !! target = Some (set_scriptFileItems scripts v)).
  { unfold s1. cbn [heap set_nextNodeId set_heap].
    apply list_lookup_insert_eq. now apply lookup_lt_Some in Hv. }
  rewrite bind_run, (makeStyleNode_run _ _ _ Hv1).
  rewrite bind_run. unfold deref at 1.
  cbn [heap set_nextNodeId]. rewrite Hv1.
  rewrite bind_run, mapM_makePassageNode_run.
  cbn [passageDataItems styleFileItems set_scriptFileItems nextNodeId set_nextNodeId].
  unfold s1. cbn [nextNodeId set_nextNodeId set_heap].
  replace (S (S (S (S (nextNodeId st))))) with (next + 4)%nat by (unfold next; lia).
  replace (S (S (nextNodeId st))) with (next + 2)%nat by (unfold next; lia).
  reflexivity.
Qed.

(** ** The new nodes *)

Lemma append_nil_r (s : string) : s +:+ EmptyString = s.
Proof.
  induction s as [|c s IH]; [reflexivity|].
  change (String c (s +:+ EmptyString) = String c s). now rewrite IH.
Qed.

Lemma append_assoc (a b c : string) : (a +:+ b) +:+ c = a +:+ (b +:+ c).
Proof.
  induction a as [|x a IH]; [reflexivity|].
  change (String x ((a +:+ b) +:+ c) = String x (a +:+ (b +:+ c))). now rewrite IH.
Qed.

(** The content of a combined node is the entries of the records, each
    one the identifying comment followed by the content and a line
    feed, one after the other. *)
Lemma combinedContent_joinStrings kind items :
  combinedContent kind items = joinStrings (map (entryText kind) items).
Proof.
  unfold combinedContent, joinStrings.
  assert (H : forall acc,
    fold_left (fun acc T => acc +:+ entryText kind T) items acc
    = acc +:+ fold_right String.append EmptyString (map (entryText kind) items)).
  { induction items as [|T items IH]; intros acc; cbn.
    - now rewrite append_nil_r.
    - now rewrite IH, append_assoc. }
  apply H.
Qed.

Lemma newElement_children i nm attrs text :
  newElement i nm attrs text
  = mkNode i nm attrs EmptyString
      (if String.eqb text EmptyString then [] else [mkNode (S i) "#text" [] text []]).
Proof. reflexivity. Qed.

Lemma elementsSelf_newElement tag i nm attrs text :
  tag <> "#text" ->
  elementsSelf tag (newElement i nm attrs text)
  = if String.eqb nm tag then [newElement i nm attrs text] else [].
Proof.
  intros Htag. rewrite newElement_children. cbn [elementsSelf].
  assert (Hnone : flat_map (elementsSelf tag)
            (if String.eqb text EmptyString then []
             else [mkNode (S i) "#text" [] text []]) = []).
  { destruct (String.eqb text EmptyString); [reflexivity|].
    cbn [flat_map elementsSelf app].
    destruct (String.eqb_spec "#text" tag); [congruence | reflexivity]. }
  rewrite Hnone, List.app_nil_r. reflexivity.
Qed.

Lemma textContent_newElement i nm attrs text :
  nm <> "#text" -> textContent (newElement i nm attrs text) = text.
Proof.
  intros Hnm. rewrite newElement_children. cbn [textContent].
  destruct (String.eqb_spec nm "#text"); [contradiction|].
  destruct (String.eqb_spec text EmptyString) as [->|_]; [reflexivity|].
  cbn. apply append_nil_r.
Qed.

Lemma passageNodeOf_summary i T :
  passageNodeSummary (passageNodeOf i T) = passageRecordSummary T.
Proof.
  unfold passageNodeSummary, passageRecordSummary, passageNodeOf.
  rewrite textContent_newElement by discriminate.
  rewrite newElement_children. unfold getAttribute. cbn [nodeName attributes].
  repeat f_equal.
  destruct (passage_id T) as [z|]; [destruct (0 <? z)|]; reflexivity.
Qed.

Lemma passageNodesFrom_summary i Ts :
  map passageNodeSummary (passageNodesFrom i Ts) = map passageRecordSummary Ts.
Proof.
  revert i. induction Ts as [|T Ts IH]; intros i; [reflexivity|].
  cbn [passageNodesFrom map]. now rewrite passageNodeOf_summary, IH.
Qed.

Lemma flat_map_elementsSelf_passageNodes tag i Ts :
  tag <> "#text" ->
  flat_map (elementsSelf tag) (passageNodesFrom i Ts)
  = if String.eqb "tw-passagedata" tag then passageNodesFrom i Ts else [].
Proof.
  intros Htag. revert i. induction Ts as [|T Ts IH]; intros i.
  - now destruct (String.eqb _ tag).
  - cbn [passageNodesFrom flat_map]. rewrite IH. unfold passageNodeOf.
    rewrite elementsSelf_newElement by assumption.
    now destruct (String.eqb "tw-passagedata" tag).
Qed.

Lemma filter_none {A} (p : A -> bool) (l : list A) :
  (forall x, In x l -> p x = false) -> List.filter p l = [].
Proof.
  induction l as [|x l IH]; [reflexivity|]. intros H. cbn [List.filter].
  rewrite (H x (or_introl eq_refl)). apply IH. intros y Hy. apply H. now right.
Qed.

(** Children with no style, script or passage node in their subtrees
    contribute nothing to the collections of the swap. *)
Lemma flat_map_elementsSelf_clean tag kept :
  (forall k s, In k kept -> In s (nodesSelf k) -> isPatchedKind s = false) ->
  tag = "style" \/ tag = "script" \/ tag = "tw-passagedata" ->
  flat_map (elementsSelf tag) kept = [].
Proof.
  intros Hclean Htag. induction kept as [|k kept IH]; [reflexivity|].
  cbn [flat_map]. rewrite IH by (intros k' s Hk'; apply Hclean; now right).
  rewrite List.app_nil_r, elementsSelf_filter.
  apply filter_none. intros s Hs. apply String.eqb_neq.
  pose proof (Hclean k s (or_introl eq_refl) Hs) as Hnot.
  apply isPatchedKind_false in Hnot. destruct Htag as [-> | [-> | ->]]; tauto.
Qed.

(** ** The swap of the render tree *)

Lemma rootOf_same_document st st' :
  document st' = document st -> rootOf st' = rootOf st.
Proof. unfold rootOf. now intros ->. Qed.

(** On a flat root with unique identities the three removal loops
    find every node they remove. *)
Lemma swap_removals_total root :
  uniqueIds root -> flatRoot root ->
  exists r1 r2 r3,
    removeEach (getElementsByTagName root "style") root = Ok r1
    /\ removeEach (getElementsByTagName r1 "script") r1 = Ok r2
    /\ removeEach (getElementsByTagName root "tw-passagedata") r2 = Ok r3.
Proof.
  intros Hu Hflat.
  pose proof (uniqueIds_children root Hu) as Hcs.
  assert (Hchild : forall tag t,
             isPatchedKind (mkNode 0 tag [] EmptyString []) = true ->
             In t (getElementsByTagName root tag) -> In t (childNodes root)).
  { intros tag t Hkind [Hd Hn]%getElementsByTagName_In. apply Hflat; [exact Hd|].
    unfold isPatchedKind in *. cbn [nodeName] in Hkind. now rewrite Hn. }
  destruct (removeEach_total (getElementsByTagName root "style") root) as [r1 E1].
  { exact Hcs. }
  { rewrite getElementsByTagName_filter. now apply NoDup_map_filter. }
  { intros t Ht. apply in_map. now apply (Hchild "style"). }
  pose proof E1 as K1.
  apply (removeEach_by_tag (descendants root) "style") in K1 as (Hc1 & _);
    try assumption.
  2: apply child_in_descendants.
  2: intros t Ht; now apply getElementsByTagName_In in Ht.
  2: { intros c Hc. rewrite getElementsByTagName_In.
       pose proof (child_in_descendants root c Hc). tauto. }
  assert (Hsub1 : forall c, In c (childNodes r1) -> In c (childNodes root)).
  { intros c Hc. rewrite Hc1 in Hc. now apply List.filter_In in Hc. }
  assert (Hdesc1 : forall s, In s (descendants r1) -> In s (descendants root)).
  { intros s (k & Hk & Hs)%in_flat_map. apply in_flat_map. exists k.
    split; [now apply Hsub1 | exact Hs]. }
  assert (Hcs1 : List.NoDup (map nid (childNodes r1)))
    by (rewrite Hc1; now apply NoDup_map_filter).
  destruct (removeEach_total (getElementsByTagName r1 "script") r1) as [r2 E2].
  { exact Hcs1. }
  { rewrite getElementsByTagName_filter. apply NoDup_map_filter.
    unfold descendants. rewrite Hc1. now apply NoDup_map_flat_map_filter. }
  { intros t [Hd Hn]%getElementsByTagName_In. apply in_map.
    rewrite Hc1. apply List.filter_In. split.
    - apply Hflat; [now apply Hdesc1|]. unfold isPatchedKind. now rewrite Hn.
    - now rewrite Hn. }
  pose proof E2 as K2.
  apply (removeEach_by_tag (descendants root) "script") in K2 as (Hc2 & _);
    try assumption.
  2: intros c Hc; apply child_in_descendants; now apply Hsub1.
  2: intros t Ht; apply getElementsByTagName_In in Ht; now apply Hdesc1.
  2: { intros c Hc. rewrite getElementsByTagName_In.
       pose proof (child_in_descendants r1 c Hc). tauto. }
  destruct (removeEach_total (getElementsByTagName root "tw-passagedata") r2)
    as [r3 E3].
  { rewrite Hc2. now apply NoDup_map_filter. }
  { rewrite getElementsByTagName_filter. now apply NoDup_map_filter. }
  { intros t Ht. apply in_map. rewrite Hc2, Hc1. rewrite !List.filter_In.
    pose proof Ht as [_ Hn]%getElementsByTagName_In.
    split; [split|]; [now apply (Hchild "tw-passagedata") | |]; now rewrite Hn. }
  now exists r1, r2, r3.
Qed.

(** The swap step runs to its end on every flat root with unique
    identities: no [removeChild] throws. *)
Lemma patchModToGame_swap_total target st root v :
  rootOf st = Some root ->
  uniqueIds root ->
  flatRoot root ->
  heap st !! target = Some v ->
  exists st', patchModToGame_swap target st = (Ok tt, st').
Proof.
  intros Hroot Hu Hflat Hv.
  rewrite (patchModToGame_swap_build target st v Hv).
  match goal with |- exists _, bind _ _ ?s = _ => set (built := s) end.
  assert (HrootB : rootOf built = Some root)
    by (rewrite <- Hroot; now apply rootOf_same_document).
  destruct (swap_removals_total root Hu Hflat) as (r1 & r2 & r3 & E1 & E2 & E3).
  rewrite bind_run. unfold rootNode at 1, gets at 1.
  unfold styleNode, scriptNode, passageDataNodeList.
  do 4 rewrite bind_run, (rootElements_run _ built root HrootB).
  rewrite bind_run.
  pose proof (forEach_rootRemoveChild (getElementsByTagName root "style") built root
                HrootB) as H1.
  rewrite E1 in H1. destruct H1 as (s1 & Hrun1 & Hroot1 & _). rewrite Hrun1.
  rewrite bind_run, (rootElements_run _ s1 r1 Hroot1), bind_run.
  pose proof (forEach_rootRemoveChild (getElementsByTagName r1 "script") s1 r1
                Hroot1) as H2.
  rewrite E2 in H2. destruct H2 as (s2 & Hrun2 & Hroot2 & _). rewrite Hrun2.
  rewrite bind_run.
  pose proof (forEach_rootRemoveChild (getElementsByTagName root "tw-passagedata")
                s2 r2 Hroot2) as H3.
  rewrite E3 in H3. destruct H3 as (s3 & Hrun3 & Hroot3 & _). rewrite Hrun3.
  match goal with
  | |- exists _, ?m s3 = _ =>
      change (exists st', forEach
                (scriptNodeOf (nextNodeId st)
                   (sortScriptFileItems (scriptFileItems v))
                 :: styleNodeOf (nextNodeId st + 2) (styleFileItems v)
                 :: passageNodesFrom (nextNodeId st + 4) (passageDataItems v))
                rootAppendChild s3 = (Ok tt, st'))
  end.
  destruct (forEach_rootAppendChild
              (scriptNodeOf (nextNodeId st) (sortScriptFileItems (scriptFileItems v))
               :: styleNodeOf (nextNodeId st + 2) (styleFileItems v)
               :: passageNodesFrom (nextNodeId st + 4) (passageDataItems v))
              s3 r3 Hroot3) as (s4 & Hrun4 & _).
  now exists s4.
Qed.

(** The swap step that runs to its end, on a root whose nodes have
    unique identities: the children the root keeps, the nodes it gets,
    and what they hold. *)
Lemma patchModToGame_swap_nodes (target : nat) (st st' : SC2DataManager)
    (root : Node) (v : SC2DataInfo) :
  rootOf st = Some root ->
  uniqueIds root ->
  heap st !! target = Some v ->
  patchModToGame_swap target st = (Ok tt, st') ->
  let scripts := sortScriptFileItems (scriptFileItems v) in
  let newScriptNode := scriptNodeOf (nextNodeId st) scripts in
  let newStyleNode := styleNodeOf (nextNodeId st + 2) (styleFileItems v) in
  let newPassageDataNode :=
    passageNodesFrom (nextNodeId st + 4) (passageDataItems v) in
  exists root',
    rootOf st' = Some root'
    /\ childNodes root'
       = List.filter (fun n => negb (isPatchedKind n)) (childNodes root)
         ++ newScriptNode :: newStyleNode :: newPassageDataNode
    /\ getElementsByTagName root' "script" = [newScriptNode]
    /\ getElementsByTagName root' "style" = [newStyleNode]
    /\ getElementsByTagName root' "tw-passagedata" = newPassageDataNode
    /\ textContent newScriptNode
       = joinStrings (map (entryText "twine-user-script") scripts)
    /\ textContent newStyleNode
       = joinStrings (map (entryText "twine-user-stylesheet") (styleFileItems v))
    /\ map passageNodeSummary newPassageDataNode
       = map passageRecordSummary (passageDataItems v).
Proof.
  intros Hroot Hu Hv Hswap scripts newScriptNode newStyleNode newPassageDataNode.
  rewrite (patchModToGame_swap_build target st v Hv) in Hswap.
  match type of Hswap with bind _ _ ?s = _ => set (built := s) in Hswap end.
  assert (HrootB : rootOf built = Some root)
    by (rewrite <- Hroot; now apply rootOf_same_document).
  rewrite bind_run in Hswap. unfold rootNode at 1, gets at 1 in Hswap.
  unfold styleNode, scriptNode, passageDataNodeList in Hswap.
  do 4 rewrite bind_run, (rootElements_run _ built root HrootB) in Hswap.
  rewrite bind_run in Hswap.
  pose proof (forEach_rootRemoveChild (getElementsByTagName root "style") built root
                HrootB) as H1.
  destruct (removeEach (getElementsByTagName root "style") root) as [r1|e1] eqn:E1.
  2: { destruct H1 as (s1 & Hrun1). rewrite Hrun1 in Hswap. discriminate. }
  destruct H1 as (s1 & Hrun1 & Hroot1 & _). rewrite Hrun1 in Hswap.
  rewrite bind_run, (rootElements_run _ s1 r1 Hroot1), bind_run in Hswap.
  pose proof (forEach_rootRemoveChild (getElementsByTagName r1 "script") s1 r1
                Hroot1) as H2.
  destruct (removeEach (getElementsByTagName r1 "script") r1) as [r2|e2] eqn:E2.
  2: { destruct H2 as (s2 & Hrun2). rewrite Hrun2 in Hswap. discriminate. }
  destruct H2 as (s2 & Hrun2 & Hroot2 & _). rewrite Hrun2 in Hswap.
  rewrite bind_run in Hswap.
  pose proof (forEach_rootRemoveChild (getElementsByTagName root "tw-passagedata")
                s2 r2 Hroot2) as H3.
  destruct (removeEach (getElementsByTagName root "tw-passagedata") r2)
    as [r3|e3] eqn:E3.
  2: { destruct H3 as (s3 & Hrun3). rewrite Hrun3 in Hswap. discriminate. }
  destruct H3 as (s3 & Hrun3 & Hroot3 & _). rewrite Hrun3 in Hswap.
  change (forEach (newScriptNode :: newStyleNode :: newPassageDataNode)
            rootAppendChild s3 = (Ok tt, st')) in Hswap.
  destruct (forEach_rootAppendChild
              (newScriptNode :: newStyleNode :: newPassageDataNode) s3 r3 Hroot3)
    as (s4 & Hrun4 & Hroot4 & _).
  rewrite Hrun4 in Hswap. injection Hswap as <-.
  destruct (swap_removals root r1 r2 r3 Hu E1 E2 E3) as (Hkept & Hclean & _).
  eexists. split; [exact Hroot4|].
  unfold withChildrenAppended. cbn [childNodes]. rewrite <- Hkept.
  split; [reflexivity|].
  unfold getElementsByTagName. cbn [childNodes].
  rewrite !flat_map_app. cbn [flat_map].
  rewrite !(flat_map_elementsSelf_clean _ (childNodes r3) Hclean) by tauto.
  unfold newPassageDataNode.
  rewrite !flat_map_elementsSelf_passageNodes by discriminate.
  unfold newScriptNode, newStyleNode, scriptNodeOf, styleNodeOf.
  rewrite !elementsSelf_newElement by discriminate.
  rewrite !textContent_newElement by discriminate.
  rewrite !combinedContent_joinStrings, passageNodesFrom_summary.
  cbn [String.eqb Ascii.eqb Bool.eqb app].
  repeat split; try reflexivity.
Qed.

Lemma exampleStoryData_uniqueIds : uniqueIds exampleStoryData.
Proof.
  unfold uniqueIds. apply NoDup_ListNoDup.
  apply (bool_decide_unpack _). vm_compute. reflexivity.
Qed.

Lemma patchModToGame_recomputes_after_patch_cache_witness :
  let st' := snd (patchModToGame exampleImports exampleManager) in
  (exists root r,
     rootOf st' = Some root
     /\ cSC2DataInfoAfterPatchCache st' = Some r
     /\ heap st' !! r = Some (captureOf exampleImports root)
     /\ getSC2DataInfoAfterPatch exampleImports st' = (Ok r, st'))
  /\ (forall s root,
        rootOf s = Some root ->
        cSC2DataInfoAfterPatchCache s = None ->
        exists r s',
          getSC2DataInfoAfterPatch exampleImports s = (Ok r, s')
          /\ cSC2DataInfoAfterPatchCache s' = Some r
          /\ heap s' !! r = Some (captureOf exampleImports root)
          /\ document s' = document s)
  /\ (forall s o r,
        originSC2DataInfoCache s = Some o ->
        cSC2DataInfoAfterPatchCache s = Some r ->
        getSC2DataInfoAfterPatch exampleImports s = (Ok r, s)).
Proof.
  apply (patchModToGame_recomputes_after_patch_cache exampleImports exampleManager
           (snd (patchModToGame exampleImports exampleManager))).
  vm_compute. reflexivity.
Defined.

(** * Further properties *)

(** ** [HtmlTagSrcHook]: the dispatch functions *)

Lemma withHookEvents_nil st : withHookEvents [] st = st.
Proof. destruct st. unfold withHookEvents. cbn. now rewrite List.app_nil_r. Qed.

Lemma withHookEvents_app evs1 evs2 st :
  withHookEvents evs2 (withHookEvents evs1 st) = withHookEvents (evs1 ++ evs2) st.
Proof. unfold withHookEvents. cbn. now rewrite List.app_assoc. Qed.

Lemma firstAccepted_app src before after :
  Forall (returnModeHookDeclines src) before ->
  firstAccepted src (before ++ after) = firstAccepted src after.
Proof.
  induction 1 as [|[k h] before Hd _ IH]; [reflexivity|].
  cbn [app firstAccepted]. unfold returnModeHookDeclines in Hd. cbn [snd] in Hd.
  destruct (h src) as [[[|] v]|e]; [contradiction | exact IH | exact IH].
Qed.

Lemma tryRequestImage_run src entry st :
  exists evs,
    tryRequestImage src entry st
    = (Ok (firstAccepted src [entry]), withHookEvents evs st).
Proof.
  destruct entry as [k h].
  unfold tryRequestImage, try_catch, bind, liftResult, ret, hookEmit, modify.
  cbn [firstAccepted].
  destruct (h src) as [[[|] v]|e]; cbn [fst snd].
  - exists []. now rewrite withHookEvents_nil.
  - exists []. now rewrite withHookEvents_nil.
  - eexists. unfold withHookEvents. cbn. rewrite <- List.app_assoc. reflexivity.
Qed.

Lemma requestImageLoop_run src hooks st :
  exists evs,
    forEachUntil hooks (tryRequestImage src) st
    = (Ok (firstAccepted src hooks), withHookEvents evs st).
Proof.
  revert st. induction hooks as [|[k h] hooks IH]; intros st.
  - exists []. now rewrite withHookEvents_nil.
  - rewrite forEachUntil_cons.
    destruct (tryRequestImage_run src (k, h) st) as [evs1 ->].
    cbn [firstAccepted].
    destruct (h src) as [[[|] v]|e].
    + now exists evs1.
    + destruct (IH (withHookEvents evs1 st)) as [evs2 ->].
      exists (evs1 ++ evs2). now rewrite withHookEvents_app.
    + destruct (IH (withHookEvents evs1 st)) as [evs2 ->].
      exists (evs1 ++ evs2). now rewrite withHookEvents_app.
Qed.

(** [requestImageBySrc] never throws and changes neither the tables nor
    the element: for an empty [src] it answers [undefined]; otherwise
    it answers the value of the first return-mode hook, in table order,
    that takes [src], the hooks before it having declined or thrown,
    and [undefined] when there is none. *)
Theorem requestImageBySrc_first_accepting_hook (src : string) (st : HtmlTagSrcHook) :
  exists evs,
    requestImageBySrc src st
    = (Ok (if String.eqb src EmptyString then None
           else firstAccepted src (hookReturnModeTable st)),
       withHookEvents evs st).
Proof.
  unfold requestImageBySrc. destruct (String.eqb src EmptyString).
  - eexists. unfold bind, hookEmit, modify, ret, withHookEvents. cbn.
    rewrite <- List.app_assoc. reflexivity.
  - unfold bind at 1. unfold gets at 1. apply requestImageLoop_run.
Qed.

Section FurtherDoHook.

Variable outerHTML : Node -> string.

(** Without a saved value, that is when the element has no
    [ML-<field>] attribute or an empty one, [doHook] returns false at
    once: whatever hooks are registered, none is called, the element
    keeps all its attributes, the failure mark is not set, and the only
    effect is one entry on the console and one in the logger. *)
Theorem doHook_without_saved_value (field : string) (st : HtmlTagSrcHook) :
  getAttribute (element st) ("ML-" +:+ field) = None
  \/ getAttribute (element st) ("ML-" +:+ field) = Some EmptyString ->
  doHook outerHTML field st
  = (Ok false,
     withHookEvents
       [ConsoleError ("[HtmlTagSrcHook] doHook: no ML-" +:+ field)
          [outerHTML (element st)];
        LoggerError ("[HtmlTagSrcHook] doHook: no ML-" +:+ field +:+ " ["
                     +:+ outerHTML (element st) +:+ "]")]
       st).
Proof.
  intros Hml. unfold doHook. unfold bind at 1. unfold gets at 1.
  assert (Hnone : truthyString (getAttribute (element st) ("ML-" +:+ field)) = None)
    by (destruct Hml as [-> | ->]; reflexivity).
  rewrite Hnone. unfold bind, hookEmit, modify, ret, withHookEvents. cbn.
  now rewrite <- List.app_assoc.
Qed.

Lemma returnModeLoop_accepts mlSrc field v hooks st el' :
  firstAccepted mlSrc hooks = Some v ->
  setAttribute field v (element st) = Ok el' ->
  exists evs,
    forEachUntil hooks (tryReturnModeHook mlSrc field) st
    = (Ok (Some true), withHookEvents evs (set_element el' st)).
Proof.
  revert st. induction hooks as [|[k h] hooks IH]; intros st Hacc Hset; [discriminate|].
  rewrite forEachUntil_cons. cbn [firstAccepted] in Hacc.
  destruct (h mlSrc) as [[[|] x]|e] eqn:Eh.
  - injection Hacc as ->. exists [].
    unfold tryReturnModeHook, try_catch, bind, liftResult, ret, elSetAttribute, gets,
      modify.
    rewrite Eh. cbn. rewrite Hset. now rewrite withHookEvents_nil.
  - destruct (tryReturnModeHook_declines mlSrc field (k, h) st) as [evs1 ->].
    { unfold returnModeHookDeclines. cbn [snd]. now rewrite Eh. }
    destruct (IH (withHookEvents evs1 st) Hacc Hset) as [evs2 ->].
    exists (evs1 ++ evs2). f_equal. unfold withHookEvents, set_element. cbn.
    now rewrite List.app_assoc.
  - destruct (tryReturnModeHook_declines mlSrc field (k, h) st) as [evs1 ->].
    { unfold returnModeHookDeclines. cbn [snd]. now rewrite Eh. }
    destruct (IH (withHookEvents evs1 st) Hacc Hset) as [evs2 ->].
    exists (evs1 ++ evs2). f_equal. unfold withHookEvents, set_element. cbn.
    now rewrite List.app_assoc.
Qed.

(** When a return-mode hook takes the saved value, [doHook] sets
    [field] to the value of the first such hook in table order and
    returns true: the return-mode hooks after it and all the hooks of
    the other table are not called, no other attribute of the element
    changes, and the failure mark is not set. *)
Theorem doHook_return_mode_hook_accepts (field mlSrc v : string) (st : HtmlTagSrcHook) :
  getAttribute (element st) ("ML-" +:+ field) = Some mlSrc ->
  mlSrc <> EmptyString ->
  validAttributeLocalName field = true ->
  firstAccepted mlSrc (hookReturnModeTable st) = Some v ->
  exists evs el',
    setAttribute field v (element st) = Ok el'
    /\ getAttribute el' field = Some v
    /\ doHook outerHTML field st
       = (Ok true, withHookEvents evs (set_element el' st)).
Proof.
  intros Hml Hne Hvalid Hacc.
  destruct (setAttribute field v (element st)) as [el'|e] eqn:Hset.
  2: { unfold setAttribute in Hset. rewrite Hvalid in Hset. discriminate. }
  destruct (returnModeLoop_accepts mlSrc field v _ st el' Hacc Hset) as [evs Hloop].
  exists evs, el'. split; [reflexivity|].
  split; [now apply (getAttribute_setAttribute_eq field v (element st))|].
  unfold doHook. unfold bind at 1. unfold gets at 1.
  rewrite Hml, (truthyString_Some _ mlSrc eq_refl Hne).
  unfold bind at 1. unfold gets at 1. unfold bind at 1. rewrite Hloop. reflexivity.
Qed.

(** When no return-mode hook takes the saved value and a hook of the
    other table does, the hooks before it declining or throwing in this
    run, each on the element as its predecessors have left it, [doHook]
    returns true with the element as that hook and the hooks before it
    left it: the hooks after it are not called, and [doHook] itself
    sets no attribute, neither [field] nor the failure mark. *)
Theorem doHook_hook_accepts (field mlSrc hookKey : string) (hook : HtmlTagSrcHookType)
    (before after : list (string * HtmlTagSrcHookType)) (st : HtmlTagSrcHook) :
  getAttribute (element st) ("ML-" +:+ field) = Some mlSrc ->
  mlSrc <> EmptyString ->
  Forall (returnModeHookDeclines mlSrc) (hookReturnModeTable st) ->
  hookTable st = before ++ (hookKey, hook) :: after ->
  hooksDecline mlSrc field before (element st) ->
  fst (hook mlSrc field (afterAllHooks mlSrc field before (element st))) = Ok true ->
  exists evs,
    doHook outerHTML field st
    = (Ok true,
       withHookEvents evs
         (set_element
            (snd (hook mlSrc field (afterAllHooks mlSrc field before (element st))))
            st)).
Proof.
  intros Hml Hne HR Htable Hbefore Hacc.
  destruct (doHook_hook_loop outerHTML field mlSrc st Hml Hne HR) as [evs1 ->].
  destruct (hookLoop_accepts mlSrc field hookKey hook before after
              (withHookEvents evs1 st) Hbefore Hacc) as [evs2 E2].
  exists (evs1 ++ evs2). unfold bind at 1. rewrite Htable, E2.
  unfold withHookEvents, set_element, ret. cbn. now rewrite List.app_assoc.
Qed.

Lemma returnModeLoop_invalid_field mlSrc field hooks st :
  validAttributeLocalName field = false ->
  exists evs,
    forEachUntil hooks (tryReturnModeHook mlSrc field) st
    = (Ok None, withHookEvents evs st).
Proof.
  intros Hinvalid. revert st. induction hooks as [|[k h] hooks IH]; intros st.
  - exists []. now rewrite withHookEvents_nil.
  - rewrite forEachUntil_cons.
    assert (Hstep : exists evs1,
               tryReturnModeHook mlSrc field (k, h) st
               = (Ok None, withHookEvents evs1 st)).
    { unfold tryReturnModeHook, try_catch, bind, liftResult, ret, elSetAttribute, gets,
        modify, hookEmit, setAttribute.
      rewrite Hinvalid.
      destruct (h mlSrc) as [[[|] x]|e]; cbn [fst snd].
      - eexists. unfold withHookEvents. cbn. rewrite <- List.app_assoc. reflexivity.
      - exists []. now rewrite withHookEvents_nil.
      - eexists. unfold withHookEvents. cbn. rewrite <- List.app_assoc. reflexivity. }
    destruct Hstep as [evs1 ->].
    destruct (IH (withHookEvents evs1 st)) as [evs2 ->].
    exists (evs1 ++ evs2). now rewrite withHookEvents_app.
Qed.

(** With a [field] that is no valid attribute name, the empty name for
    one, a return-mode hook that takes the saved value fails like a
    hook that throws, since [setAttribute] throws inside the [try]; and
    when in this run no hook of the other table takes the element (each
    declines or throws on the element as its predecessors have left
    it), [doHook] sets the failure mark and then throws
    [InvalidCharacterError] to its caller, from the [setAttribute] that
    restores [field]. *)
Theorem doHook_invalid_field_throws (field mlSrc : string) (st : HtmlTagSrcHook) :
  getAttribute (element st) ("ML-" +:+ field) = Some mlSrc ->
  mlSrc <> EmptyString ->
  validAttributeLocalName field = false ->
  hooksDecline mlSrc field (hookTable st) (element st) ->
  exists evs marked,
    setAttribute "ML-src_replace_failed" "1"
      (afterAllHooks mlSrc field (hookTable st) (element st)) = Ok marked
    /\ doHook outerHTML field st
       = (Throw InvalidCharacterError, withHookEvents evs (set_element marked st)).
Proof.
  intros Hml Hne Hinvalid HH.
  destruct (returnModeLoop_invalid_field mlSrc field (hookReturnModeTable st) st
              Hinvalid) as [evs1 E1].
  destruct (hookLoop_all_decline mlSrc field _ (withHookEvents evs1 st) HH) as [evs2 E2].
  cbn [withHookEvents hookTable element] in E2.
  exists (evs1 ++ evs2). eexists. split; [reflexivity|].
  unfold doHook. unfold bind at 1. unfold gets at 1.
  rewrite Hml, (truthyString_Some _ mlSrc eq_refl Hne).
  unfold bind at 1. unfold gets at 1. unfold bind at 1. rewrite E1.
  unfold bind at 1. unfold gets at 1. unfold bind at 1.
  cbn [withHookEvents hookTable]. rewrite E2.
  unfold elSetAttribute, bind, gets, liftResult, modify, ret.
  cbn [element set_element withHookEvents].
  unfold setAttribute at 2. rewrite Hinvalid.
  unfold withHookEvents, set_element. cbn. now rewrite List.app_assoc.
Qed.

(** For a [field] that is a valid attribute name, no error leaves
    [doHook]: what a hook of either table throws, and what the
    [setAttribute] after a return-mode hook throws, is caught inside the
    loops, and the [setAttribute] calls of the default cannot throw; so
    [doHook] returns true or false to its caller. *)
Theorem doHook_catches_hook_errors (field : string) (st : HtmlTagSrcHook) :
  validAttributeLocalName field = true ->
  exists b st', doHook outerHTML field st = (Ok b, st').
Proof.
  intros Hvalid. unfold doHook. unfold bind at 1. unfold gets at 1.
  destruct (truthyString _) as [mlSrc|]; [|eexists _, _; reflexivity].
  unfold bind at 1. unfold gets at 1. unfold bind at 1.
  destruct (forEachUntil_no_throw (hookReturnModeTable st) _
              (tryReturnModeHook_no_throw mlSrc field) st) as ([b|] & st1 & ->);
    [eexists _, _; reflexivity|].
  unfold bind at 1. unfold gets at 1. unfold bind at 1.
  destruct (forEachUntil_no_throw (hookTable st1) _
              (tryHook_no_throw mlSrc field) st1) as ([b|] & st2 & ->);
    [eexists _, _; reflexivity|].
  unfold elSetAttribute, bind, gets, liftResult, modify, ret, set_element, setAttribute.
  rewrite Hvalid. cbn. eexists _, _. reflexivity.
Qed.

End FurtherDoHook.

Lemma firstAccepted_None src hooks :
  firstAccepted src hooks = None -> Forall (returnModeHookDeclines src) hooks.
Proof.
  induction hooks as [|[k h] hooks IH]; [constructor|].
  cbn [firstAccepted]. intros Hnone. constructor.
  - unfold returnModeHookDeclines. cbn [snd].
    destruct (h src) as [[[|] v]|e]; [discriminate | exact I | exact I].
  - apply IH. destruct (h src) as [[[|] v]|e]; [discriminate | exact Hnone | exact Hnone].
Qed.

Section FurtherDoHookCallback.

Context {W A : Type}.
Implicit Types (callback : string -> M W A) (w : W).

Lemma tryHookCallback_declines src callback entry st w :
  returnModeHookDeclines src entry ->
  exists evs,
    tryHookCallback src callback entry (st, w)
    = (Ok None, (withHookEvents evs st, w)).
Proof.
  destruct entry as [k h]. unfold returnModeHookDeclines. cbn [snd].
  unfold tryHookCallback, try_catch, bind, liftResult, ret, onFst, hookEmit, modify.
  destruct (h src) as [[[|] v]|e]; [contradiction| |]; intros _; cbn.
  - exists []. now rewrite withHookEvents_nil.
  - eexists. unfold withHookEvents. cbn. rewrite <- List.app_assoc. reflexivity.
Qed.

Lemma callbackLoop_declines src callback hooks st w :
  Forall (returnModeHookDeclines src) hooks ->
  exists evs,
    forEachUntil hooks (tryHookCallback src callback) (st, w)
    = (Ok None, (withHookEvents evs st, w)).
Proof.
  intros Hall. revert st. induction Hall as [|entry hooks Hd _ IH]; intros st.
  - exists []. now rewrite withHookEvents_nil.
  - rewrite forEachUntil_cons.
    destruct (tryHookCallback_declines src callback entry st w Hd) as [evs1 ->].
    destruct (IH (withHookEvents evs1 st)) as [evs2 ->].
    exists (evs1 ++ evs2). now rewrite withHookEvents_app.
Qed.

Lemma callbackLoop_accepts src callback hooks st w v a w' :
  firstAccepted src hooks = Some v ->
  callback v w = (Ok a, w') ->
  exists evs,
    forEachUntil hooks (tryHookCallback src callback) (st, w)
    = (Ok (Some (true, a)), (withHookEvents evs st, w')).
Proof.
  intros Hacc Hcall. revert st Hacc.
  induction hooks as [|[k h] hooks IH]; intros st Hacc; [discriminate|].
  rewrite forEachUntil_cons. cbn [firstAccepted] in Hacc.
  destruct (h src) as [[[|] x]|e] eqn:Eh.
  - injection Hacc as ->. exists [].
    unfold tryHookCallback, try_catch, bind, liftResult, ret, onSnd.
    rewrite Eh. cbn. rewrite Hcall. now rewrite withHookEvents_nil.
  - destruct (tryHookCallback_declines src callback (k, h) st w) as [evs1 ->].
    { unfold returnModeHookDeclines. cbn [snd]. now rewrite Eh. }
    destruct (IH (withHookEvents evs1 st) Hacc) as [evs2 ->].
    exists (evs1 ++ evs2). now rewrite withHookEvents_app.
  - destruct (tryHookCallback_declines src callback (k, h) st w) as [evs1 ->].
    { unfold returnModeHookDeclines. cbn [snd]. now rewrite Eh. }
    destruct (IH (withHookEvents evs1 st) Hacc) as [evs2 ->].
    exists (evs1 ++ evs2). now rewrite withHookEvents_app.
Qed.

(** When the callback returns on the source it is handed,
    [doHookCallback] calls it exactly once: with the value of the first
    return-mode hook that takes [src], the flag of the result being
    true, or, when [src] is empty or no hook takes it, with [src]
    itself, the flag being false. The result carries what the callback
    returned, and the tables and the element are unchanged. *)
Theorem doHookCallback_calls_callback_once (src : string) (callback : string -> M W A)
    (st : HtmlTagSrcHook) (w w' : W) (a : A) :
  callback (chosenSource src (hookReturnModeTable st)) w = (Ok a, w') ->
  exists evs,
    doHookCallback src callback (st, w)
    = (Ok (sourceTaken src (hookReturnModeTable st), a), (withHookEvents evs st, w')).
Proof.
  unfold chosenSource, sourceTaken, doHookCallback.
  destruct (String.eqb src EmptyString); intros Hcall.
  - eexists. unfold bind, onFst, onSnd, hookEmit, modify, ret. cbn.
    rewrite Hcall. unfold withHookEvents. cbn. rewrite <- List.app_assoc. reflexivity.
  - unfold bind at 1. unfold onFst at 1, gets at 1. cbn [fst snd].
    unfold bind at 1.
    destruct (firstAccepted src (hookReturnModeTable st)) as [v|] eqn:Eacc.
    + cbn [default] in Hcall.
      destruct (callbackLoop_accepts src callback _ st w v a w' Eacc Hcall)
        as [evs ->].
      now exists evs.
    + cbn [default] in Hcall.
      destruct (callbackLoop_declines src callback _ st w (firstAccepted_None _ _ Eacc))
        as [evs ->].
      exists evs. unfold bind, onSnd, ret. cbn. now rewrite Hcall.
Qed.

(** The call of the callback stands inside the [try] of the loop: when
    the callback throws on the value of the hook that took [src], the
    error is logged as an error of that hook and the loop goes on; if
    no later hook takes [src], the callback is called a second time,
    with [src], on the state its first call left, and the flag of the
    result is false. What that second call throws reaches the
    caller. *)
Theorem doHookCallback_retries_after_callback_error (src hookKey v : string)
    (hook : HtmlTagSrcReturnModeHookType)
    (before after : list (string * HtmlTagSrcReturnModeHookType))
    (callback : string -> M W A) (st : HtmlTagSrcHook) (w w1 : W) (e : JsError) :
  src <> EmptyString ->
  hookReturnModeTable st = before ++ (hookKey, hook) :: after ->
  Forall (returnModeHookDeclines src) before ->
  hook src = Ok (true, v) ->
  callback v w = (Throw e, w1) ->
  Forall (returnModeHookDeclines src) after ->
  exists evs,
    doHookCallback src callback (st, w)
    = (flagged false (fst (callback src w1)),
       (withHookEvents evs st, snd (callback src w1)))
    /\ In (LoggerError
             ("[HtmlTagSrcHook] doHookCallback: call hookKey[" +:+ hookKey
              +:+ "] error [" +:+ errorMessageOrText e +:+ "]")) evs.
Proof.
  intros Hsrc Htable Hbefore Hhook Hcall Hafter.
  destruct (callbackLoop_declines src callback before st w Hbefore) as [evs1 E1].
  set (errs :=
    [ConsoleError "[HtmlTagSrcHook] doHookCallback: call hookKey error"
       [hookKey; errorText e];
     LoggerError ("[HtmlTagSrcHook] doHookCallback: call hookKey[" +:+ hookKey
                  +:+ "] error [" +:+ errorMessageOrText e +:+ "]")]).
  destruct (callbackLoop_declines src callback after
              (withHookEvents (evs1 ++ errs) st) w1 Hafter) as [evs3 E3].
  exists ((evs1 ++ errs) ++ evs3). split.
  2: { apply in_or_app. left. apply in_or_app. right. right. now left. }
  unfold doHookCallback.
  destruct (String.eqb_spec src EmptyString) as [|_]; [contradiction|].
  unfold bind at 1. unfold onFst at 1, gets at 1. cbn [fst snd].
  rewrite Htable. unfold bind at 1.
  rewrite (forEachUntil_app _ _ _ _ _ E1), forEachUntil_cons.
  assert (Hstep : tryHookCallback src callback (hookKey, hook)
                    (withHookEvents evs1 st, w)
                  = (Ok None, (withHookEvents (evs1 ++ errs) st, w1))).
  { unfold tryHookCallback, try_catch, bind, liftResult, ret, onSnd, onFst, hookEmit,
      modify.
    rewrite Hhook. cbn. rewrite Hcall. cbn.
    unfold withHookEvents, errs. cbn. now rewrite <- !List.app_assoc. }
  rewrite Hstep, E3. rewrite withHookEvents_app.
  unfold bind, onSnd, ret, flagged. cbn.
  now destruct (callback src w1) as [[a|e'] w2].
Qed.

End FurtherDoHookCallback.

(** ** [SC2DataManager]: the validation pass *)

(** [checkSC2Data] reads only: on every document, one without a
    story-data root included, it returns false without throwing, sends
    exactly one [console.error] entry naming the check that failed,
    never the warning about additional nodes, and changes neither the
    document nor the caches. *)
Theorem checkSC2Data_reports_one_error (st : SC2DataManager) :
  exists check,
    checkSC2Data st
    = (Ok false,
       set_events
         (events st ++ [ConsoleError ("checkSC2Data() (" +:+ check +:+ ")") []]) st)
    /\ In check ["rNodes.length !== 1"; "stNodes.length !== 1"; "scNodes.length !== 1";
                 "passageDataNodes.length < 1"].
Proof.
  unfold checkSC2Data. unfold bind at 1. unfold gets at 1.
  destruct (getElementsByTagName (document st) "tw-storydata")
    as [|rNode [|r2 rNodes]] eqn:Eroot.
  - exists "rNodes.length !== 1". split; [reflexivity | now left].
  - destruct (negb (Nat.eqb (length (getElementsByTagName rNode "style")) 1)).
    { exists "stNodes.length !== 1". split; [reflexivity | right; now left]. }
    destruct (negb (Nat.eqb (length (getElementsByTagName rNode "script")) 1)).
    { exists "scNodes.length !== 1". split; [reflexivity | right; right; now left]. }
    rewrite (single_root_has_no_nested_root _ _ Eroot).
    exists "passageDataNodes.length < 1".
    split; [reflexivity | right; right; right; now left].
  - exists "rNodes.length !== 1". split; [reflexivity | now left].
Qed.

(** ** [SC2DataManager]: the two snapshots *)

(** On a manager that holds no snapshot yet, the first
    [getSC2DataInfoAfterPatch] captures the origin snapshot and the
    after-patch snapshot, both from the render tree as it is, into two
    different objects of equal content, and returns the second: an
    in-place edit of the after-patch snapshot cannot reach the origin
    snapshot. The document is not changed. *)
Theorem getSC2DataInfoAfterPatch_first_access (env : Imports) (st : SC2DataManager)
    (root : Node) :
  rootOf st = Some root ->
  originSC2DataInfoCache st = None ->
  cSC2DataInfoAfterPatchCache st = None ->
  exists st',
    getSC2DataInfoAfterPatch env st = (Ok (S (length (heap st))), st')
    /\ originSC2DataInfoCache st' = Some (length (heap st))
    /\ cSC2DataInfoAfterPatchCache st' = Some (S (length (heap st)))
    /\ heap st' = heap st ++ [captureOf env root; captureOf env root]
    /\ document st' = document st.
Proof.
  intros Hroot Ho Hc.
  rewrite (getSC2DataInfoAfterPatch_capture env st root Hroot Hc).
  destruct st as [doc next h o c started loader conflicts evs created].
  cbn [originSC2DataInfoCache cSC2DataInfoAfterPatchCache] in Ho, Hc. subst o c.
  unfold initialized, recaptured.
  cbn [heap set_heap set_originSC2DataInfoCache set_cSC2DataInfoAfterPatchCache
       set_events originSC2DataInfoCache cSC2DataInfoAfterPatchCache document].
  assert (Hlen : length (h ++ [captureOf env root]) = S (length h))
    by (rewrite length_app; cbn [length]; lia).
  rewrite Hlen. eexists. split; [reflexivity|].
  split; [reflexivity|]. split; [reflexivity|].
  split; [now rewrite <- List.app_assoc | reflexivity].
Qed.

(** [cleanAllCacheAfterModLoadEnd] empties both caches and cleans the
    two snapshot objects in place, so that a reference handed out
    earlier by [getSC2DataInfoCache] or [getSC2DataInfoAfterPatch] now
    reads a cleaned object. The manager stays usable: the next
    [getSC2DataInfoCache] captures a snapshot anew, into a new object,
    from the render tree as it is at that call, not as it was when the
    first origin snapshot was taken. *)
Theorem cleanAllCacheAfterModLoadEnd_then_access (env : Imports) (st : SC2DataManager)
    (o c : nat) (root : Node) :
  originSC2DataInfoCache st = Some o ->
  cSC2DataInfoAfterPatchCache st = Some c ->
  rootOf st = Some root ->
  exists st1 st2,
    cleanAllCacheAfterModLoadEnd env st = (Ok tt, st1)
    /\ originSC2DataInfoCache st1 = None
    /\ cSC2DataInfoAfterPatchCache st1 = None
    /\ heap st1 = alter (clean env) c (alter (clean env) o (heap st))
    /\ document st1 = document st
    /\ getSC2DataInfoCache env st1 = (Ok (Some (length (heap st))), st2)
    /\ heap st2 = heap st1 ++ [captureOf env root]
    /\ cSC2DataInfoAfterPatchCache st2 = None.
Proof.
  intros Ho Hc Hroot.
  destruct st as [doc next h o' c' started loader conflicts evs created].
  cbn [originSC2DataInfoCache cSC2DataInfoAfterPatchCache] in Ho, Hc. subst o' c'.
  eexists _, _.
  split; [run_manager; reflexivity|].
  split; [reflexivity|]. split; [reflexivity|]. split; [reflexivity|].
  split; [reflexivity|].
  run_manager_with Hroot.
  rewrite !length_alter.
  split; [reflexivity|]. split; reflexivity.
Qed.

(** ** [SC2DataManager]: [patchModToGame] and [startInit] from end to end *)

(** The swap step on a flat root: it ends normally, and it writes
    nothing but the document, the sorted script list of the snapshot
    and the counter of node identities. *)
Lemma patchModToGame_swap_run target st root v :
  rootOf st = Some root ->
  uniqueIds root ->
  flatRoot root ->
  heap st !! target = Some v ->
  exists st' root',
    patchModToGame_swap target st = (Ok tt, st')
    /\ rootOf st' = Some root'
    /\ childNodes root'
       = List.filter (fun n => negb (isPatchedKind n)) (childNodes root)
         ++ scriptNodeOf (nextNodeId st) (sortScriptFileItems (scriptFileItems v))
            :: styleNodeOf (nextNodeId st + 2) (styleFileItems v)
            :: passageNodesFrom (nextNodeId st + 4) (passageDataItems v)
    /\ st' = set_document (document st')
               (set_nextNodeId (nextNodeId st + 4 + 2 * length (passageDataItems v))%nat
                  (set_heap
                     (<[target := set_scriptFileItems
                                    (sortScriptFileItems (scriptFileItems v)) v]>
                        (heap st)) st)).
Proof.
  intros Hroot Hu Hflat Hv.
  rewrite (patchModToGame_swap_build target st v Hv).
  match goal with |- context [bind _ _ ?s] => set (built := s) end.
  assert (HrootB : rootOf built = Some root)
    by (rewrite <- Hroot; now apply rootOf_same_document).
  destruct (swap_removals_total root Hu Hflat) as (r1 & r2 & r3 & E1 & E2 & E3).
  rewrite bind_run. unfold rootNode at 1, gets at 1.
  unfold styleNode, scriptNode, passageDataNodeList.
  do 4 rewrite bind_run, (rootElements_run _ built root HrootB).
  rewrite bind_run.
  pose proof (forEach_rootRemoveChild (getElementsByTagName root "style") built root
                HrootB) as H1.
  rewrite E1 in H1. destruct H1 as (s1 & Hrun1 & Hroot1 & Hs1). rewrite Hrun1.
  rewrite bind_run, (rootElements_run _ s1 r1 Hroot1), bind_run.
  pose proof (forEach_rootRemoveChild (getElementsByTagName r1 "script") s1 r1
                Hroot1) as H2.
  rewrite E2 in H2. destruct H2 as (s2 & Hrun2 & Hroot2 & Hs2). rewrite Hrun2.
  rewrite bind_run.
  pose proof (forEach_rootRemoveChild (getElementsByTagName root "tw-passagedata")
                s2 r2 Hroot2) as H3.
  rewrite E3 in H3. destruct H3 as (s3 & Hrun3 & Hroot3 & Hs3). rewrite Hrun3.
  set (new := scriptNodeOf (nextNodeId st) (sortScriptFileItems (scriptFileItems v))
              :: styleNodeOf (nextNodeId st + 2) (styleFileItems v)
              :: passageNodesFrom (nextNodeId st + 4) (passageDataItems v)).
  match goal with
  | |- exists _ _, ?m s3 = _ /\ _ =>
      change (m s3) with (forEach new rootAppendChild s3)
  end.
  destruct (forEach_rootAppendChild new s3 r3 Hroot3) as (s4 & Hrun4 & Hroot4 & Hs4).
  destruct (swap_removals root r1 r2 r3 Hu E1 E2 E3) as (Hkept & _).
  exists s4, (withChildrenAppended new r3).
  split; [exact Hrun4|]. split; [exact Hroot4|].
  split; [unfold withChildrenAppended; cbn [childNodes]; now rewrite Hkept|].
  rewrite Hs4 at 1. rewrite Hs3, Hs2, Hs1. reflexivity.
Qed.

Lemma patchModToGame_merge_frame env st root :
  rootOf st = Some root ->
  nextNodeId (snd (patchModToGame_merge env st)) = nextNodeId st
  /\ conflictResult (snd (patchModToGame_merge env st)) = conflictResult st
  /\ exists evs,
       events (snd (patchModToGame_merge env st))
       = events st ++ PatchModToGame_start :: evs.
Proof.
  intros Hroot.
  destruct st as [doc next h [o|] c started loader conflicts evs [|]].
  all: unfold patchModToGame_merge; run_manager_rw Hroot.
  all: split; [reflexivity|]; split; [reflexivity|].
  all: eexists; rewrite <- !List.app_assoc; reflexivity.
Qed.

Lemma refreshed_frame env root s :
  nextNodeId (refreshed env root s) = nextNodeId s
  /\ startInitOk (refreshed env root s) = startInitOk s
  /\ modLoader (refreshed env root s) = modLoader s
  /\ conflictResult (refreshed env root s) = conflictResult s
  /\ (forall o, originSC2DataInfoCache s = Some o ->
        originSC2DataInfoCache (refreshed env root s) = Some o)
  /\ modLoaderCreated (refreshed env root s) = modLoaderCreated s
  /\ exists evs, events (refreshed env root s) = events s ++ evs.
Proof.
  destruct s as [doc next h [o|] c started loader conflicts evs created];
    unfold refreshed, recaptured, initialized;
    cbn [originSC2DataInfoCache set_cSC2DataInfoAfterPatchCache set_heap set_events
         set_originSC2DataInfoCache heap cSC2DataInfoAfterPatchCache document events
         nextNodeId startInitOk modLoader conflictResult modLoaderCreated];
    repeat (split; [try reflexivity; try discriminate; auto|]); eexists; reflexivity.
Qed.

Lemma swap_state_frame d n h st :
  events (set_document d (set_nextNodeId n (set_heap h st))) = events st
  /\ startInitOk (set_document d (set_nextNodeId n (set_heap h st))) = startInitOk st
  /\ modLoader (set_document d (set_nextNodeId n (set_heap h st))) = modLoader st
  /\ conflictResult (set_document d (set_nextNodeId n (set_heap h st)))
     = conflictResult st
  /\ originSC2DataInfoCache (set_document d (set_nextNodeId n (set_heap h st)))
     = originSC2DataInfoCache st
  /\ modLoaderCreated (set_document d (set_nextNodeId n (set_heap h st)))
     = modLoaderCreated st.
Proof. destruct st. repeat split; reflexivity. Qed.

Lemma patched_frame target v evs st :
  events (patched target v evs st) = events st ++ evs
  /\ startInitOk (patched target v evs st) = startInitOk st
  /\ modLoader (patched target v evs st) = modLoader st
  /\ conflictResult (patched target v evs st) = conflictResult st
  /\ nextNodeId (patched target v evs st) = nextNodeId st
  /\ document (patched target v evs st) = document st
  /\ originSC2DataInfoCache (patched target v evs st) = originSC2DataInfoCache st
  /\ modLoaderCreated (patched target v evs st) = modLoaderCreated st.
Proof. destruct st. repeat split; reflexivity. Qed.

Lemma patchModToGame_run env st root :
  rootOf st = Some root ->
  uniqueIds root ->
  flatRoot root ->
  let final :=
    afterPatchSteps (patchSteps (modLoader st))
      (mergedOnto env (captureOf env root) (modLoader st)) in
  exists st' root' r evs,
    patchModToGame env st = (Ok tt, st')
    /\ rootOf st' = Some root'
    /\ childNodes root'
       = List.filter (fun n => negb (isPatchedKind n)) (childNodes root)
         ++ scriptNodeOf (nextNodeId st) (sortScriptFileItems (scriptFileItems final))
            :: styleNodeOf (nextNodeId st + 2) (styleFileItems final)
            :: passageNodesFrom (nextNodeId st + 4) (passageDataItems final)
    /\ cSC2DataInfoAfterPatchCache st' = Some r
    /\ heap st' !! r = Some (captureOf env root')
    /\ events st' = events st ++ PatchModToGame_start :: evs ++ [PatchModToGame_end]
    /\ startInitOk st' = startInitOk st
    /\ modLoader st' = modLoader st
    /\ conflictResult st' = conflictResult st
    /\ modLoaderCreated st' = true.
Proof.
  intros Hroot Hu Hflat final.
  destruct (patchModToGame_merge_run env st root Hroot)
    as (baseline & target & st1 & Hmerge & _ & _ & _ & Htarget & Hloader & Hdoc & Hok
        & Hcreated).
  destruct (patchModToGame_merge_frame env st root Hroot) as (Hnext & Hconf & evs1 & Hevs1).
  rewrite Hmerge in Hnext, Hconf, Hevs1. cbn [snd] in Hnext, Hconf, Hevs1.
  pose proof (applyReplacePatcher_run target st1 _ Htarget) as Happly.
  rewrite Hloader, (withModLoader_of_created _ Hcreated) in Happly.
  fold final in Happly.
  set (st2 := patched target final
                (patchStepsEvents (patchSteps (modLoader st))
                   (mergedOnto env (captureOf env root) (modLoader st))) st1)
    in Happly.
  assert (Hroot2 : rootOf st2 = Some root).
  { rewrite <- Hroot. unfold rootOf, st2, patched. cbn [document set_events set_heap].
    now rewrite Hdoc. }
  assert (Htarget2 : heap st2 !! target = Some final)
    by (now apply (patched_lookup _ _ _ _ _ Htarget)).
  destruct (patchModToGame_swap_run target st2 root final Hroot2 Hu Hflat Htarget2)
    as (st3 & root' & Hswap & Hroot3 & Hchildren & Hst3).
  pose proof (flushAfterPatchCache_run env st3 root' Hroot3) as Hflush.
  destruct (refreshed_facts env root' st3) as (r & o & Hc & Hh & _ & Hd).
  destruct (refreshed_frame env root' st3)
    as (_ & Hok4 & Hloader4 & Hconf4 & _ & Hcreated4 & evs4 & Hevs4).
  exists (set_events (events (refreshed env root' st3) ++ [PatchModToGame_end])
            (refreshed env root' st3)), root', r.
  exists (evs1
          ++ patchStepsEvents (patchSteps (modLoader st))
               (mergedOnto env (captureOf env root) (modLoader st))
          ++ evs4).
  split.
  { unfold patchModToGame.
    rewrite bind_run, Hmerge, bind_run, Happly, bind_run, Hswap, bind_run, Hflush.
    reflexivity. }
  split; [unfold rootOf in *; cbn [document set_events]; now rewrite Hd|].
  split.
  { rewrite Hchildren.
    assert (Hnext2 : nextNodeId st2 = nextNodeId st1) by (now destruct st1).
    now rewrite Hnext2, Hnext. }
  split; [cbn [cSC2DataInfoAfterPatchCache set_events]; exact Hc|].
  split; [cbn [heap set_events]; exact Hh|].
  destruct (swap_state_frame (document st3)
              (nextNodeId st2 + 4 + 2 * length (passageDataItems final))%nat
              (<[target := set_scriptFileItems
                             (sortScriptFileItems (scriptFileItems final)) final]>
                 (heap st2)) st2) as (Hevs3 & Hok3 & Hloader3 & Hconf3 & _ & Hcreated3).
  rewrite <- Hst3 in Hevs3, Hok3, Hloader3, Hconf3, Hcreated3.
  destruct (patched_frame target final
              (patchStepsEvents (patchSteps (modLoader st))
                 (mergedOnto env (captureOf env root) (modLoader st))) st1)
    as (Hevs2 & Hok2 & Hloader2 & Hconf2 & _ & _ & _ & Hcreated2).
  fold st2 in Hevs2, Hok2, Hloader2, Hconf2, Hcreated2.
  split.
  { cbn [events set_events]. rewrite Hevs4, Hevs3, Hevs2, Hevs1.
    rewrite <- !List.app_assoc. reflexivity. }
  cbn [startInitOk modLoader conflictResult modLoaderCreated set_events].
  rewrite Hok4, Hloader4, Hconf4, Hok3, Hloader3, Hconf3, Hok2, Hloader2, Hconf2.
  rewrite Hcreated4, Hcreated3, Hcreated2, Hcreated.
  now rewrite Hok, Hloader, Hconf.
Qed.

(** On a document whose story-data root is flat, [patchModToGame] runs
    to its end whatever mods are loaded, also when their patchers
    throw. The root then holds its former children that are not style,
    script or passage nodes, followed by the nodes built from the
    baseline snapshot with the mods merged onto it and the patchers
    applied; the after-patch cache holds a snapshot of that new tree;
    and [PatchModToGame_end] is the last event sent. *)
Theorem patchModToGame_end_to_end (env : Imports) (st : SC2DataManager) (root : Node) :
  rootOf st = Some root ->
  uniqueIds root ->
  flatRoot root ->
  let final :=
    afterPatchSteps (patchSteps (modLoader st))
      (mergedOnto env (captureOf env root) (modLoader st)) in
  exists st' root' r evs,
    patchModToGame env st = (Ok tt, st')
    /\ rootOf st' = Some root'
    /\ childNodes root'
       = List.filter (fun n => negb (isPatchedKind n)) (childNodes root)
         ++ scriptNodeOf (nextNodeId st) (sortScriptFileItems (scriptFileItems final))
            :: styleNodeOf (nextNodeId st + 2) (styleFileItems final)
            :: passageNodesFrom (nextNodeId st + 4) (passageDataItems final)
    /\ cSC2DataInfoAfterPatchCache st' = Some r
    /\ heap st' !! r = Some (captureOf env root')
    /\ events st' = events st ++ PatchModToGame_start :: evs ++ [PatchModToGame_end].
Proof.
  intros Hroot Hu Hflat final.
  destruct (patchModToGame_run env st root Hroot Hu Hflat)
    as (st' & root' & r & evs & Hrun & Hroot' & Hchildren & Hc & Hh & Hevs & _).
  exists st', root', r, evs. repeat split; assumption.
Qed.

(** Without a story-data root, [patchModToGame] throws the
    [TypeError] of the first getter after [PatchModToGame_start] and
    its call of [getModLoader()], which logs the controller if it is
    the first: no mod is merged, no patcher runs, [PatchModToGame_end]
    is never sent, the document and the store are untouched, and the
    after-patch cache, which is cleared before it is refilled, is left
    empty even if it held a snapshot before. *)
Theorem patchModToGame_without_root (env : Imports) (st : SC2DataManager) :
  rootOf st = None ->
  exists st',
    patchModToGame env st = (Throw undefinedRootError, st')
    /\ events st'
       = events st
         ++ PatchModToGame_start
            :: (if modLoaderCreated st then []
                else [ConsoleLog "this.modLoadControllerCallback" []])
    /\ modLoaderCreated st' = true
    /\ cSC2DataInfoAfterPatchCache st' = None
    /\ originSC2DataInfoCache st' = originSC2DataInfoCache st
    /\ heap st' = heap st
    /\ document st' = document st.
Proof.
  intros Hroot.
  destruct st as [doc next h [o|] c started loader conflicts evs [|]].
  all: eexists; unfold patchModToGame, patchModToGame_merge; run_manager_rw Hroot.
  all: cbn [app]; rewrite <- ?List.app_assoc; repeat split; reflexivity.
Qed.

Lemma startInit_enter_run env st root :
  startInitOk st = false ->
  rootOf st = Some root ->
  startInit_enter env st = (Ok true, startInit_entered env root st).
Proof.
  intros Hok Hroot.
  destruct st as [doc next h [o|] c started loader conflicts evs [|]];
    cbn [startInitOk] in Hok; subst started;
    unfold startInit_enter, startInit_entered, withModLoader;
    run_manager_with Hroot; reflexivity.
Qed.

Lemma startInit_entered_frame env root st :
  rootOf (startInit_entered env root st) = rootOf st
  /\ nextNodeId (startInit_entered env root st) = nextNodeId st
  /\ modLoader (startInit_entered env root st) = modLoader st
  /\ startInitOk (startInit_entered env root st) = true
  /\ modLoaderCreated (startInit_entered env root st) = true
  /\ events (startInit_entered env root st)
     = events st
       ++ ConsoleLog "ModLoader ====== SC2DataManager startInit() start" []
          :: (if modLoaderCreated st then []
              else [ConsoleLog "this.modLoadControllerCallback" []])
       ++ [LoadMod].
Proof.
  destruct st as [doc next h [o|] c started loader conflicts evs [|]];
    unfold startInit_entered, withModLoader, initialized, rootOf;
    cbn [originSC2DataInfoCache modLoaderCreated set_events set_startInitOk
         set_originSC2DataInfoCache set_heap set_modLoaderCreated document nextNodeId
         heap cSC2DataInfoAfterPatchCache startInitOk modLoader conflictResult events
         app];
    rewrite <- ?List.app_assoc; repeat split; reflexivity.
Qed.

Lemma startInit_resume_run env st root :
  modLoaderCreated st = true ->
  rootOf st = Some root ->
  uniqueIds root ->
  flatRoot root ->
  let loaded := loadMod env (modLoader st) in
  let final :=
    afterPatchSteps (patchSteps loaded) (mergedOnto env (captureOf env root) loaded) in
  exists st' root' evs,
    startInit_resume env st = (Ok tt, st')
    /\ rootOf st' = Some root'
    /\ childNodes root'
       = List.filter (fun n => negb (isPatchedKind n)) (childNodes root)
         ++ scriptNodeOf (nextNodeId st) (sortScriptFileItems (scriptFileItems final))
            :: styleNodeOf (nextNodeId st + 2) (styleFileItems final)
            :: passageNodesFrom (nextNodeId st + 4) (passageDataItems final)
    /\ startInitOk st' = startInitOk st
    /\ modLoaderCreated st' = true
    /\ modLoader st' = loaded
    /\ conflictResult st' = Some (checkModConflictList env loaded)
    /\ events st'
       = events st
         ++ [DependenceCheck;
             ConsoleLog "ModLoader ====== mod conflictResult"
               (map conflictMod (checkModConflictList env loaded));
             TriggerHook "beforePatchModToGame"; PatchModToGame_start]
         ++ evs
         ++ [PatchModToGame_end; TriggerHook "afterPatchModToGame";
             LoggerInfo
               "ModLoader ====== SC2DataManager startInit() end. To Start JsPreloader....."].
Proof.
  intros Hcreated Hroot Hu Hflat loaded final.
  destruct st as [doc next h o c started loader conflicts evs0 created].
  cbn [modLoader] in loaded. cbn [modLoaderCreated] in Hcreated. subst created.
  set (sB := mkManager doc next h o c started loaded
               (Some (checkModConflictList env loaded))
               (evs0 ++ [DependenceCheck;
                         ConsoleLog "ModLoader ====== mod conflictResult"
                           (map conflictMod (checkModConflictList env loaded));
                         TriggerHook "beforePatchModToGame"]) true).
  assert (Hprefix : startInit_resume env
                      (mkManager doc next h o c started loader conflicts evs0 true)
                    = (patchModToGame env ;;;
                       emit (TriggerHook "afterPatchModToGame") ;;;
                       emit (LoggerInfo
    "ModLoader ====== SC2DataManager startInit() end. To Start JsPreloader.....")) sB).
  { unfold startInit_resume, sB.
    cbv [bind ret emit modify gets getModLoader set_events set_modLoader
         set_conflictResult set_modLoaderCreated
         document nextNodeId heap originSC2DataInfoCache cSC2DataInfoAfterPatchCache
         startInitOk modLoader conflictResult events modLoaderCreated].
    rewrite <- !List.app_assoc. reflexivity. }
  assert (HrootB : rootOf sB = Some root) by exact Hroot.
  destruct (patchModToGame_run env sB root HrootB Hu Hflat)
    as (st1 & root' & r & evs & Hrun & Hroot1 & Hchildren & _ & _ & Hevs & Hok
        & Hloader & Hconf & Hcreated1).
  exists (set_events
            ((events st1 ++ [TriggerHook "afterPatchModToGame"])
             ++ [LoggerInfo
    "ModLoader ====== SC2DataManager startInit() end. To Start JsPreloader....."]) st1),
    root', evs.
  split.
  { rewrite Hprefix, bind_run, Hrun. destruct st1. reflexivity. }
  split; [exact Hroot1|].
  split; [exact Hchildren|].
  cbn [startInitOk modLoader conflictResult events modLoaderCreated set_events].
  split; [exact Hok|]. split; [exact Hcreated1|]. split; [exact Hloader|].
  split; [exact Hconf|].
  rewrite Hevs. unfold sB. cbn [events].
  repeat (rewrite <- !List.app_assoc; cbn [app]). reflexivity.
Qed.

Lemma initialized_frame env root s :
  rootOf (initialized env root s) = rootOf s
  /\ nextNodeId (initialized env root s) = nextNodeId s
  /\ modLoader (initialized env root s) = modLoader s
  /\ startInitOk (initialized env root s) = startInitOk s
  /\ events (initialized env root s) = events s.
Proof.
  destruct s as [doc next h [o|] c started loader conflicts evs created];
    repeat split; reflexivity.
Qed.

(** The first invocation of [startInit] on a document whose story-data
    root is flat runs to its end, whatever [loadMod] loads and also
    when patchers throw: the loader is created if [getModLoader()] has
    not been called before, which logs the controller; the mods are
    loaded, the dependency check and the conflict check run,
    [beforePatchModToGame] is triggered, the tree is patched from the
    loaded mods, [afterPatchModToGame] is triggered, in this order;
    afterwards the guard is set and [getConflictResult] returns the
    conflicts of the loaded mods. *)
Theorem startInit_first_invocation_completes (env : Imports) (st : SC2DataManager)
    (root : Node) :
  startInitOk st = false ->
  rootOf st = Some root ->
  uniqueIds root ->
  flatRoot root ->
  let loaded := loadMod env (modLoader st) in
  let final :=
    afterPatchSteps (patchSteps loaded) (mergedOnto env (captureOf env root) loaded) in
  exists st' root' evs,
    startInit env st = (Ok tt, st')
    /\ startInitOk st' = true
    /\ modLoaderCreated st' = true
    /\ modLoader st' = loaded
    /\ getConflictResult st' = (Ok (Some (checkModConflictList env loaded)), st')
    /\ rootOf st' = Some root'
    /\ childNodes root'
       = List.filter (fun n => negb (isPatchedKind n)) (childNodes root)
         ++ scriptNodeOf (nextNodeId st) (sortScriptFileItems (scriptFileItems final))
            :: styleNodeOf (nextNodeId st + 2) (styleFileItems final)
            :: passageNodesFrom (nextNodeId st + 4) (passageDataItems final)
    /\ events st'
       = events st
         ++ ConsoleLog "ModLoader ====== SC2DataManager startInit() start" []
            :: (if modLoaderCreated st then []
                else [ConsoleLog "this.modLoadControllerCallback" []])
         ++ [LoadMod; DependenceCheck;
             ConsoleLog "ModLoader ====== mod conflictResult"
               (map conflictMod (checkModConflictList env loaded));
             TriggerHook "beforePatchModToGame"; PatchModToGame_start]
         ++ evs
         ++ [PatchModToGame_end; TriggerHook "afterPatchModToGame";
             LoggerInfo
               "ModLoader ====== SC2DataManager startInit() end. To Start JsPreloader....."].
Proof.
  intros Hok Hroot Hu Hflat loaded final.
  pose proof (startInit_enter_run env st root Hok Hroot) as Henter.
  destruct (startInit_entered_frame env root st)
    as (HrootA & HnextA & HloaderA & HokA & HcreatedA & HevsA).
  set (sA := startInit_entered env root st) in *.
  rewrite Hroot in HrootA.
  destruct (startInit_resume_run env sA root HcreatedA HrootA Hu Hflat)
    as (st' & root' & evs & Hrun & Hroot' & Hchildren & Hok' & Hcreated' & Hloader'
        & Hconf' & Hevs').
  rewrite HloaderA in Hchildren, Hloader', Hconf', Hevs'.
  rewrite HnextA in Hchildren. rewrite HokA in Hok'. rewrite HevsA in Hevs'.
  exists st', root', evs.
  split; [unfold startInit; now rewrite bind_run, Henter|].
  split; [exact Hok'|]. split; [exact Hcreated'|]. split; [exact Hloader'|].
  split; [unfold getConflictResult, gets; now rewrite Hconf'|].
  split; [exact Hroot'|]. split; [exact Hchildren|].
  rewrite Hevs'. destruct (modLoaderCreated st); cbn [app];
    repeat (rewrite <- !List.app_assoc; cbn [app]); reflexivity.
Qed.

(** Without a story-data root the first [startInit] throws, from the
    capture of the origin snapshot, after it has set its guard: no mod
    is loaded, and since nothing resets the guard, every later
    invocation is rejected as already started, also on a document that
    has got its root in the meantime. A failed start-up cannot be
    retried. *)
Theorem startInit_failure_is_final (env : Imports) (st : SC2DataManager) :
  startInitOk st = false ->
  rootOf st = None ->
  originSC2DataInfoCache st = None ->
  exists st1,
    startInit env st = (Throw undefinedRootError, st1)
    /\ startInitOk st1 = true
    /\ modLoader st1 = modLoader st
    /\ events st1
       = events st
         ++ [ConsoleLog "ModLoader ====== SC2DataManager startInit() start" []]
    /\ forall doc,
         startInit env (set_document doc st1)
         = (Ok tt,
            set_events
              (events st1
               ++ [ConsoleLog
                     "ModLoader ====== SC2DataManager startInit() already start" []])
              (set_document doc st1)).
Proof.
  intros Hok Hroot Ho.
  destruct st as [doc0 next h o c started loader conflicts evs created].
  cbn [startInitOk originSC2DataInfoCache] in Hok, Ho. subst started o.
  eexists. split.
  { unfold startInit, startInit_enter. run_manager_with Hroot. reflexivity. }
  split; [reflexivity|]. split; [reflexivity|]. split; [reflexivity|].
  intros doc. reflexivity.
Qed.

Lemma removeFirst_In t l x : In x (removeFirst t l) -> In x l.
Proof.
  induction l as [|c l IH]; [trivial|]. cbn [removeFirst].
  destruct (sameNode c t); [now right|]. intros [<-|Hx]; [now left | right; auto].
Qed.

(** One node of the list that is no child of the parent makes the loop
    of [removeChild] calls throw. *)
Lemma removeEach_not_a_child nodes parent s :
  In s nodes ->
  ~ In (nid s) (map nid (childNodes parent)) ->
  removeEach nodes parent = Throw NotFoundError.
Proof.
  revert parent. induction nodes as [|n nodes IH]; intros parent Hs Hnot; [destruct Hs|].
  cbn [removeEach]. unfold removeChild.
  destruct (existsb (fun c => sameNode c n) (childNodes parent)) eqn:Eex; [|reflexivity].
  destruct Hs as [->|Hs].
  - exfalso. apply Hnot. apply List.existsb_exists in Eex as (c & Hc & Hsame).
    apply sameNode_true in Hsame. rewrite <- Hsame. now apply in_map.
  - apply IH; [exact Hs|]. cbn [childNodes].
    intros (x & Hid & Hx)%in_map_iff. apply Hnot. rewrite <- Hid.
    apply in_map. now apply (removeFirst_In n).
Qed.

(** A method call on the root element writes the document only. *)
Lemma onRootNode_frame method f st :
  exists d, snd (onRootNode method f st) = set_document d st.
Proof.
  unfold onRootNode, rootNode. rewrite bind_run. unfold gets.
  destruct (head (getElementsByTagName (document st) "tw-storydata")) as [root|].
  - rewrite bind_run. unfold liftResult.
    destruct (f root) as [root'|e]; cbn [snd modify].
    + eexists. reflexivity.
    + exists (document st). apply set_document_same.
  - exists (document st). apply set_document_same.
Qed.

Lemma forEach_onRootNode_frame method (f : Node -> Node -> Result Node) nodes st :
  exists d,
    snd (forEach nodes (fun n => onRootNode method (f n)) st) = set_document d st.
Proof.
  revert st. induction nodes as [|n nodes IH]; intros st.
  - exists (document st). apply set_document_same.
  - cbn [forEach]. rewrite bind_run.
    destruct (onRootNode_frame method (f n) st) as [d1 H1].
    destruct (onRootNode method (f n) st) as [[[]|e] s1]; cbn [snd] in H1 |- *; subst s1.
    + destruct (IH (set_document d1 st)) as [d2 H2]. exists d2.
      rewrite H2. apply set_document_twice.
    + now exists d1.
Qed.

(** A style node that lies deeper than the children of the root, inside
    another element, stops [patchModToGame]: the [removeChild] of the
    first loop throws [NotFoundError] for it, after the mods have been
    merged and the patchers have run. No new node is appended; the
    after-patch cache is not refreshed and still holds the snapshot
    taken from the tree at the start of the call. *)
Theorem patchModToGame_nested_style_throws (env : Imports) (st : SC2DataManager)
    (root s : Node) :
  rootOf st = Some root ->
  uniqueIds root ->
  In s (getElementsByTagName root "style") ->
  ~ In s (childNodes root) ->
  exists st' baseline,
    patchModToGame env st = (Throw NotFoundError, st')
    /\ cSC2DataInfoAfterPatchCache st' = Some baseline
    /\ heap st' !! baseline = Some (captureOf env root).
Proof.
  intros Hroot Hu Hs Hnot.
  destruct (patchModToGame_merge_run env st root Hroot)
    as (baseline & target & st1 & Hmerge & Hcache & Hbase & Hne & Htarget & Hloader
        & Hdoc & _ & Hcreated).
  pose proof (applyReplacePatcher_run target st1 _ Htarget) as Happly.
  rewrite (withModLoader_of_created _ Hcreated) in Happly.
  match type of Happly with _ = (_, ?s) => set (st2 := s) in Happly end.
  assert (Hroot2 : rootOf st2 = Some root).
  { rewrite <- Hroot. unfold rootOf, st2, patched. cbn [document set_events set_heap].
    now rewrite Hdoc. }
  assert (Htarget2 : exists final, heap st2 !! target = Some final).
  { eexists. now apply (patched_lookup _ _ _ _ _ Htarget). }
  destruct Htarget2 as [final Htarget2].
  assert (Hremove : removeEach (getElementsByTagName root "style") root
                    = Throw NotFoundError).
  { apply (removeEach_not_a_child _ _ s Hs).
    intros (c & Hid & Hc)%in_map_iff. apply Hnot.
    apply getElementsByTagName_In in Hs as [Hs _].
    rewrite <- (NoDup_map_inj nid (descendants root) c s Hu
                  (child_in_descendants root c Hc) Hs Hid).
    exact Hc. }
  assert (Hswap : exists d,
    patchModToGame_swap target st2
    = (Throw NotFoundError,
       set_document d
         (set_nextNodeId (nextNodeId st2 + 4 + 2 * length (passageDataItems final))%nat
            (set_heap
               (<[target := set_scriptFileItems
                              (sortScriptFileItems (scriptFileItems final)) final]>
                  (heap st2)) st2)))).
  { rewrite (patchModToGame_swap_build target st2 final Htarget2).
    match goal with |- context [bind _ _ ?b] => set (built := b) end.
    assert (HrootB : rootOf built = Some root)
      by (rewrite <- Hroot2; now apply rootOf_same_document).
    rewrite bind_run. unfold rootNode at 1, gets at 1.
    unfold styleNode, scriptNode, passageDataNodeList.
    do 4 rewrite bind_run, (rootElements_run _ built root HrootB).
    rewrite bind_run.
    pose proof (forEach_rootRemoveChild (getElementsByTagName root "style") built root
                  HrootB) as H1.
    rewrite Hremove in H1. destruct H1 as (s1 & Hrun1).
    destruct (forEach_onRootNode_frame "removeChild" removeChild
                (getElementsByTagName root "style") built) as [d Hd].
    change (fun n => onRootNode "removeChild" (removeChild n)) with rootRemoveChild in Hd.
    rewrite Hrun1 in Hd |- *. cbn [snd] in Hd. subst s1. now exists d. }
  destruct Hswap as [d Hswap].
  eexists _, baseline. split.
  { unfold patchModToGame.
    rewrite bind_run, Hmerge, bind_run, Happly, bind_run, Hswap. reflexivity. }
  assert (Hcache2 : cSC2DataInfoAfterPatchCache st2 = Some baseline)
    by (rewrite <- Hcache; now destruct st1).
  assert (Hbase2 : heap st2 !! baseline = Some (captureOf env root)).
  { unfold st2, patched. cbn [heap set_events set_heap].
    now rewrite list_lookup_insert_ne. }
  destruct st2 as [doc2 next2 h2 o2 c2 started2 loader2 conflicts2 evs2 created2].
  cbn [cSC2DataInfoAfterPatchCache heap set_document set_nextNodeId set_heap
       document nextNodeId originSC2DataInfoCache startInitOk modLoader conflictResult
       events modLoaderCreated] in *.
  split; [exact Hcache2|].
  now rewrite list_lookup_insert_ne.
Qed.

(** ** The sort of [makeScriptNode], seen as a sort *)

Lemma sort_insert_Permutation {A} (cmp : A -> A -> Z) (x : A) (l : list A) :
  Permutation (sort_insert cmp x l) (x :: l).
Proof.
  induction l as [|y l IH]; [reflexivity|]. cbn [sort_insert].
  destruct (cmp x y <=? 0); [reflexivity|].
  rewrite IH. apply perm_swap.
Qed.

Lemma Array_sort_Permutation {A} (cmp : A -> A -> Z) (l : list A) :
  Permutation (Array_sort cmp l) l.
Proof.
  induction l as [|x l IH]; [reflexivity|].
  unfold Array_sort in *. cbn [foldr]. rewrite sort_insert_Permutation.
  now constructor.
Qed.

Lemma sort_insert_sortedBy {A} (cmp : A -> A -> Z) (x : A) (l : list A) :
  (forall a b, ~ cmp a b <= 0 -> cmp b a <= 0) ->
  sortedBy cmp l -> sortedBy cmp (sort_insert cmp x l).
Proof.
  intros Hcmp. unfold sortedBy. induction l as [|y l IH]; intros Hl; cbn [sort_insert].
  - repeat constructor.
  - apply Sorted_inv in Hl as [Hl Hhd].
    destruct (Z.leb_spec (cmp x y) 0) as [Hle|Hgt].
    + constructor; [now constructor|]. now constructor.
    + constructor; [now apply IH|].
      destruct l as [|w l]; cbn [sort_insert].
      * constructor. apply Hcmp. lia.
      * destruct (cmp x w <=? 0); constructor.
        -- apply Hcmp. lia.
        -- now inversion Hhd.
Qed.

Lemma Array_sort_sortedBy {A} (cmp : A -> A -> Z) (l : list A) :
  (forall a b, ~ cmp a b <= 0 -> cmp b a <= 0) ->
  sortedBy cmp (Array_sort cmp l).
Proof.
  intros Hcmp. induction l as [|x l IH]; [constructor|].
  unfold Array_sort in *. cbn [foldr]. now apply sort_insert_sortedBy.
Qed.

Lemma Array_sort_of_sorted {A} (cmp : A -> A -> Z) (l : list A) :
  sortedBy cmp l -> Array_sort cmp l = l.
Proof.
  unfold sortedBy, Array_sort. induction l as [|x l IH]; [reflexivity|].
  intros [Hl Hhd]%Sorted_inv. cbn [foldr]. rewrite (IH Hl).
  destruct Hhd as [|y l' Hxy]; [reflexivity|]. cbn [sort_insert].
  now destruct (Z.leb_spec (cmp x y) 0) as [_|Hgt]; [|lia].
Qed.

Lemma scriptCompare_connex a b :
  ~ scriptCompare a b <= 0 -> scriptCompare b a <= 0.
Proof.
  unfold scriptCompare, js_gt, js_lt, js_seq.
  destruct (item_id a) as [x|], (item_id b) as [y|]; cbn [isSafeInteger].
  all: repeat match goal with
       | |- context [Z.abs ?z <=? MAX_SAFE_INTEGER] =>
           destruct (Z.abs z <=? MAX_SAFE_INTEGER)
       end; cbn [andb]; try lia.
  destruct (Z.ltb_spec x y), (Z.eqb_spec x y), (Z.ltb_spec y x),
    (Z.eqb_spec y x); lia.
Qed.

(** The sort of [makeScriptNode] reorders and nothing else: its result
    holds the same records, each as often as the input does; every
    record stands before its successor as far as the comparator tells;
    and sorting a second time changes nothing. *)
Theorem sortScriptFileItems_sorts (items : list SC2DataItem) :
  Permutation (sortScriptFileItems items) items
  /\ sortedBy scriptCompare (sortScriptFileItems items)
  /\ sortScriptFileItems (sortScriptFileItems items) = sortScriptFileItems items.
Proof.
  unfold sortScriptFileItems.
  split; [apply Array_sort_Permutation|].
  split; [apply Array_sort_sortedBy, scriptCompare_connex|].
  apply Array_sort_of_sorted, Array_sort_sortedBy, scriptCompare_connex.
Qed.

(** [makeScriptNode] writes the sorted list back into the snapshot it
    is handed: after the call the snapshot holds the same script
    records in sorted order and is otherwise unchanged, no other
    object of the store and no part of the document is touched, and a
    second call builds a node with the same attributes and the same
    text from the same list. *)
Theorem makeScriptNode_sorts_in_place (sc : nat) (st : SC2DataManager)
    (v : SC2DataInfo) :
  heap st !! sc = Some v ->
  let sorted := sortScriptFileItems (scriptFileItems v) in
  exists st1 st2,
    makeScriptNode sc st = (Ok (scriptNodeOf (nextNodeId st) sorted), st1)
    /\ heap st1 = <[sc := set_scriptFileItems sorted v]> (heap st)
    /\ Permutation sorted (scriptFileItems v)
    /\ document st1 = document st
    /\ makeScriptNode sc st1 = (Ok (scriptNodeOf (nextNodeId st + 2) sorted), st2)
    /\ heap st2 = heap st1
    /\ textContent (scriptNodeOf (nextNodeId st + 2) sorted)
       = textContent (scriptNodeOf (nextNodeId st) sorted).
Proof.
  intros Hv sorted.
  pose proof (makeScriptNode_run sc st v Hv) as Hrun1. fold sorted in Hrun1.
  match type of Hrun1 with _ = (_, ?s) => set (st1 := s) in Hrun1 end.
  assert (Hv1 : heap st1 !! sc = Some (set_scriptFileItems sorted v)).
  { unfold st1. destruct st as [doc next h o c started loader conflicts evs created]. cbn [heap set_nextNodeId set_heap] in *.
    apply list_lookup_insert_eq. now apply lookup_lt_Some in Hv. }
  pose proof (makeScriptNode_run sc st1 _ Hv1) as Hrun2.
  cbn [scriptFileItems set_scriptFileItems] in Hrun2.
  assert (Hidem : sortScriptFileItems sorted = sorted)
    by (apply Array_sort_of_sorted, Array_sort_sortedBy, scriptCompare_connex).
  assert (Hnext1 : nextNodeId st1 = (nextNodeId st + 2)%nat).
  { unfold st1. destruct st as [doc next h o c started loader conflicts evs created].
    cbn [nextNodeId set_nextNodeId set_heap]. lia. }
  rewrite Hidem, Hnext1 in Hrun2.
  exists st1. eexists.
  split; [exact Hrun1|].
  split; [unfold st1; now destruct st as [doc next h o c started loader conflicts evs created]|].
  split; [apply Array_sort_Permutation|].
  split; [unfold st1; now destruct st as [doc next h o c started loader conflicts evs created]|].
  split; [exact Hrun2|].
  split.
  { unfold st1. destruct st as [doc next h o c started loader conflicts evs created].
    cbn [heap set_nextNodeId set_heap].
    unfold set_scriptFileItems at 1.
    cbn [dataSource scriptFileItems styleFileItems passageDataItems].
    apply list_insert_insert_eq. }
  unfold scriptNodeOf. now rewrite !textContent_newElement.
Qed.

(** ** [makePassageNode]: the record read back from the node *)

(** [tags.join(' ')] *)
Lemma joinTags_concat tags : joinTags (Some tags) = String.concat " " tags.
Proof.
  destruct tags as [|t ts]; [reflexivity|]. cbn [joinTags].
  revert t. induction ts as [|x ts IH]; intros t; [reflexivity|].
  cbn [fold_left]. rewrite IH.
  destruct ts as [|y ts]; cbn [String.concat]; [reflexivity|].
  now rewrite !append_assoc.
Qed.

(** A safe integer prints as its decimal digits. *)
Lemma numberToString_safe z : Z.abs z < 2 ^ 53 -> numberToString z = pretty z.
Proof.
  intros Hz. unfold numberToString, MAX_SAFE_INTEGER.
  destruct (Z.leb_spec (Z.abs z) (2 ^ 53 - 1)) as [_|Hgt]; [reflexivity | lia].
Qed.

(** The node [makePassageNode] builds is a [tw-passagedata] element
    that is not in the document; read back, it gives the record: its
    [name], its [tags] joined by single spaces (the empty string when
    the record has none), its content as text, [position] and [size]
    when they are not empty, and [pid] only for an id greater than
    zero, in decimal digits for a safe integer: a record with the id 0,
    a negative id or no id yields a node without [pid]. *)
Theorem makePassageNode_reads_back (T : PassageDataItem) (st : SC2DataManager) :
  exists n st',
    makePassageNode T st = (Ok n, st')
    /\ document st' = document st
    /\ nodeName n = "tw-passagedata"
    /\ getAttribute n "name" = Some (passage_name T)
    /\ getAttribute n "tags"
       = Some (match passage_tags T with
               | Some tags => String.concat " " tags
               | None => EmptyString
               end)
    /\ getAttribute n "pid"
       = match passage_id T with
         | Some z =>
             if 0 <? z
             then Some (if z <? 2 ^ 53 then pretty z else numberToString z)
             else None
         | None => None
         end
    /\ getAttribute n "position"
       = match passage_position T with
         | Some x => if String.eqb x EmptyString then None else Some x
         | None => None
         end
    /\ getAttribute n "size"
       = match passage_size T with
         | Some x => if String.eqb x EmptyString then None else Some x
         | None => None
         end
    /\ textContent n = passage_content T.
Proof.
  rewrite makePassageNode_run. eexists _, _. split; [reflexivity|].
  split; [now destruct st|].
  unfold passageNodeOf. rewrite textContent_newElement by discriminate.
  rewrite newElement_children. unfold getAttribute, optionalAttribute.
  cbn [nodeName attributes].
  assert (Htags : joinTags (passage_tags T)
                  = match passage_tags T with
                    | Some tags => String.concat " " tags
                    | None => EmptyString
                    end)
    by (destruct (passage_tags T); [apply joinTags_concat | reflexivity]).
  rewrite Htags.
  assert (Hpid : forall z, (0 <? z) = true ->
            numberToString z = (if z <? 2 ^ 53 then pretty z else numberToString z)).
  { intros z Hz. destruct (Z.ltb_spec z (2 ^ 53)); [|reflexivity].
    apply numberToString_safe. apply Z.ltb_lt in Hz. lia. }
  destruct (passage_id T) as [z|]; [destruct (0 <? z) eqn:Ez|].
  1: rewrite <- (Hpid z Ez).
  all: destruct (passage_position T) as [pos|];
    [destruct (String.eqb pos EmptyString)|].
  all: destruct (passage_size T) as [sz|];
    [destruct (String.eqb sz EmptyString)|].
  all: repeat split; reflexivity.
Qed.

(** ** The swap of the render tree, entry by entry *)

Lemma joinStrings_concat l : joinStrings l = String.concat EmptyString l.
Proof.
  induction l as [|x l IH]; [reflexivity|].
  unfold joinStrings in *. cbn [fold_right String.concat]. rewrite IH.
  destruct l as [|y l]; [apply append_nil_r | reflexivity].
Qed.

Lemma idToString_spelled id :
  idToString id
  = match id with
    | Some z => if Z.abs z <? 2 ^ 53 then pretty z else numberToString z
    | None => "undefined"
    end.
Proof.
  destruct id as [z|]; [|reflexivity]. cbn [idToString].
  destruct (Z.ltb_spec (Z.abs z) (2 ^ 53)); [|reflexivity].
  now apply numberToString_safe.
Qed.

(** C3: when the swap step of [patchModToGame] runs to its end, on a
    root whose nodes have unique identities, the root keeps only its
    children that are not style, script or passage nodes, followed by
    the new nodes; its script, style and passage nodes are then the new
    ones and no others: exactly one script node, exactly one style node
    and one passage node per passage record of the merged snapshot, in
    order, carrying the name and the content of its record. The style
    node holds the entries of all style records in their order, the
    script node the entries of all script records, each once, those
    with a safe-integer id first in ascending id order and the others
    after them in their order. An entry is the comment
    [/* twine-user-script #<id>: "<name>" */] (for a style,
    [twine-user-stylesheet]), the content of the record and a line
    feed; the id of a safe integer is written in decimal digits, an
    absent id as [undefined]. *)
Theorem patchModToGame_swap_replaces_nodes (target : nat) (st st' : SC2DataManager)
    (root : Node) (v : SC2DataInfo) :
  rootOf st = Some root ->
  uniqueIds root ->
  heap st !! target = Some v ->
  patchModToGame_swap target st = (Ok tt, st') ->
  let scripts := sortScriptFileItems (scriptFileItems v) in
  let newScriptNode := scriptNodeOf (nextNodeId st) scripts in
  let newStyleNode := styleNodeOf (nextNodeId st + 2) (styleFileItems v) in
  let newPassageDataNode :=
    passageNodesFrom (nextNodeId st + 4) (passageDataItems v) in
  let quote := String "034"%char EmptyString in
  let newline := String "010"%char EmptyString in
  let idText := fun id : option Z =>
    match id with
    | Some z => if Z.abs z <? 2 ^ 53 then pretty z else numberToString z
    | None => "undefined"
    end in
  exists root',
    rootOf st' = Some root'
    /\ childNodes root'
       = List.filter
           (fun n => negb (String.eqb (nodeName n) "style"
                           || String.eqb (nodeName n) "script"
                           || String.eqb (nodeName n) "tw-passagedata"))
           (childNodes root)
         ++ newScriptNode :: newStyleNode :: newPassageDataNode
    /\ getElementsByTagName root' "script" = [newScriptNode]
    /\ getElementsByTagName root' "style" = [newStyleNode]
    /\ getElementsByTagName root' "tw-passagedata" = newPassageDataNode
    /\ Permutation scripts (scriptFileItems v)
    /\ StablePartitionSort hasSafeIntegerId (scriptFileItems v) scripts
    /\ textContent newScriptNode
       = String.concat EmptyString
           (map (fun T => "/* twine-user-script #" +:+ idText (item_id T) +:+ ": "
                          +:+ quote +:+ item_name T +:+ quote +:+ " */"
                          +:+ item_content T +:+ newline)
              scripts)
    /\ textContent newStyleNode
       = String.concat EmptyString
           (map (fun T => "/* twine-user-stylesheet #" +:+ idText (item_id T) +:+ ": "
                          +:+ quote +:+ item_name T +:+ quote +:+ " */"
                          +:+ item_content T +:+ newline)
              (styleFileItems v))
    /\ map (fun n => (nodeName n, getAttribute n "name", textContent n))
         newPassageDataNode
       = map (fun T => ("tw-passagedata", Some (passage_name T), passage_content T))
           (passageDataItems v).
Proof.
  intros Hroot Hu Hv Hswap scripts newScriptNode newStyleNode newPassageDataNode
    quote newline idText.
  destruct (patchModToGame_swap_nodes target st st' root v Hroot Hu Hv Hswap)
    as (root' & H1 & H2 & H3 & H4 & H5 & H6 & H7 & H8).
  subst scripts newScriptNode newStyleNode newPassageDataNode quote newline idText.
  cbn beta. exists root'.
  split; [exact H1|]. split; [exact H2|]. split; [exact H3|]. split; [exact H4|].
  split; [exact H5|].
  split; [apply Array_sort_Permutation|].
  split.
  { destruct (sortScriptFileItems_invariant (scriptFileItems v))
      as (A & Heq & Hsafe & Hs & Hst).
    exists A. auto. }
  split.
  { rewrite H6, joinStrings_concat. f_equal. apply map_ext. intros T.
    unfold entryText. now rewrite idToString_spelled. }
  split.
  { rewrite H7, joinStrings_concat. f_equal. apply map_ext. intros T.
    unfold entryText. now rewrite idToString_spelled. }
  exact H8.
Qed.

Lemma patchModToGame_swap_replaces_nodes_witness :
  let st := exampleManagerMerged in
  let st' := snd (patchModToGame_swap 2 st) in
  let scripts := sortScriptFileItems (scriptFileItems exampleMerged) in
  let newScriptNode := scriptNodeOf (nextNodeId st) scripts in
  let newStyleNode := styleNodeOf (nextNodeId st + 2) (styleFileItems exampleMerged) in
  let newPassageDataNode :=
    passageNodesFrom (nextNodeId st + 4) (passageDataItems exampleMerged) in
  let quote := String "034"%char EmptyString in
  let newline := String "010"%char EmptyString in
  let idText := fun id : option Z =>
    match id with
    | Some z => if Z.abs z <? 2 ^ 53 then pretty z else numberToString z
    | None => "undefined"
    end in
  exists root',
    rootOf st' = Some root'
    /\ childNodes root'
       = List.filter
           (fun n => negb (String.eqb (nodeName n) "style"
                           || String.eqb (nodeName n) "script"
                           || String.eqb (nodeName n) "tw-passagedata"))
           (childNodes exampleStoryData)
         ++ newScriptNode :: newStyleNode :: newPassageDataNode
    /\ getElementsByTagName root' "script" = [newScriptNode]
    /\ getElementsByTagName root' "style" = [newStyleNode]
    /\ getElementsByTagName root' "tw-passagedata" = newPassageDataNode
    /\ Permutation scripts (scriptFileItems exampleMerged)
    /\ StablePartitionSort hasSafeIntegerId (scriptFileItems exampleMerged) scripts
    /\ textContent newScriptNode
       = String.concat EmptyString
           (map (fun T => "/* twine-user-script #" +:+ idText (item_id T) +:+ ": "
                          +:+ quote +:+ item_name T +:+ quote +:+ " */"
                          +:+ item_content T +:+ newline)
              scripts)
    /\ textContent newStyleNode
       = String.concat EmptyString
           (map (fun T => "/* twine-user-stylesheet #" +:+ idText (item_id T) +:+ ": "
                          +:+ quote +:+ item_name T +:+ quote +:+ " */"
                          +:+ item_content T +:+ newline)
              (styleFileItems exampleMerged))
    /\ map (fun n => (nodeName n, getAttribute n "name", textContent n))
         newPassageDataNode
       = map (fun T => ("tw-passagedata", Some (passage_name T), passage_content T))
           (passageDataItems exampleMerged).
Proof.
  apply (patchModToGame_swap_replaces_nodes 2 exampleManagerMerged
           (snd (patchModToGame_swap 2 exampleManagerMerged))
           exampleStoryData exampleMerged).
  - vm_compute. reflexivity.
  - exact exampleStoryData_uniqueIds.
  - vm_compute. reflexivity.
  - vm_compute. reflexivity.
Defined.

(** The text of the script node of the example: the record with the
    id 2 first, then the one with the id 7, then those without id. *)
Example patchModToGame_swap_script_text :
  textContent
    (scriptNodeOf 0
       (sortScriptFileItems
          [mkItem None "a.js" "var a = 1;"; mkItem (Some 7) "lib.js" "var lib;";
           mkItem (Some 2) "b.js" "var b;"]))
  = "/* twine-user-script #2: " +:+ DQUOTE +:+ "b.js" +:+ DQUOTE +:+ " */var b;" +:+ LF
    +:+ "/* twine-user-script #7: " +:+ DQUOTE +:+ "lib.js" +:+ DQUOTE +:+ " */var lib;"
    +:+ LF
    +:+ "/* twine-user-script #undefined: " +:+ DQUOTE +:+ "a.js" +:+ DQUOTE
    +:+ " */var a = 1;" +:+ LF.
Proof. vm_compute. reflexivity. Qed.

(** Ids beyond the safe integers print as the doubles they are. *)
Example numberToString_examples :
  map numberToString
    [0; 7; -12; 2 ^ 53 - 1; 2 ^ 53; 2 ^ 53 + 1; 2 ^ 60; - 2 ^ 60; 10 ^ 21; 2 ^ 70]
  = ["0"; "7"; "-12"; "9007199254740991"; "9007199254740992"; "9007199254740992";
     "1152921504606847000"; "-1152921504606847000"; "1e+21";
     "1.1805916207174113e+21"].
Proof. vm_compute. reflexivity. Qed.

(** ** [rePlacePassage] *)

Lemma nodesSelf_unfold n : nodesSelf n = n :: descendants n.
Proof. now destruct n. Qed.

Lemma nodeIds_unfold n : nodeIds n = nid n :: flat_map nodeIds (childNodes n).
Proof.
  unfold nodeIds. rewrite nodesSelf_unfold. cbn [map]. f_equal.
  unfold descendants. induction (childNodes n) as [|c cs IH]; [reflexivity|].
  cbn [flat_map]. now rewrite map_app, IH.
Qed.

Lemma nodesSelf_trans x r d : In r (nodesSelf d) -> In x (nodesSelf r) -> In x (nodesSelf d).
Proof.
  induction d as [i nm ats v cs IH] using Node_ind. intros Hr Hx.
  rewrite nodesSelf_unfold in Hr. destruct Hr as [<-|Hr]; [exact Hx|].
  rewrite nodesSelf_unfold. right. unfold descendants in *. cbn [childNodes] in *.
  apply in_flat_map in Hr as (c & Hc & Hr). apply in_flat_map. exists c.
  split; [exact Hc|]. rewrite List.Forall_forall in IH. now apply (IH c Hc).
Qed.

Lemma rootOf_in_document st root :
  rootOf st = Some root -> In root (nodesSelf (document st)).
Proof.
  unfold rootOf. intros Hroot. rewrite nodesSelf_unfold. right.
  apply (proj1 (getElementsByTagName_In "tw-storydata" (document st) root)).
  destruct (getElementsByTagName (document st) "tw-storydata"); [discriminate|].
  injection Hroot as ->. now left.
Qed.

Lemma rootOf_ids st root i :
  rootOf st = Some root -> In i (nodeIds root) -> In i (nodeIds (document st)).
Proof.
  intros Hroot (x & <- & Hx)%in_map_iff. apply in_map.
  apply (nodesSelf_trans x root); [now apply rootOf_in_document | exact Hx].
Qed.

Lemma replaceFirstSelf_ids tag new n n' i :
  replaceFirstSelf tag new n = Some n' ->
  In i (nodeIds n') -> In i (nodeIds n) \/ In i (nodeIds new).
Proof.
  revert n'. induction n as [j nm ats v cs IH] using Node_ind. intros n'.
  rewrite replaceFirstSelf_unfold. destruct (String.eqb nm tag).
  - intros [= <-]. now right.
  - destruct (replaceFirstInList tag new cs) as [cs'|] eqn:Elist; [|discriminate].
    cbn [option_map]. intros [= <-].
    rewrite !(nodeIds_unfold (mkNode _ _ _ _ _)). cbn [nid childNodes].
    intros [<-|Hi]; [left; now left|].
    assert (Hcs : In i (flat_map nodeIds cs) \/ In i (nodeIds new)).
    { clear -IH Elist Hi. revert cs' Elist Hi.
      induction IH as [|c cs Hc _ IHcs]; intros cs'; [discriminate|].
      cbn [replaceFirstInList].
      destruct (replaceFirstSelf tag new c) as [c'|] eqn:Ec.
      - intros [= <-]. cbn [flat_map]. rewrite !in_app_iff.
        intros [Hi|Hi]; [|left; now right].
        destruct (Hc c' eq_refl Hi); [left; now left | now right].
      - destruct (replaceFirstInList tag new cs) as [cs1|]; [|discriminate].
        cbn [option_map]. intros [= <-]. cbn [flat_map]. rewrite !in_app_iff.
        intros [Hi|Hi]; [left; now left|].
        destruct (IHcs cs1 eq_refl Hi); [left; now right | now right]. }
    destruct Hcs; [left; now right | now right].
Qed.

Lemma replaceFirstInList_ids tag new cs cs' i :
  replaceFirstInList tag new cs = Some cs' ->
  In i (flat_map nodeIds cs') -> In i (flat_map nodeIds cs) \/ In i (nodeIds new).
Proof.
  revert cs'. induction cs as [|c cs IH]; intros cs'; [discriminate|].
  cbn [replaceFirstInList].
  destruct (replaceFirstSelf tag new c) as [c'|] eqn:Ec.
  - intros [= <-]. cbn [flat_map]. rewrite !in_app_iff.
    intros [Hi|Hi]; [|left; now right].
    destruct (replaceFirstSelf_ids _ _ _ _ _ Ec Hi); [left; now left | now right].
  - destruct (replaceFirstInList tag new cs) as [cs1|]; [|discriminate].
    cbn [option_map]. intros [= <-]. cbn [flat_map]. rewrite !in_app_iff.
    intros [Hi|Hi]; [left; now left|].
    destruct (IH cs1 eq_refl Hi); [left; now right | now right].
Qed.

(** Writing an element back brings no identity into the document but
    those of the element. *)
Lemma withRoot_ids st root' i :
  In i (nodeIds (document (withRoot root' st))) ->
  In i (nodeIds (document st)) \/ In i (nodeIds root').
Proof.
  unfold withRoot. cbn [document set_document]. unfold replaceFirstDescendant.
  destruct (replaceFirstInList "tw-storydata" root' (childNodes (document st)))
    as [cs'|] eqn:E; [|now left].
  rewrite (nodeIds_unfold (mkNode _ _ _ _ _)), (nodeIds_unfold (document st)).
  cbn [nid childNodes].
  intros [<-|Hi]; [left; now left|].
  destruct (replaceFirstInList_ids _ _ _ _ _ E Hi); [left; now right | now right].
Qed.

Lemma removeChild_ids n parent parent' i :
  removeChild n parent = Ok parent' -> In i (nodeIds parent') -> In i (nodeIds parent).
Proof.
  unfold removeChild. destruct (existsb _ _); [|discriminate]. intros [= <-].
  rewrite !nodeIds_unfold. cbn [nid childNodes].
  intros [<-|Hi]; [now left|]. right.
  apply in_flat_map in Hi as (c & Hc & Hi). apply in_flat_map. exists c.
  split; [now apply (removeFirst_In n) | exact Hi].
Qed.

(** The [removeChild] loop brings no identity into the document. *)
Lemma rootRemoveChild_ids ids n :
  preserves (fun s => forall i, In i (nodeIds (document s)) -> In i ids)
    (rootRemoveChild n).
Proof.
  intros s Hs. unfold rootRemoveChild.
  destruct (rootOf s) as [root|] eqn:Hroot.
  - rewrite (onRootNode_run _ _ s root Hroot).
    destruct (removeChild n root) as [root'|e] eqn:Er; [|exact Hs].
    intros i Hi. apply withRoot_ids in Hi as [Hi|Hi]; [now apply Hs|].
    apply Hs. apply (rootOf_ids s root i Hroot). now apply (removeChild_ids n root root').
  - unfold onRootNode, rootNode. rewrite bind_run. unfold gets.
    unfold rootOf in Hroot. now rewrite Hroot.
Qed.

Lemma find_absent node nodes :
  ~ In (nid node) (map nid nodes) ->
  List.find (fun c => sameNode c node) nodes = None.
Proof.
  induction nodes as [|c nodes IH]; [reflexivity|]. cbn [map List.find In].
  intros Hnot. destruct (sameNode c node) eqn:E.
  - apply sameNode_true in E. tauto.
  - apply IH. tauto.
Qed.

(** For a node that is not in the document, [appendChild] only
    appends. *)
Lemma rootInsertChild_new node st :
  ~ In (nid node) (nodeIds (document st)) ->
  rootInsertChild node st = rootAppendChild node st.
Proof.
  intros Hnew. unfold rootInsertChild.
  rewrite bind_run. unfold rootNode at 1, gets at 1.
  destruct (head (getElementsByTagName (document st) "tw-storydata")) as [root|] eqn:E.
  - rewrite bind_run. unfold gets at 1. now rewrite (find_absent node _ Hnew).
  - unfold rootAppendChild, onRootNode. rewrite bind_run. unfold rootNode, gets.
    now rewrite E.
Qed.

Lemma newNodesFor_cons doc a nodes :
  newNodesFor doc (a :: nodes) ->
  ~ In (nid a) (nodeIds doc)
  /\ newNodesFor doc nodes
  /\ forall i, In i (flat_map nodeIds nodes) -> ~ In i (nodeIds a).
Proof.
  unfold newNodesFor. cbn [flat_map]. intros [Hnd Hnew].
  split.
  { apply Hnew. apply in_or_app. left. rewrite nodeIds_unfold. now left. }
  split.
  { split; [now apply List.NoDup_app_remove_l in Hnd|].
    intros i Hi. apply Hnew. apply in_or_app. now right. }
  intros i Hi Ha. exact (NoDup_app_disjoint _ _ i Hnd Ha Hi).
Qed.

(** The [appendChild] loop on new nodes. *)
Lemma forEach_rootInsertChild_new nodes st root :
  rootOf st = Some root ->
  newNodesFor (document st) nodes ->
  forEach nodes rootInsertChild st = forEach nodes rootAppendChild st.
Proof.
  revert st root. induction nodes as [|a nodes IH]; intros st root Hroot Hnew;
    [reflexivity|].
  apply newNodesFor_cons in Hnew as (Ha & Hrest & Hdisj).
  set (r1 := mkNode (nid root) (nodeName root) (attributes root) (nodeValue root)
               (childNodes root ++ [a])).
  assert (Hstep : rootAppendChild a st = (Ok tt, withRoot r1 st)).
  { unfold rootAppendChild. now rewrite (onRootNode_run _ _ st root Hroot). }
  cbn [forEach]. rewrite !bind_run, (rootInsertChild_new a st Ha), Hstep.
  assert (Hroot1 : rootOf (withRoot r1 st) = Some r1).
  { apply (rootOf_withRoot st root); [exact Hroot|].
    unfold r1. cbn [nodeName]. now apply (rootOf_nodeName st). }
  apply (IH (withRoot r1 st) r1 Hroot1).
  destruct Hrest as [Hnd Hrest]. split; [exact Hnd|].
  intros i Hi Hdoc. apply withRoot_ids in Hdoc as [Hdoc|Hdoc].
  - now apply (Hrest i).
  - unfold r1 in Hdoc. rewrite nodeIds_unfold in Hdoc. cbn [nid childNodes] in Hdoc.
    rewrite flat_map_app in Hdoc. cbn [flat_map] in Hdoc.
    rewrite List.app_nil_r in Hdoc.
    assert (Hin_root : In i (nodeIds root) \/ In i (nodeIds a)).
    { rewrite (nodeIds_unfold root). cbn [In].
      destruct Hdoc as [Hdoc|Hdoc]; [left; now left|].
      apply in_app_iff in Hdoc as [Hdoc|Hdoc]; [left; now right | now right]. }
    destruct Hin_root as [Hr|Hr].
    + apply (Hrest i Hi). now apply (rootOf_ids st root).
    + now apply (Hdisj i).
Qed.

Lemma rootInsertChild_frame node st :
  exists d, snd (rootInsertChild node st) = set_document d st.
Proof.
  unfold rootInsertChild. rewrite bind_run. unfold rootNode at 1, gets at 1.
  destruct (head (getElementsByTagName (document st) "tw-storydata")) as [root|].
  2: { exists (document st). apply set_document_same. }
  rewrite bind_run. unfold gets at 1.
  destruct (List.find (fun c => sameNode c node) (nodesSelf (document st)))
    as [current|].
  2: { apply onRootNode_frame. }
  destruct (existsb (fun c => sameNode c root) (nodesSelf current)).
  { exists (document st). apply set_document_same. }
  rewrite bind_run. unfold modify at 1.
  destruct (onRootNode_frame "appendChild" (appendChild current)
              (set_document (withoutNode current (document st)) st)) as [d Hd].
  exists d. unfold rootAppendChild. rewrite Hd. apply set_document_twice.
Qed.

Lemma forEach_document_frame {A} (body : A -> M SC2DataManager unit) (l : list A) st :
  (forall x s, exists d, snd (body x s) = set_document d s) ->
  exists d, snd (forEach l body st) = set_document d st.
Proof.
  intros Hbody. revert st. induction l as [|x l IH]; intros st.
  - exists (document st). apply set_document_same.
  - cbn [forEach]. rewrite bind_run. destruct (Hbody x st) as [d1 H1].
    destruct (body x st) as [[[]|e] s1]; cbn [snd] in H1 |- *; subst s1.
    + destruct (IH (set_document d1 st)) as [d2 H2]. exists d2.
      rewrite H2. apply set_document_twice.
    + now exists d1.
Qed.

(** However it ends, [rePlacePassage] writes the document and the
    console only. *)
Lemma rePlacePassage_frame toRemove toAdd st :
  exists d,
    snd (rePlacePassage toRemove toAdd st)
    = set_document d
        (set_events
           (events st ++ [ConsoleLog "rePlacePassage()" [];
                          ConsoleLog "rePlacePassage() rootNode" []]) st).
Proof.
  unfold rePlacePassage.
  set (sE := set_events
               (events st ++ [ConsoleLog "rePlacePassage()" [];
                              ConsoleLog "rePlacePassage() rootNode" []]) st).
  assert (Hprefix :
    forall k : M SC2DataManager unit,
      (emit (ConsoleLog "rePlacePassage()" []) ;;;
       _ <- rootNode ;;
       emit (ConsoleLog "rePlacePassage() rootNode" []) ;;; k) st = k sE).
  { intros k. unfold sE. destruct st as [doc next h o c started loader conflicts evs created].
    cbv [bind emit modify rootNode gets set_events document nextNodeId heap
         originSC2DataInfoCache cSC2DataInfoAfterPatchCache startInitOk modLoader
         conflictResult events].
    now rewrite <- List.app_assoc. }
  rewrite Hprefix. rewrite bind_run.
  destruct (forEach_document_frame rootRemoveChild toRemove sE) as [d1 H1].
  { intros x s. apply onRootNode_frame. }
  destruct (forEach toRemove rootRemoveChild sE) as [[[]|e] s1];
    cbn [snd] in H1 |- *; subst s1; [|now exists d1].
  destruct (forEach_document_frame rootInsertChild toAdd (set_document d1 sE))
    as [d2 H2].
  { intros x s. apply rootInsertChild_frame. }
  exists d2. rewrite H2. apply set_document_twice.
Qed.

(** [rePlacePassage] removes the nodes it is given from the children of
    the root and appends the new nodes, in the order given; it sends
    two console entries and never the warning of its [!rn] and [!an]
    branches. This holds when every node to remove is a child of the
    root, named once, and the nodes to add are new to the document. *)
Theorem rePlacePassage_replaces (toRemove toAdd : list Node) (st : SC2DataManager)
    (root : Node) :
  rootOf st = Some root ->
  List.NoDup (map nid (childNodes root)) ->
  List.NoDup (map nid toRemove) ->
  (forall t, In t toRemove -> In t (childNodes root)) ->
  newNodesFor (document st) toAdd ->
  exists st' root',
    rePlacePassage toRemove toAdd st = (Ok tt, st')
    /\ rootOf st' = Some root'
    /\ childNodes root'
       = List.filter (fun c => negb (existsb (sameNode c) toRemove)) (childNodes root)
         ++ toAdd
    /\ events st'
       = events st ++ [ConsoleLog "rePlacePassage()" [];
                       ConsoleLog "rePlacePassage() rootNode" []].
Proof.
  intros Hroot Hcs Hnd Hchildren Hnew.
  destruct (rePlacePassage_frame toRemove toAdd st) as [d Hframe].
  set (sE := set_events
               (events st ++ [ConsoleLog "rePlacePassage()" [];
                              ConsoleLog "rePlacePassage() rootNode" []]) st)
    in Hframe.
  assert (Hprefix :
    rePlacePassage toRemove toAdd st
    = (forEach toRemove rootRemoveChild ;;; forEach toAdd rootInsertChild) sE).
  { unfold rePlacePassage, sE.
    destruct st as [doc next h o c started loader conflicts evs created].
    cbv [bind emit modify rootNode gets set_events document nextNodeId heap
         originSC2DataInfoCache cSC2DataInfoAfterPatchCache startInitOk modLoader
         conflictResult events].
    now rewrite <- List.app_assoc. }
  assert (HrootE : rootOf sE = Some root) by (rewrite <- Hroot; now destruct st).
  assert (HdocE : document sE = document st) by (now destruct st).
  destruct (removeEach_total toRemove root Hcs Hnd) as [r1 E1].
  { intros t Ht. apply in_map. now apply Hchildren. }
  pose proof (forEach_rootRemoveChild toRemove sE root HrootE) as H1.
  rewrite E1 in H1. destruct H1 as (s1 & Hrun1 & Hroot1 & _).
  apply removeEach_Ok in E1 as (Hkept & _); [|exact Hcs].
  assert (Hids : forall i, In i (nodeIds (document s1)) -> In i (nodeIds (document st))).
  { pose proof (preserves_forEach
                  (fun s => forall i, In i (nodeIds (document s))
                                      -> In i (nodeIds (document st)))
                  toRemove rootRemoveChild
                  (fun n => rootRemoveChild_ids (nodeIds (document st)) n) sE) as Hpres.
    rewrite Hrun1 in Hpres. apply Hpres. intros i. now rewrite HdocE. }
  assert (Hnew1 : newNodesFor (document s1) toAdd).
  { destruct Hnew as [Hnd' Hnew]. split; [exact Hnd'|].
    intros i Hi Hdoc. apply (Hnew i Hi). now apply Hids. }
  destruct (forEach_rootAppendChild toAdd s1 r1 Hroot1) as (s2 & Hrun2 & Hroot2 & _).
  exists s2, (withChildrenAppended toAdd r1).
  assert (Hrun : rePlacePassage toRemove toAdd st = (Ok tt, s2)).
  { rewrite Hprefix, bind_run, Hrun1.
    now rewrite (forEach_rootInsertChild_new toAdd s1 r1 Hroot1 Hnew1). }
  split; [exact Hrun|]. split; [exact Hroot2|].
  split; [unfold withChildrenAppended; cbn [childNodes]; now rewrite Hkept|].
  rewrite Hrun in Hframe. cbn [snd] in Hframe. rewrite Hframe.
  unfold sE. now destruct st.
Qed.

(** [rePlacePassage] is not atomic: at the first node to remove that is
    no child of the root, or that the list names a second time,
    [removeChild] throws [NotFoundError]; the nodes named before it
    stay removed, the nodes after it stay in place, and no node is
    added. *)
Theorem rePlacePassage_stops_at_foreign_node (before rest toAdd : list Node) (s : Node)
    (st : SC2DataManager) (root : Node) :
  rootOf st = Some root ->
  List.NoDup (map nid (childNodes root)) ->
  List.NoDup (map nid before) ->
  (forall t, In t before -> In t (childNodes root)) ->
  let kept :=
    List.filter (fun c => negb (existsb (sameNode c) before)) (childNodes root) in
  ~ In (nid s) (map nid kept) ->
  exists st' root',
    rePlacePassage (before ++ s :: rest) toAdd st = (Throw NotFoundError, st')
    /\ rootOf st' = Some root'
    /\ childNodes root' = kept.
Proof.
  intros Hroot Hcs Hnd Hchildren kept Hforeign.
  set (sE := set_events
               (events st ++ [ConsoleLog "rePlacePassage()" [];
                              ConsoleLog "rePlacePassage() rootNode" []]) st).
  assert (Hprefix :
    rePlacePassage (before ++ s :: rest) toAdd st
    = (forEach (before ++ s :: rest) rootRemoveChild ;;;
       forEach toAdd rootInsertChild) sE).
  { unfold rePlacePassage, sE.
    destruct st as [doc next h o c started loader conflicts evs created].
    cbv [bind emit modify rootNode gets set_events document nextNodeId heap
         originSC2DataInfoCache cSC2DataInfoAfterPatchCache startInitOk modLoader
         conflictResult events].
    now rewrite <- List.app_assoc. }
  assert (HrootE : rootOf sE = Some root) by (rewrite <- Hroot; now destruct st).
  destruct (removeEach_total before root Hcs Hnd) as [r1 E1].
  { intros t Ht. apply in_map. now apply Hchildren. }
  pose proof (forEach_rootRemoveChild before sE root HrootE) as H1.
  rewrite E1 in H1. destruct H1 as (s1 & Hrun1 & Hroot1 & _).
  apply removeEach_Ok in E1 as (Hkept & _); [|exact Hcs]. fold kept in Hkept.
  exists s1, r1.
  split; [|split; [exact Hroot1 | exact Hkept]].
  rewrite Hprefix, bind_run, forEach_app, bind_run, Hrun1.
  cbn [forEach]. rewrite bind_run. unfold rootRemoveChild at 1.
  rewrite (onRootNode_run _ _ s1 r1 Hroot1). unfold removeChild.
  destruct (existsb (fun c => sameNode c s) (childNodes r1)) eqn:Eex; [|reflexivity].
  exfalso. apply Hforeign. apply List.existsb_exists in Eex as (c & Hc & Hsame).
  apply sameNode_true in Hsame. rewrite <- Hsame. apply in_map. now rewrite <- Hkept.
Qed.

(** [rePlacePassage] does not refresh the snapshots: whatever nodes it
    is given and however it ends, the store and both caches are as
    before, so that [getSC2DataInfoAfterPatch] keeps returning the
    snapshot taken before the change until [flushAfterPatchCache] is
    called. *)
Theorem rePlacePassage_keeps_snapshots (env : Imports) (toRemove toAdd : list Node)
    (st : SC2DataManager) (o r : nat) :
  originSC2DataInfoCache st = Some o ->
  cSC2DataInfoAfterPatchCache st = Some r ->
  let st' := snd (rePlacePassage toRemove toAdd st) in
  heap st' = heap st
  /\ getSC2DataInfoAfterPatch env st' = (Ok r, st')
  /\ getSC2DataInfoCache env st' = (Ok (Some o), st').
Proof.
  intros Ho Hc st'. unfold st'.
  destruct (rePlacePassage_frame toRemove toAdd st) as [d ->].
  destruct st as [doc next h o' c' started loader conflicts evs created].
  cbn [originSC2DataInfoCache cSC2DataInfoAfterPatchCache] in Ho, Hc. subst o' c'.
  split; [reflexivity|]. split; reflexivity.
Qed.

(** ** Registration order and dispatch order *)

Lemma firstAccepted_app_cases src l1 l2 :
  firstAccepted src (l1 ++ l2)
  = match firstAccepted src l1 with
    | Some v => Some v
    | None => firstAccepted src l2
    end.
Proof.
  induction l1 as [|[k h] l1 IH]; [reflexivity|]. cbn [app firstAccepted].
  destruct (h src) as [[[|] v]|e]; [reflexivity | exact IH | exact IH].
Qed.

Lemma requestImageBySrc_nonempty src st :
  src <> EmptyString ->
  exists evs,
    requestImageBySrc src st
    = (Ok (firstAccepted src (hookReturnModeTable st)), withHookEvents evs st).
Proof.
  intros Hsrc. unfold requestImageBySrc.
  destruct (String.eqb_spec src EmptyString) as [|_]; [contradiction|].
  unfold bind at 1. unfold gets at 1. apply requestImageLoop_run.
Qed.

(** A return-mode hook registered under a new key is asked last: it
    never changes the answer [requestImageBySrc] gave before for a
    source that an earlier hook takes, and it is the one that answers
    for a source that no earlier hook takes. *)
Theorem new_return_mode_hook_is_asked_last (src hookKey : string)
    (hook : HtmlTagSrcReturnModeHookType) (st : HtmlTagSrcHook) :
  src <> EmptyString ->
  assocHas hookKey (hookReturnModeTable st) = false ->
  let st1 := snd (addReturnModeHook hookKey hook st) in
  (forall v,
     fst (requestImageBySrc src st) = Ok (Some v) ->
     fst (requestImageBySrc src st1) = Ok (Some v))
  /\ (fst (requestImageBySrc src st) = Ok None ->
      fst (requestImageBySrc src st1)
      = Ok (match hook src with
            | Ok (true, v) => Some v
            | _ => None
            end)).
Proof.
  intros Hsrc Hnew st1.
  assert (Htable : hookReturnModeTable st1 = hookReturnModeTable st ++ [(hookKey, hook)]).
  { unfold st1. rewrite addReturnModeHook_run. cbn [snd hookReturnModeTable].
    apply assocSet_fresh. now apply assocHas_false_notin. }
  destruct (requestImageBySrc_nonempty src st Hsrc) as [evs Hrun].
  destruct (requestImageBySrc_nonempty src st1 Hsrc) as [evs1 Hrun1].
  rewrite Hrun, Hrun1, Htable, firstAccepted_app_cases. cbn [fst firstAccepted].
  split.
  - intros v [= ->]. reflexivity.
  - intros [= ->]. now destruct (hook src) as [[[|] v]|e].
Qed.

Lemma assocSet_replaces {V} (k : string) (v old : V) (before after : list (string * V)) :
  ~ In k (map fst before) ->
  assocSet k v (before ++ (k, old) :: after) = before ++ (k, v) :: after.
Proof.
  induction before as [|[k' w] before IH]; intros Hnot.
  - cbn. now rewrite String.eqb_refl.
  - cbn [app assocSet]. destruct (String.eqb_spec k' k) as [->|_].
    + exfalso. apply Hnot. now left.
    + f_equal. apply IH. intros Hin. apply Hnot. now right.
Qed.

Lemma key_not_before {V} (k : string) (old : V) (before after : list (string * V)) :
  List.NoDup (map fst (before ++ (k, old) :: after)) -> ~ In k (map fst before).
Proof.
  rewrite map_app. cbn [map fst]. intros Hnd Hin.
  apply List.NoDup_remove_2 in Hnd. apply Hnd. apply in_or_app. now left.
Qed.

Lemma hooksDecline_app mlSrc field l1 l2 el :
  hooksDecline mlSrc field l1 el ->
  hooksDecline mlSrc field l2 (afterAllHooks mlSrc field l1 el) ->
  hooksDecline mlSrc field (l1 ++ l2) el.
Proof.
  revert el. induction l1 as [|entry l1 IH]; intros el H1 H2; [exact H2|].
  destruct H1 as [Hh H1]. split; [exact Hh|]. now apply IH.
Qed.

Lemma firstAccepted_declined src hooks :
  Forall (returnModeHookDeclines src) hooks -> firstAccepted src hooks = None.
Proof.
  intros H. rewrite <- (List.app_nil_r hooks). now rewrite firstAccepted_app.
Qed.

(** C9: registering under a key that is already used never fails; the
    new hook takes the place of the old one in the table, whose other
    keys keep their hooks and whose key order is unchanged, and the only
    other effect is an error sent to the console and to the logger. The
    dispatches that follow call the new hook where the old one stood
    and never the old one: when the hooks before that place decline or
    throw, [doHook] returns true with the element as the new hook left
    it if the new hook takes it, and falls through to the following
    hooks and to its default, returning false, if the new hook and the
    following ones decline, whatever the replaced hook would have
    answered; [requestImageBySrc], [doHook] and [doHookCallback] hand
    on the value of a new return-mode hook that takes the source, and
    [requestImageBySrc] answers [undefined] when the new hook and the
    following ones decline. The same holds for both tables. *)
Theorem addHook_replaces_same_key (regs : list Registration) (el : Node)
    (hookKey : string) :
  let st := afterRegistrations regs (newHtmlTagSrcHook el) in
  (forall hook,
     exists st',
       addHook hookKey hook st = (Ok tt, st')
       /\ entriesOf hookKey (hookTable st') = [(hookKey, hook)]
       /\ assocGet hookKey (hookTable st') = Some hook
       /\ (forall k, hookKey <> k ->
             assocGet k (hookTable st') = assocGet k (hookTable st))
       /\ (assocHas hookKey (hookTable st) = true ->
             map fst (hookTable st') = map fst (hookTable st)
             /\ hookEvents st' = hookEvents st ++
                  [ConsoleError "[HtmlTagSrcHook] addHook: hookKey already exist!"
                     [hookKey];
                   LoggerError ("[HtmlTagSrcHook] addHook: hookKey[" +:+ hookKey
                                +:+ "] already exist!")])
       /\ hookReturnModeTable st' = hookReturnModeTable st
       /\ element st' = element st
       /\ forall outerHTML field mlSrc old before after,
            hookTable st = before ++ (hookKey, old) :: after ->
            getAttribute (element st) ("ML-" +:+ field) = Some mlSrc ->
            mlSrc <> EmptyString ->
            Forall (returnModeHookDeclines mlSrc) (hookReturnModeTable st) ->
            hooksDecline mlSrc field before (element st) ->
            let reached := afterAllHooks mlSrc field before (element st) in
            (fst (hook mlSrc field reached) = Ok true ->
             exists evs,
               doHook outerHTML field st'
               = (Ok true,
                  withHookEvents evs
                    (set_element (snd (hook mlSrc field reached)) st')))
            /\ (hooksDecline mlSrc field ((hookKey, hook) :: after) reached ->
                validAttributeLocalName field = true ->
                fst (doHook outerHTML field st') = Ok false))
  /\ (forall hook,
     exists st',
       addReturnModeHook hookKey hook st = (Ok tt, st')
       /\ entriesOf hookKey (hookReturnModeTable st') = [(hookKey, hook)]
       /\ assocGet hookKey (hookReturnModeTable st') = Some hook
       /\ (forall k, hookKey <> k ->
             assocGet k (hookReturnModeTable st') = assocGet k (hookReturnModeTable st))
       /\ (assocHas hookKey (hookReturnModeTable st) = true ->
             map fst (hookReturnModeTable st') = map fst (hookReturnModeTable st)
             /\ hookEvents st' = hookEvents st ++
                  [ConsoleError
                     "[HtmlTagSrcHook] addReturnModeHook: hookKey already exist!"
                     [hookKey];
                   LoggerError ("[HtmlTagSrcHook] addReturnModeHook: hookKey["
                                +:+ hookKey +:+ "] already exist!")])
       /\ hookTable st' = hookTable st
       /\ element st' = element st
       /\ forall src old before after,
            hookReturnModeTable st = before ++ (hookKey, old) :: after ->
            src <> EmptyString ->
            Forall (returnModeHookDeclines src) before ->
            (forall v,
               hook src = Ok (true, v) ->
               fst (requestImageBySrc src st') = Ok (Some v)
               /\ (forall outerHTML field,
                     getAttribute (element st) ("ML-" +:+ field) = Some src ->
                     validAttributeLocalName field = true ->
                     exists evs el',
                       setAttribute field v (element st) = Ok el'
                       /\ doHook outerHTML field st'
                          = (Ok true, withHookEvents evs (set_element el' st')))
               /\ (forall (W A : Type) (callback : string -> M W A) (w w' : W) (a : A),
                     callback v w = (Ok a, w') ->
                     exists evs,
                       doHookCallback src callback (st', w)
                       = (Ok (true, a), (withHookEvents evs st', w'))))
            /\ (returnModeHookDeclines src (hookKey, hook) ->
                Forall (returnModeHookDeclines src) after ->
                fst (requestImageBySrc src st') = Ok None)).
Proof.
  intros st.
  assert (Hu : uniqueKeys st).
  { apply afterRegistrations_uniqueKeys. split; constructor. }
  destruct Hu as [Hu1 Hu2].
  split; intros hook; eexists.
  - rewrite addHook_run. split; [reflexivity|].
    cbn [hookTable hookReturnModeTable element hookEvents].
    split; [now apply entriesOf_assocSet|].
    split; [apply assocGet_assocSet_eq|].
    split; [intros k Hk; now apply assocGet_assocSet_ne|].
    split; [intros Hhas; rewrite assocSet_keys, Hhas; now split|].
    split; [reflexivity|]. split; [reflexivity|].
    intros outerHTML field mlSrc old before after Htable Hml Hne HR Hbefore.
    rewrite Htable in Hu1 |- *.
    rewrite (assocSet_replaces _ _ _ _ _ (key_not_before _ _ _ _ Hu1)).
    match goal with |- context [doHook _ _ ?s] => set (st' := s) end.
    destruct (doHook_hook_loop outerHTML field mlSrc st' Hml Hne HR) as [evs1 Hrun].
    split.
    + intros Hacc.
      destruct (hookLoop_accepts mlSrc field hookKey hook before after
                  (withHookEvents evs1 st') Hbefore Hacc) as [evs2 E2].
      exists (evs1 ++ evs2). rewrite Hrun. unfold bind at 1.
      change (before ++ (hookKey, hook) :: after) with (hookTable st') in E2.
      rewrite E2. unfold withHookEvents, set_element, ret. cbn.
      now rewrite List.app_assoc.
    + intros Hdecl Hvalid.
      destruct (doHook_past_loops outerHTML field mlSrc st' Hml Hne HR) as [evs ->].
      { apply hooksDecline_app; assumption. }
      unfold elSetAttribute, bind, gets, liftResult, modify, ret, setAttribute.
      rewrite Hvalid. reflexivity.
  - rewrite addReturnModeHook_run. split; [reflexivity|].
    cbn [hookTable hookReturnModeTable element hookEvents].
    split; [now apply entriesOf_assocSet|].
    split; [apply assocGet_assocSet_eq|].
    split; [intros k Hk; now apply assocGet_assocSet_ne|].
    split; [intros Hhas; rewrite assocSet_keys, Hhas; now split|].
    split; [reflexivity|]. split; [reflexivity|].
    intros src old before after Htable Hsrc Hbefore.
    rewrite Htable in Hu2 |- *.
    rewrite (assocSet_replaces _ _ _ _ _ (key_not_before _ _ _ _ Hu2)).
    match goal with |- context [requestImageBySrc _ ?s] => set (st' := s) end.
    assert (Hfirst : firstAccepted src (hookReturnModeTable st')
                     = match hook src with
                       | Ok (true, v) => Some v
                       | _ => firstAccepted src after
                       end).
    { unfold st'. cbn [hookReturnModeTable].
      now rewrite (firstAccepted_app src before _ Hbefore). }
    destruct (requestImageBySrc_nonempty src st' Hsrc) as [evs0 Hreq].
    split.
    + intros v Hv. rewrite Hv in Hfirst. split; [now rewrite Hreq, Hfirst|]. split.
      * intros outerHTML field Hml Hvalid.
        destruct (setAttribute field v (element st)) as [el'|e] eqn:Hset.
        2: { unfold setAttribute in Hset. rewrite Hvalid in Hset. discriminate. }
        destruct (returnModeLoop_accepts src field v _ st' el' Hfirst Hset)
          as [evs Hloop].
        exists evs, el'. split; [reflexivity|].
        unfold doHook. unfold bind at 1. unfold gets at 1.
        change (element st') with (element st).
        rewrite Hml, (truthyString_Some _ src eq_refl Hsrc).
        unfold bind at 1. unfold gets at 1. unfold bind at 1. rewrite Hloop.
        reflexivity.
      * intros W A callback w w' a Hcall.
        destruct (callbackLoop_accepts src callback _ st' w v a w' Hfirst Hcall)
          as [evs Hloop].
        exists evs. unfold doHookCallback.
        destruct (String.eqb_spec src EmptyString) as [|_]; [contradiction|].
        unfold bind at 1. unfold onFst at 1, gets at 1. cbn [fst snd].
        unfold bind at 1. rewrite Hloop. reflexivity.
    + intros Hhook Hafter. rewrite Hreq, Hfirst. cbn [fst].
      unfold returnModeHookDeclines in Hhook. cbn [snd] in Hhook.
      rewrite (firstAccepted_declined src after Hafter).
      now destruct (hook src) as [[[|] v]|e].
Qed.

Lemma addHook_replaces_same_key_witness :
  let st :=
    afterRegistrations
      [RegisterHook "c" acceptingHook;
       RegisterReturnModeHook "r" throwingReturnModeHook]
      (newHtmlTagSrcHook imgElement) in
  fst (doHook (fun _ => "<img>") "src" (snd (addHook "c" decliningHook st))) = Ok false
  /\ fst (requestImageBySrc "img/a.png" (snd (addReturnModeHook "r" modImageHook st)))
     = Ok (Some "data:image/png;base64,img/a.png").
Proof.
  cbn zeta. split.
  - destruct (addHook_replaces_same_key
                [RegisterHook "c" acceptingHook;
                 RegisterReturnModeHook "r" throwingReturnModeHook]
                imgElement "c") as [H _].
    destruct (H decliningHook) as (st' & Hrun & _ & _ & _ & _ & _ & _ & Hdispatch).
    rewrite Hrun. cbn [snd].
    destruct (Hdispatch (fun _ => "<img>") "src" "img/a.png" acceptingHook [] [])
      as [_ Hdeclines].
    + reflexivity.
    + reflexivity.
    + discriminate.
    + repeat constructor.
    + exact I.
    + apply Hdeclines; [simpl; repeat constructor | reflexivity].
  - destruct (addHook_replaces_same_key
                [RegisterHook "c" acceptingHook;
                 RegisterReturnModeHook "r" throwingReturnModeHook]
                imgElement "r") as [_ H].
    destruct (H modImageHook) as (st' & Hrun & _ & _ & _ & _ & _ & _ & Hdispatch).
    rewrite Hrun. cbn [snd].
    destruct (Hdispatch "img/a.png" throwingReturnModeHook [] []) as [Haccept _].
    + reflexivity.
    + discriminate.
    + constructor.
    + destruct (Haccept "data:image/png;base64,img/a.png") as [Hanswer _].
      * reflexivity.
      * exact Hanswer.
Defined.

(** ** The further properties on the examples *)

Lemma exampleStoryData_flat : flatRoot exampleStoryData.
Proof.
  intros s Hs Hkind. vm_compute in Hs.
  repeat (destruct Hs as [<-|Hs];
          [first [discriminate Hkind | vm_compute; intuition reflexivity]|]).
  destruct Hs.
Qed.

Lemma doHook_without_saved_value_witness :
  let st := mkHtmlTagSrcHook [("c", acceptingHook)] [("m", modImageHook)]
              plainImgElement [] in
  doHook (fun _ => "<img>") "src" st
  = (Ok false,
     withHookEvents
       [ConsoleError ("[HtmlTagSrcHook] doHook: no ML-" +:+ "src") ["<img>"];
        LoggerError ("[HtmlTagSrcHook] doHook: no ML-" +:+ "src" +:+ " ["
                     +:+ "<img>" +:+ "]")]
       st).
Proof.
  apply (doHook_without_saved_value (fun _ => "<img>") "src"
           (mkHtmlTagSrcHook [("c", acceptingHook)] [("m", modImageHook)]
              plainImgElement [])).
  left. reflexivity.
Defined.

Lemma doHook_return_mode_hook_accepts_witness :
  exists evs el',
    setAttribute "src" "data:image/png;base64,img/a.png" (element exampleReturnModeState)
    = Ok el'
    /\ getAttribute el' "src" = Some "data:image/png;base64,img/a.png"
    /\ doHook (fun _ => "<img>") "src" exampleReturnModeState
       = (Ok true, withHookEvents evs (set_element el' exampleReturnModeState)).
Proof.
  apply (doHook_return_mode_hook_accepts (fun _ => "<img>") "src" "img/a.png"
           "data:image/png;base64,img/a.png" exampleReturnModeState).
  - reflexivity.
  - discriminate.
  - reflexivity.
  - reflexivity.
Defined.

Lemma doHook_hook_accepts_witness :
  exists evs,
    doHook (fun _ => "<img>") "src" exampleAcceptingState
    = (Ok true,
       withHookEvents evs
         (set_element
            (snd (acceptingHook "img/a.png" "src"
                    (afterAllHooks "img/a.png" "src" [("b", decliningHook)]
                       (element exampleAcceptingState))))
            exampleAcceptingState)).
Proof.
  apply (doHook_hook_accepts (fun _ => "<img>") "src" "img/a.png" "c" acceptingHook
           [("b", decliningHook)] [("a", throwingHook)] exampleAcceptingState).
  - reflexivity.
  - discriminate.
  - repeat constructor.
  - reflexivity.
  - simpl. repeat constructor.
  - reflexivity.
Defined.

Lemma doHook_invalid_field_throws_witness :
  let st := mkHtmlTagSrcHook [("b", decliningHook)] [("m", fun _ => Ok (true, "x"))]
              emptyFieldElement [] in
  exists evs marked,
    setAttribute "ML-src_replace_failed" "1"
      (afterAllHooks "x.png" EmptyString (hookTable st) (element st)) = Ok marked
    /\ doHook (fun _ => "<img>") EmptyString st
       = (Throw InvalidCharacterError, withHookEvents evs (set_element marked st)).
Proof.
  apply (doHook_invalid_field_throws (fun _ => "<img>") EmptyString "x.png"
           (mkHtmlTagSrcHook [("b", decliningHook)] [("m", fun _ => Ok (true, "x"))]
              emptyFieldElement [])).
  - reflexivity.
  - discriminate.
  - reflexivity.
  - simpl. repeat constructor.
Defined.

Lemma doHook_catches_hook_errors_witness :
  exists b st', doHook (fun _ => "<img>") "src" exampleHookState = (Ok b, st').
Proof.
  apply (doHook_catches_hook_errors (fun _ => "<img>") "src" exampleHookState).
  reflexivity.
Defined.

Lemma doHookCallback_calls_callback_once_witness :
  exists evs,
    doHookCallback "img/a.png" recordingCallback (exampleReturnModeState, [])
    = (Ok (sourceTaken "img/a.png" (hookReturnModeTable exampleReturnModeState),
           String.length "data:image/png;base64,img/a.png"),
       (withHookEvents evs exampleReturnModeState,
        ["data:image/png;base64,img/a.png"])).
Proof.
  apply (doHookCallback_calls_callback_once "img/a.png" recordingCallback
           exampleReturnModeState [] ["data:image/png;base64,img/a.png"]
           (String.length "data:image/png;base64,img/a.png")).
  reflexivity.
Defined.

Lemma doHookCallback_retries_after_callback_error_witness :
  let st := mkHtmlTagSrcHook [] [("r", throwingReturnModeHook); ("m", modImageHook)]
              imgElement [] in
  exists evs,
    doHookCallback "img/a.png" failingOnDataCallback (st, [])
    = (flagged false
         (fst (failingOnDataCallback "img/a.png" ["data:image/png;base64,img/a.png"])),
       (withHookEvents evs st,
        snd (failingOnDataCallback "img/a.png" ["data:image/png;base64,img/a.png"])))
    /\ In (LoggerError
             ("[HtmlTagSrcHook] doHookCallback: call hookKey[" +:+ "m"
              +:+ "] error ["
              +:+ errorMessageOrText (mkError "decode failed" "Error: decode failed")
              +:+ "]")) evs.
Proof.
  apply (doHookCallback_retries_after_callback_error "img/a.png" "m"
           "data:image/png;base64,img/a.png" modImageHook
           [("r", throwingReturnModeHook)] [] failingOnDataCallback
           (mkHtmlTagSrcHook [] [("r", throwingReturnModeHook); ("m", modImageHook)]
              imgElement [])
           [] ["data:image/png;base64,img/a.png"]
           (mkError "decode failed" "Error: decode failed")).
  - discriminate.
  - reflexivity.
  - repeat constructor.
  - reflexivity.
  - reflexivity.
  - constructor.
Defined.

Lemma new_return_mode_hook_is_asked_last_witness :
  let st1 := snd (addReturnModeHook "m" modImageHook exampleHookState) in
  (forall v,
     fst (requestImageBySrc "img/a.png" exampleHookState) = Ok (Some v) ->
     fst (requestImageBySrc "img/a.png" st1) = Ok (Some v))
  /\ (fst (requestImageBySrc "img/a.png" exampleHookState) = Ok None ->
      fst (requestImageBySrc "img/a.png" st1)
      = Ok (match modImageHook "img/a.png" with
            | Ok (true, v) => Some v
            | _ => None
            end)).
Proof.
  apply (new_return_mode_hook_is_asked_last "img/a.png" "m" modImageHook
           exampleHookState).
  - discriminate.
  - reflexivity.
Defined.

Lemma getSC2DataInfoAfterPatch_first_access_witness :
  exists st',
    getSC2DataInfoAfterPatch exampleImports exampleManager
    = (Ok (S (length (heap exampleManager))), st')
    /\ originSC2DataInfoCache st' = Some (length (heap exampleManager))
    /\ cSC2DataInfoAfterPatchCache st' = Some (S (length (heap exampleManager)))
    /\ heap st'
       = heap exampleManager
         ++ [captureOf exampleImports exampleStoryData;
             captureOf exampleImports exampleStoryData]
    /\ document st' = document exampleManager.
Proof.
  apply (getSC2DataInfoAfterPatch_first_access exampleImports exampleManager
           exampleStoryData); reflexivity.
Defined.

Lemma cleanAllCacheAfterModLoadEnd_then_access_witness :
  exists st1 st2,
    cleanAllCacheAfterModLoadEnd exampleImports exampleManagerWithSnapshots
    = (Ok tt, st1)
    /\ originSC2DataInfoCache st1 = None
    /\ cSC2DataInfoAfterPatchCache st1 = None
    /\ heap st1
       = alter (clean exampleImports) 1%nat
           (alter (clean exampleImports) 0%nat (heap exampleManagerWithSnapshots))
    /\ document st1 = document exampleManagerWithSnapshots
    /\ getSC2DataInfoCache exampleImports st1
       = (Ok (Some (length (heap exampleManagerWithSnapshots))), st2)
    /\ heap st2 = heap st1 ++ [captureOf exampleImports exampleStoryData]
    /\ cSC2DataInfoAfterPatchCache st2 = None.
Proof.
  apply (cleanAllCacheAfterModLoadEnd_then_access exampleImports
           exampleManagerWithSnapshots 0%nat 1%nat exampleStoryData); reflexivity.
Defined.

Lemma patchModToGame_end_to_end_witness :
  let final :=
    afterPatchSteps (patchSteps (modLoader exampleManager))
      (mergedOnto exampleImports (captureOf exampleImports exampleStoryData)
         (modLoader exampleManager)) in
  exists st' root' r evs,
    patchModToGame exampleImports exampleManager = (Ok tt, st')
    /\ rootOf st' = Some root'
    /\ childNodes root'
       = List.filter (fun n => negb (isPatchedKind n)) (childNodes exampleStoryData)
         ++ scriptNodeOf (nextNodeId exampleManager)
              (sortScriptFileItems (scriptFileItems final))
            :: styleNodeOf (nextNodeId exampleManager + 2) (styleFileItems final)
            :: passageNodesFrom (nextNodeId exampleManager + 4) (passageDataItems final)
    /\ cSC2DataInfoAfterPatchCache st' = Some r
    /\ heap st' !! r = Some (captureOf exampleImports root')
    /\ events st'
       = events exampleManager ++ PatchModToGame_start :: evs ++ [PatchModToGame_end].
Proof.
  apply (patchModToGame_end_to_end exampleImports exampleManager exampleStoryData).
  - reflexivity.
  - exact exampleStoryData_uniqueIds.
  - exact exampleStoryData_flat.
Defined.

Lemma patchModToGame_without_root_witness :
  let st := constructedSC2DataManager documentWithoutRoot 3 emptyModLoader in
  exists st',
    patchModToGame exampleImports st = (Throw undefinedRootError, st')
    /\ events st'
       = events st
         ++ PatchModToGame_start
            :: (if modLoaderCreated st then []
                else [ConsoleLog "this.modLoadControllerCallback" []])
    /\ modLoaderCreated st' = true
    /\ cSC2DataInfoAfterPatchCache st' = None
    /\ originSC2DataInfoCache st' = originSC2DataInfoCache st
    /\ heap st' = heap st
    /\ document st' = document st.
Proof.
  apply (patchModToGame_without_root exampleImports
           (constructedSC2DataManager documentWithoutRoot 3 emptyModLoader)).
  reflexivity.
Defined.

Lemma startInit_first_invocation_completes_witness :
  let st := constructedSC2DataManager exampleDocument 12 emptyModLoader in
  let loaded := loadMod exampleImports (modLoader st) in
  let final :=
    afterPatchSteps (patchSteps loaded)
      (mergedOnto exampleImports (captureOf exampleImports exampleStoryData) loaded) in
  exists st' root' evs,
    startInit exampleImports st = (Ok tt, st')
    /\ startInitOk st' = true
    /\ modLoaderCreated st' = true
    /\ modLoader st' = loaded
    /\ getConflictResult st'
       = (Ok (Some (checkModConflictList exampleImports loaded)), st')
    /\ rootOf st' = Some root'
    /\ childNodes root'
       = List.filter (fun n => negb (isPatchedKind n)) (childNodes exampleStoryData)
         ++ scriptNodeOf (nextNodeId st) (sortScriptFileItems (scriptFileItems final))
            :: styleNodeOf (nextNodeId st + 2) (styleFileItems final)
            :: passageNodesFrom (nextNodeId st + 4) (passageDataItems final)
    /\ events st'
       = events st
         ++ ConsoleLog "ModLoader ====== SC2DataManager startInit() start" []
            :: (if modLoaderCreated st then []
                else [ConsoleLog "this.modLoadControllerCallback" []])
         ++ [LoadMod; DependenceCheck;
             ConsoleLog "ModLoader ====== mod conflictResult"
               (map conflictMod (checkModConflictList exampleImports loaded));
             TriggerHook "beforePatchModToGame"; PatchModToGame_start]
         ++ evs
         ++ [PatchModToGame_end; TriggerHook "afterPatchModToGame";
             LoggerInfo
               "ModLoader ====== SC2DataManager startInit() end. To Start JsPreloader....."].
Proof.
  apply (startInit_first_invocation_completes exampleImports
           (constructedSC2DataManager exampleDocument 12 emptyModLoader)
           exampleStoryData).
  - reflexivity.
  - reflexivity.
  - exact exampleStoryData_uniqueIds.
  - exact exampleStoryData_flat.
Defined.

Lemma startInit_failure_is_final_witness :
  let st := newSC2DataManager documentWithoutRoot 3 exampleModLoader in
  exists st1,
    startInit exampleImports st = (Throw undefinedRootError, st1)
    /\ startInitOk st1 = true
    /\ modLoader st1 = modLoader st
    /\ events st1
       = events st
         ++ [ConsoleLog "ModLoader ====== SC2DataManager startInit() start" []]
    /\ forall doc,
         startInit exampleImports (set_document doc st1)
         = (Ok tt,
            set_events
              (events st1
               ++ [ConsoleLog
                     "ModLoader ====== SC2DataManager startInit() already start" []])
              (set_document doc st1)).
Proof.
  apply (startInit_failure_is_final exampleImports
           (newSC2DataManager documentWithoutRoot 3 exampleModLoader)); reflexivity.
Defined.

Lemma nestedStoryData_uniqueIds : uniqueIds nestedStoryData.
Proof.
  unfold uniqueIds. apply NoDup_ListNoDup.
  apply (bool_decide_unpack _). vm_compute. reflexivity.
Qed.

Lemma patchModToGame_nested_style_throws_witness :
  exists st' baseline,
    patchModToGame exampleImports (newSC2DataManager nestedDocument 9 exampleModLoader)
    = (Throw NotFoundError, st')
    /\ cSC2DataInfoAfterPatchCache st' = Some baseline
    /\ heap st' !! baseline = Some (captureOf exampleImports nestedStoryData).
Proof.
  apply (patchModToGame_nested_style_throws exampleImports
           (newSC2DataManager nestedDocument 9 exampleModLoader)
           nestedStoryData nestedStyleNode).
  - reflexivity.
  - exact nestedStoryData_uniqueIds.
  - vm_compute. left. reflexivity.
  - vm_compute. intuition discriminate.
Defined.

Lemma makeScriptNode_sorts_in_place_witness :
  let sorted := sortScriptFileItems (scriptFileItems (cache modA)) in
  exists st1 st2,
    makeScriptNode 0 exampleManagerWithObject
    = (Ok (scriptNodeOf (nextNodeId exampleManagerWithObject) sorted), st1)
    /\ heap st1
       = <[0%nat := set_scriptFileItems sorted (cache modA)]>
           (heap exampleManagerWithObject)
    /\ Permutation sorted (scriptFileItems (cache modA))
    /\ document st1 = document exampleManagerWithObject
    /\ makeScriptNode 0 st1
       = (Ok (scriptNodeOf (nextNodeId exampleManagerWithObject + 2) sorted), st2)
    /\ heap st2 = heap st1
    /\ textContent (scriptNodeOf (nextNodeId exampleManagerWithObject + 2) sorted)
       = textContent (scriptNodeOf (nextNodeId exampleManagerWithObject) sorted).
Proof.
  apply (makeScriptNode_sorts_in_place 0 exampleManagerWithObject (cache modA)).
  reflexivity.
Defined.

Lemma exampleDocument_newPassageNode : newNodesFor exampleDocument [newPassageNode].
Proof.
  split.
  - apply NoDup_ListNoDup. apply (bool_decide_unpack _). vm_compute. reflexivity.
  - intros i Hi Hdoc. vm_compute in Hi, Hdoc.
    repeat (destruct Hi as [<-|Hi]; [intuition discriminate|]). destruct Hi.
Qed.

Lemma exampleStoryData_children_NoDup : List.NoDup (map nid (childNodes exampleStoryData)).
Proof.
  apply NoDup_ListNoDup. apply (bool_decide_unpack _). vm_compute. reflexivity.
Qed.

Lemma rePlacePassage_replaces_witness :
  exists st' root',
    rePlacePassage [startPassageNode] [newPassageNode] exampleManager = (Ok tt, st')
    /\ rootOf st' = Some root'
    /\ childNodes root'
       = List.filter (fun c => negb (existsb (sameNode c) [startPassageNode]))
           (childNodes exampleStoryData)
         ++ [newPassageNode]
    /\ events st'
       = events exampleManager ++ [ConsoleLog "rePlacePassage()" [];
                                   ConsoleLog "rePlacePassage() rootNode" []].
Proof.
  apply (rePlacePassage_replaces [startPassageNode] [newPassageNode] exampleManager
           exampleStoryData).
  - reflexivity.
  - exact exampleStoryData_children_NoDup.
  - apply NoDup_ListNoDup. apply (bool_decide_unpack _). vm_compute. reflexivity.
  - intros t Ht. destruct Ht as [<-|[]]. vm_compute. intuition reflexivity.
  - exact exampleDocument_newPassageNode.
Defined.

Lemma rePlacePassage_stops_at_foreign_node_witness :
  let kept :=
    List.filter (fun c => negb (existsb (sameNode c) [startPassageNode]))
      (childNodes exampleStoryData) in
  exists st' root',
    rePlacePassage ([startPassageNode] ++ startPassageNode :: [endPassageNode]) []
      exampleManager
    = (Throw NotFoundError, st')
    /\ rootOf st' = Some root'
    /\ childNodes root' = kept.
Proof.
  apply (rePlacePassage_stops_at_foreign_node [startPassageNode] [endPassageNode] []
           startPassageNode exampleManager exampleStoryData).
  - reflexivity.
  - exact exampleStoryData_children_NoDup.
  - apply NoDup_ListNoDup. apply (bool_decide_unpack _). vm_compute. reflexivity.
  - intros t Ht. destruct Ht as [<-|[]]. vm_compute. intuition reflexivity.
  - vm_compute. intuition discriminate.
Defined.

Lemma rePlacePassage_keeps_snapshots_witness :
  let st' :=
    snd (rePlacePassage [startPassageNode] [newPassageNode]
           exampleManagerWithSnapshots) in
  heap st' = heap exampleManagerWithSnapshots
  /\ getSC2DataInfoAfterPatch exampleImports st' = (Ok 1%nat, st')
  /\ getSC2DataInfoCache exampleImports st' = (Ok (Some 0%nat), st').
Proof.
  apply (rePlacePassage_keeps_snapshots exampleImports [startPassageNode]
           [newPassageNode] exampleManagerWithSnapshots 0%nat 1%nat); reflexivity.
Defined.

(** ** Refreshing the after-patch snapshot *)

(** [flushAfterPatchCache] never updates the cached snapshot in place:
    it captures the render tree into a new object and caches that one.
    The object that was cached before keeps its content, so a caller
    that still holds the old reference reads the old snapshot. *)
Theorem flushAfterPatchCache_makes_new_object (env : Imports) (st : SC2DataManager)
    (root : Node) (old : nat) (v : SC2DataInfo) :
  rootOf st = Some root ->
  cSC2DataInfoAfterPatchCache st = Some old ->
  heap st !! old = Some v ->
  exists st' r,
    flushAfterPatchCache env st = (Ok tt, st')
    /\ cSC2DataInfoAfterPatchCache st' = Some r
    /\ r <> old
    /\ heap st' !! r = Some (captureOf env root)
    /\ heap st' !! old = Some v
    /\ document st' = document st.
Proof.
  intros Hroot Hc Hv.
  rewrite (flushAfterPatchCache_run env st root Hroot).
  pose proof (lookup_lt_Some _ _ _ Hv) as Hlt.
  exists (refreshed env root st).
  destruct st as [doc next h [o|] c started loader conflicts evs created];
    cbn [cSC2DataInfoAfterPatchCache heap] in Hc, Hv, Hlt; subst c;
    unfold refreshed, recaptured, initialized;
    cbn [originSC2DataInfoCache set_cSC2DataInfoAfterPatchCache set_heap set_events
         set_originSC2DataInfoCache heap cSC2DataInfoAfterPatchCache document events];
    eexists; (split; [reflexivity|]); (split; [reflexivity|]).
  - split; [rewrite ?length_app; cbn [length]; lia|].
    split; [apply lookup_alloc|].
    split; [|reflexivity].
    now rewrite lookup_snoc_lt.
  - split; [rewrite ?length_app; cbn [length]; lia|].
    split; [apply lookup_alloc|].
    split; [|reflexivity].
    rewrite lookup_snoc_lt by (rewrite length_app; cbn [length]; lia).
    now rewrite lookup_snoc_lt.
Qed.

(** [earlyResetSC2DataInfoCache] is [flushAfterPatchCache] under another
    name whenever the document has its story-data root or the origin
    snapshot is already there: its own [initSC2DataInfoCache] only
    does first what the flush does anyway. *)
Theorem earlyResetSC2DataInfoCache_is_flush (env : Imports) (st : SC2DataManager) :
  rootOf st <> None \/ originSC2DataInfoCache st <> None ->
  earlyResetSC2DataInfoCache env st = flushAfterPatchCache env st.
Proof.
  intros Hcase. unfold earlyResetSC2DataInfoCache. rewrite bind_run.
  destruct (originSC2DataInfoCache st) as [o|] eqn:Ho.
  - now rewrite (initSC2DataInfoCache_keeps env st o Ho).
  - destruct Hcase as [Hroot|Hor]; [|contradiction].
    destruct (rootOf st) as [root|] eqn:Er; [|contradiction].
    rewrite (initSC2DataInfoCache_run env st root Er).
    assert (Hroot1 : rootOf (initialized env root st) = Some root).
    { rewrite <- Er. now destruct st as [doc next h [o|] c started loader conflicts evs created]. }
    rewrite (flushAfterPatchCache_run env _ root Hroot1),
      (flushAfterPatchCache_run env st root Er).
    f_equal. destruct st as [doc next h o c started loader conflicts evs created].
    cbn [originSC2DataInfoCache] in Ho. subst o. reflexivity.
Qed.

Lemma flushAfterPatchCache_makes_new_object_witness :
  exists st' r,
    flushAfterPatchCache exampleImports exampleManagerWithSnapshots = (Ok tt, st')
    /\ cSC2DataInfoAfterPatchCache st' = Some r
    /\ r <> 1%nat
    /\ heap st' !! r = Some (captureOf exampleImports exampleStoryData)
    /\ heap st' !! 1%nat = Some (captureOf exampleImports exampleStoryData)
    /\ document st' = document exampleManagerWithSnapshots.
Proof.
  apply (flushAfterPatchCache_makes_new_object exampleImports
           exampleManagerWithSnapshots exampleStoryData 1%nat
           (captureOf exampleImports exampleStoryData)); reflexivity.
Defined.

Lemma earlyResetSC2DataInfoCache_is_flush_witness :
  earlyResetSC2DataInfoCache exampleImports exampleManager
  = flushAfterPatchCache exampleImports exampleManager.
Proof.
  apply (earlyResetSC2DataInfoCache_is_flush exampleImports exampleManager).
  left. discriminate.
Defined.

(** ** [patchModToGame], a second time *)

Lemma NoDup_app_bounds (l1 l2 : list nat) (b : nat) :
  List.NoDup l1 -> List.NoDup l2 ->
  Forall (fun j => (j < b)%nat) l1 -> Forall (fun j => (b <= j)%nat) l2 ->
  List.NoDup (l1 ++ l2).
Proof.
  intros H1 H2 Hlt Hge. induction H1 as [|x l1 Hx H1 IH]; [exact H2|].
  apply Forall_cons in Hlt as [Hxb Hlt]. cbn [app]. constructor; [|now apply IH].
  intros [Hin|Hin]%in_app_iff; [contradiction|].
  rewrite List.Forall_forall in Hge. specialize (Hge x Hin). lia.
Qed.

Lemma newElement_ids i nm attrs text :
  List.NoDup (nodeIds (newElement i nm attrs text))
  /\ Forall (fun j => (i <= j < i + 2)%nat) (nodeIds (newElement i nm attrs text))
  /\ forall s, In s (descendants (newElement i nm attrs text)) -> nodeName s = "#text".
Proof.
  rewrite newElement_children. unfold nodeIds, descendants.
  destruct (String.eqb text EmptyString); cbn.
  - split; [repeat constructor; intros []|]. split; [repeat constructor; lia|].
    intros s [].
  - split.
    { constructor; [intros [H|[]]; lia|]. constructor; [intros []|constructor]. }
    split; [repeat constructor; lia|].
    intros s [<-|[]]. reflexivity.
Qed.

Lemma passageNodesFrom_ids i Ts :
  List.NoDup (flat_map nodeIds (passageNodesFrom i Ts))
  /\ Forall (fun j => (i <= j)%nat) (flat_map nodeIds (passageNodesFrom i Ts)).
Proof.
  revert i. induction Ts as [|T Ts IH]; intros i; [split; constructor|].
  cbn [passageNodesFrom flat_map]. unfold passageNodeOf.
  destruct (newElement_ids i "tw-passagedata"
              ((match passage_id T with
                | Some z => if 0 <? z then [("pid", numberToString z)] else []
                | None => []
                end
                ++ [("name", passage_name T); ("tags", joinTags (passage_tags T))]
                ++ optionalAttribute "position" (passage_position T)
                ++ optionalAttribute "size" (passage_size T)))
              (passage_content T)) as (Hnd & Hrange & _).
  destruct (IH (S (S i))) as (Hnd' & Hge').
  split.
  - apply (NoDup_app_bounds _ _ (S (S i))); try assumption.
    eapply List.Forall_impl; [|exact Hrange]. cbn beta. intros j Hj. lia.
  - apply Forall_app. split.
    + eapply List.Forall_impl; [|exact Hrange]. cbn beta. intros j Hj. lia.
    + eapply List.Forall_impl; [|exact Hge']. cbn beta. intros j Hj. lia.
Qed.

(** The new nodes of a swap take identities from [n] on, each once. *)
Lemma new_nodes_ids n scripts styles Ts :
  let new := scriptNodeOf n scripts :: styleNodeOf (n + 2) styles
             :: passageNodesFrom (n + 4) Ts in
  List.NoDup (flat_map nodeIds new)
  /\ Forall (fun j => (n <= j)%nat) (flat_map nodeIds new).
Proof.
  intros new. unfold new, scriptNodeOf, styleNodeOf. cbn [flat_map].
  match goal with
  | |- context [nodeIds (newElement n ?nm ?ats ?tx)] =>
      destruct (newElement_ids n nm ats tx) as (Hnd1 & Hr1 & _)
  end.
  match goal with
  | |- context [nodeIds (newElement (n + 2) ?nm ?ats ?tx)] =>
      destruct (newElement_ids (n + 2) nm ats tx) as (Hnd2 & Hr2 & _)
  end.
  destruct (passageNodesFrom_ids (n + 4) Ts) as (Hnd3 & Hr3).
  split.
  - apply (NoDup_app_bounds _ _ (n + 2)); [exact Hnd1| | |].
    + apply (NoDup_app_bounds _ _ (n + 4)); [exact Hnd2|exact Hnd3| |].
      * eapply List.Forall_impl; [|exact Hr2]. cbn beta. intros j Hj. lia.
      * eapply List.Forall_impl; [|exact Hr3]. cbn beta. intros j Hj. lia.
    + eapply List.Forall_impl; [|exact Hr1]. cbn beta. intros j Hj. lia.
    + apply Forall_app. split.
      * eapply List.Forall_impl; [|exact Hr2]. cbn beta. intros j Hj. lia.
      * eapply List.Forall_impl; [|exact Hr3]. cbn beta. intros j Hj. lia.
  - apply Forall_app. split; [|apply Forall_app; split].
    + eapply List.Forall_impl; [|exact Hr1]. cbn beta. intros j Hj. lia.
    + eapply List.Forall_impl; [|exact Hr2]. cbn beta. intros j Hj. lia.
    + eapply List.Forall_impl; [|exact Hr3]. cbn beta. intros j Hj. lia.
Qed.

Lemma new_nodes_below n scripts styles Ts x s :
  In x (scriptNodeOf n scripts :: styleNodeOf (n + 2) styles
        :: passageNodesFrom (n + 4) Ts) ->
  In s (descendants x) -> nodeName s = "#text".
Proof.
  intros [<-|[<-|Hx]].
  - unfold scriptNodeOf. apply newElement_ids.
  - unfold styleNodeOf. apply newElement_ids.
  - revert Hx. generalize (n + 4)%nat. induction Ts as [|T Ts IH]; intros i; [intros []|].
    cbn [passageNodesFrom]. intros [<-|Hx]; [|now apply (IH (S (S i)))].
    unfold passageNodeOf. apply newElement_ids.
Qed.

Lemma map_nid_flat_map_nodesSelf cs :
  map nid (flat_map nodesSelf cs) = flat_map nodeIds cs.
Proof.
  induction cs as [|c cs IH]; [reflexivity|]. cbn [flat_map].
  now rewrite map_app, IH.
Qed.

(** The root that a swap leaves is flat again and its nodes have
    unique identities, when the identities of the new nodes are
    unused. *)
Lemma swapped_root_is_flat root root1 n scripts styles Ts :
  uniqueIds root ->
  flatRoot root ->
  (forall i, In i (nodeIds root) -> (i < n)%nat) ->
  childNodes root1
  = List.filter (fun c => negb (isPatchedKind c)) (childNodes root)
    ++ scriptNodeOf n scripts :: styleNodeOf (n + 2) styles
       :: passageNodesFrom (n + 4) Ts ->
  uniqueIds root1 /\ flatRoot root1.
Proof.
  intros Hu Hflat Hbound Hchildren.
  set (kept := List.filter (fun c => negb (isPatchedKind c)) (childNodes root))
    in Hchildren.
  set (new := scriptNodeOf n scripts :: styleNodeOf (n + 2) styles
              :: passageNodesFrom (n + 4) Ts) in Hchildren.
  destruct (new_nodes_ids n scripts styles Ts) as (HndNew & HgeNew). fold new in HndNew, HgeNew.
  assert (HndKept : List.NoDup (flat_map nodeIds kept)).
  { rewrite <- map_nid_flat_map_nodesSelf. unfold kept.
    now apply NoDup_map_flat_map_filter. }
  assert (HltKept : Forall (fun j => (j < n)%nat) (flat_map nodeIds kept)).
  { apply List.Forall_forall. intros j (k & Hk & Hj)%in_flat_map. apply Hbound.
    rewrite nodeIds_unfold. right. apply in_flat_map. exists k.
    split; [|exact Hj]. unfold kept in Hk. now apply List.filter_In in Hk. }
  split.
  - unfold uniqueIds, descendants. rewrite Hchildren, map_nid_flat_map_nodesSelf.
    rewrite flat_map_app. now apply (NoDup_app_bounds _ _ n).
  - intros s Hs Hkind. unfold descendants in Hs. rewrite Hchildren in Hs |- *.
    rewrite flat_map_app in Hs. apply in_app_iff in Hs as [Hs|Hs].
    + exfalso. apply in_flat_map in Hs as (k & Hk & Hs).
      unfold kept in Hk. apply List.filter_In in Hk as [Hk Hnot].
      apply nodesSelf_cases in Hs as [->|Hs].
      * rewrite Hkind in Hnot. discriminate.
      * pose proof (Hflat s (below_child_in_descendants root k s Hk Hs) Hkind) as Hchild.
        apply (nested_is_no_child (childNodes root) s k s Hu Hchild Hk Hs).
        reflexivity.
    + apply in_flat_map in Hs as (x & Hx & Hs). apply in_or_app. right.
      apply nodesSelf_cases in Hs as [->|Hs]; [exact Hx|].
      exfalso. pose proof (new_nodes_below n scripts styles Ts x s Hx Hs) as Htext.
      apply isPatchedKind_true in Hkind. rewrite Htext in Hkind.
      destruct Hkind as [H|[H|H]]; discriminate.
Qed.

Lemma filter_idem {A} (p : A -> bool) (l : list A) :
  List.filter p (List.filter p l) = List.filter p l.
Proof.
  induction l as [|x l IH]; [reflexivity|]. cbn [List.filter].
  destruct (p x) eqn:E; [|exact IH]. cbn [List.filter]. now rewrite E, IH.
Qed.

Lemma new_nodes_are_patched_kind n scripts styles Ts :
  List.filter (fun c => negb (isPatchedKind c))
    (scriptNodeOf n scripts :: styleNodeOf (n + 2) styles :: passageNodesFrom (n + 4) Ts)
  = [].
Proof.
  cbn [List.filter]. unfold scriptNodeOf, styleNodeOf.
  rewrite !newElement_children. cbn [isPatchedKind nodeName String.eqb Ascii.eqb
                                     Bool.eqb orb negb].
  generalize (n + 4)%nat. induction Ts as [|T Ts IH]; intros i; [reflexivity|].
  cbn [passageNodesFrom List.filter]. unfold passageNodeOf at 1.
  rewrite newElement_children.
  cbn [isPatchedKind nodeName String.eqb Ascii.eqb Bool.eqb orb negb]. apply IH.
Qed.

(** [patchModToGame] can be called again: on a flat root it runs to its
    end a second time, on the tree the first call left, and the root
    then holds its untouched children followed by one script node, one
    style node and the passage nodes of the second merge; script and
    style nodes do not pile up. The second call merges the mods onto
    the snapshot of the tree the first call wrote. The identities that
    [createElement] hands out are new to the document, which is what
    the last hypothesis says of the counter. *)
Theorem patchModToGame_can_be_repeated (env : Imports) (st : SC2DataManager)
    (root : Node) :
  rootOf st = Some root ->
  uniqueIds root ->
  flatRoot root ->
  (forall i, In i (nodeIds root) -> (i < nextNodeId st)%nat) ->
  exists st1 root1 st2 root2,
    patchModToGame env st = (Ok tt, st1)
    /\ rootOf st1 = Some root1
    /\ patchModToGame env st1 = (Ok tt, st2)
    /\ rootOf st2 = Some root2
    /\ let final2 :=
         afterPatchSteps (patchSteps (modLoader st))
           (mergedOnto env (captureOf env root1) (modLoader st)) in
       childNodes root2
       = List.filter (fun n => negb (isPatchedKind n)) (childNodes root)
         ++ scriptNodeOf (nextNodeId st1) (sortScriptFileItems (scriptFileItems final2))
            :: styleNodeOf (nextNodeId st1 + 2) (styleFileItems final2)
            :: passageNodesFrom (nextNodeId st1 + 4) (passageDataItems final2).
Proof.
  intros Hroot Hu Hflat Hbound.
  destruct (patchModToGame_run env st root Hroot Hu Hflat)
    as (st1 & root1 & r1 & evs1 & Hrun1 & Hroot1 & Hchildren1 & _ & _ & _ & _
        & Hloader1 & _).
  destruct (swapped_root_is_flat root root1 (nextNodeId st) _ _ _ Hu Hflat Hbound
              Hchildren1) as (Hu1 & Hflat1).
  destruct (patchModToGame_run env st1 root1 Hroot1 Hu1 Hflat1)
    as (st2 & root2 & r2 & evs2 & Hrun2 & Hroot2 & Hchildren2 & _).
  exists st1, root1, st2, root2.
  split; [exact Hrun1|]. split; [exact Hroot1|]. split; [exact Hrun2|].
  split; [exact Hroot2|].
  cbn zeta. rewrite Hchildren2, Hloader1. f_equal.
  rewrite Hchildren1, List.filter_app, filter_idem, new_nodes_are_patched_kind.
  apply List.app_nil_r.
Qed.

Lemma exampleStoryData_ids_used :
  forall i, In i (nodeIds exampleStoryData) -> (i < nextNodeId exampleManager)%nat.
Proof.
  intros i Hi. vm_compute in Hi.
  repeat (destruct Hi as [<-|Hi]; [vm_compute; lia|]). destruct Hi.
Qed.

Lemma patchModToGame_can_be_repeated_witness :
  exists st1 root1 st2 root2,
    patchModToGame exampleImports exampleManager = (Ok tt, st1)
    /\ rootOf st1 = Some root1
    /\ patchModToGame exampleImports st1 = (Ok tt, st2)
    /\ rootOf st2 = Some root2
    /\ let final2 :=
         afterPatchSteps (patchSteps (modLoader exampleManager))
           (mergedOnto exampleImports (captureOf exampleImports root1)
              (modLoader exampleManager)) in
       childNodes root2
       = List.filter (fun n => negb (isPatchedKind n)) (childNodes exampleStoryData)
         ++ scriptNodeOf (nextNodeId st1) (sortScriptFileItems (scriptFileItems final2))
            :: styleNodeOf (nextNodeId st1 + 2) (styleFileItems final2)
            :: passageNodesFrom (nextNodeId st1 + 4) (passageDataItems final2).
Proof.
  apply (patchModToGame_can_be_repeated exampleImports exampleManager exampleStoryData).
  - reflexivity.
  - exact exampleStoryData_uniqueIds.
  - exact exampleStoryData_flat.
  - exact exampleStoryData_ids_used.
Defined.
